(** * Separable Gaussian blur: a model of [image_processor.cpp]

    The file embeds [applyGaussianBlur] (and the [Pixel] structure it works
    on) and proves the properties its specification states.

    - C++ [int] values are integers of [Z]; every loop index, coordinate and
      size below is small enough that the machine arithmetic agrees with [Z]
      as long as [width + kernelSize] and [height + kernelSize] fit in an
      [int] (lemma [sample_expression_in_int_range]).
    - [uint8_t] channels are integers of [Z] between 0 and 255 ([wf_pixel]).
    - [double] arithmetic is kept behind a small interface, [arith], whose
      instance is [binary64]: the IEEE 754 double precision numbers of the
      machine (Rocq's primitive floats; [std::exp] of the C library is a
      parameter). Every operation rounds on its own, to nearest even, as
      the source is written: [r += pixel.r * kernel[k]] is a rounded product
      followed by a rounded sum (no contraction into a fused multiply-add).
      Where a statement bounds a double, the bound is on the real number
      the double stands for ([F2R]), and the rounding errors of the code are
      part of the bound.
    - [std::vector] is a list; [v[i]] outside the vector is undefined
      behaviour, which the model reports as the outcome [Undefined]. The
      allocation of a vector is taken to succeed.

    The file has five parts: the program; the definitions the statements
    use; lemmas about the model; the claims of the specification, each with
    the lemmas only it needs (C3, C5 and C1 share the analysis of the
    rounding errors that precedes them); and further properties of the
    code. *)

From Stdlib Require Import ZArith Lia Floats Reals Lra String.
From stdpp Require Import base option list list_numbers.

Open Scope Z_scope.

(** ** Outcomes of a call *)

(** A call returns a value, throws [std::invalid_argument(what)], or runs
    into undefined behaviour. *)
Inductive outcome (A : Type) : Type :=
| Return (a : A)
| Throw (what : string)
| Undefined.
Arguments Return {A} a.
Arguments Throw {A} what.
Arguments Undefined {A}.

#[global] Instance outcome_bind : MBind outcome :=
  λ A B f m, match m with
             | Return a => f a
             | Throw what => Throw what
             | Undefined => Undefined
             end.

(** [v[i]] on a [std::vector]: undefined outside [0, size). *)
Definition at_index {A} (v : list A) (i : Z) : outcome A :=
  if i <? 0 then Undefined
  else match v !! Z.to_nat i with
       | Some a => Return a
       | None => Undefined
       end.

(** [for (int i = 0; i < n; ++i) body], threading the state the body
    updates; the loop stops at the first iteration that does not return. *)
Fixpoint for_each {S} (body : Z → S → outcome S) (indices : list Z) (s : S)
  : outcome S :=
  match indices with
  | [] => Return s
  | i :: rest => s' ← body i s; for_each body rest s'
  end.

Definition for_range {S} (n : Z) (body : Z → S → outcome S) (s : S)
  : outcome S :=
  for_each body (seqZ 0 n) s.

(** [std::min] and [std::max] of <algorithm>, over the [<] of the type. *)
Definition std_min {T} (lt : T → T → bool) (a b : T) : T :=
  if lt b a then b else a.
Definition std_max {T} (lt : T → T → bool) (a b : T) : T :=
  if lt a b then b else a.

(** ** Pixels and images *)

Record Pixel := mkPixel { r : Z; g : Z; b : Z }.

(** [Pixel()] initialises a pixel to black. *)
Definition Pixel_default : Pixel := mkPixel 0 0 0.

Definition wf_channel (c : Z) : Prop := 0 ≤ c ≤ 255.
Definition wf_pixel (p : Pixel) : Prop :=
  wf_channel (r p) ∧ wf_channel (g p) ∧ wf_channel (b p).

Abbreviation Image := (list (list Pixel)).

(** [std::vector<std::vector<Pixel>> v(height, std::vector<Pixel>(width))]. *)
Definition blank_image (width height : Z) : Image :=
  replicate (Z.to_nat height) (replicate (Z.to_nat width) Pixel_default).

(** [img[y][x]] read, and the three channel stores [img[y][x].r = ...]. *)
Definition read_pixel (img : Image) (y x : Z) : outcome Pixel :=
  row ← at_index img y; at_index row x.

Definition write_pixel (img : Image) (y x : Z) (p : Pixel) : outcome Image :=
  row ← at_index img y;
  _ ← at_index row x;
  Return (<[Z.to_nat y := <[Z.to_nat x := p]> row]> img).

(** ** The arithmetic of [double] *)

Record arith := Arith {
  num : Type;
  of_int : Z → num;              (* conversion of an int; the literals 0.0, 2.0, 255.0 *)
  dadd : num → num → num;
  dmul : num → num → num;
  ddiv : num → num → num;
  dneg : num → num;
  dlt : num → num → bool;        (* operator< *)
  dexp : num → num;              (* std::exp *)
  to_uint8 : num → option Z      (* static_cast<uint8_t>; [None]: undefined behaviour *)
}.

Declare Scope num_scope.
Delimit Scope num_scope with num.
Notation "x + y" := (dadd _ x y) : num_scope.
Notation "x * y" := (dmul _ x y) : num_scope.
Notation "x / y" := (ddiv _ x y) : num_scope.
Notation "- x" := (dneg _ x) : num_scope.

(** ** The filter *)

Section Filter.
Context (D : arith).
Local Abbreviation double := (num D).
Local Notation "# z" := (of_int D z) (at level 9, format "# z").

(** Lines 91-95: the weight stored in [kernel[i]]. *)
Definition gaussian_weight (sigma : double) (center i : Z) : double :=
  let x := #(i - center) in
  dexp D (- (x * x) / (#2 * sigma * sigma))%num.

(** Lines 86-100: the kernel vector, the running [sum], and the
    normalisation loop. *)
Definition generate_weights (kernelSize : Z) (sigma : double)
  : list double * double :=
  let center := kernelSize `quot` 2 in
  foldl (λ '(kernel, sum) i,
           let kernel := <[Z.to_nat i := gaussian_weight sigma center i]> kernel in
           (kernel, (sum + default #0 (kernel !! Z.to_nat i))%num))
        (replicate (Z.to_nat kernelSize) #0, #0)
        (seqZ 0 kernelSize).

Definition gaussianKernel (kernelSize : Z) (sigma : double) : list double :=
  let '(kernel, sum) := generate_weights kernelSize sigma in
  (λ value, (value / sum)%num) <$> kernel.

(** The clamp and cast of lines 123-125 and 145-147. *)
Definition clamp (v : double) : double :=
  std_max (dlt D) #0 (std_min (dlt D) #255 v).

Definition store_channel (v : double) : outcome Z :=
  match to_uint8 D (clamp v) with
  | Some c => Return c
  | None => Undefined
  end.

(** The sample coordinate of lines 114 and 136. *)
Definition sample_coordinate (axisLength pos k center : Z) : Z :=
  std_max Z.ltb 0 (std_min Z.ltb (axisLength - 1) (pos + k - center)).

(** One tap of the inner loops (lines 113-120, 135-142). *)
Definition accumulate (kernel : list double) (k : Z) (pixel : Pixel)
    (acc : double * double * double) : outcome (double * double * double) :=
  let '(r0, g0, b0) := acc in
  w ← at_index kernel k;
  Return ((r0 + #(r pixel) * w)%num,
          (g0 + #(g pixel) * w)%num,
          (b0 + #(b pixel) * w)%num).

(** The three clamped channels of lines 123-125 and 145-147. *)
Definition quantize (acc : double * double * double) : outcome Pixel :=
  let '(r0, g0, b0) := acc in
  r1 ← store_channel r0;
  g1 ← store_channel g0;
  b1 ← store_channel b0;
  Return (mkPixel r1 g1 b1).

Definition store_pixel (img : Image) (y x : Z)
    (acc : double * double * double) : outcome Image :=
  p ← quantize acc; write_pixel img y x p.

(** Lines 110-120: the taps of the horizontal pass at [(x, y)]. *)
Definition horizontal_taps (imageData : Image) (width kernelSize : Z)
    (kernel : list double) (y x : Z) : outcome (double * double * double) :=
  let center := kernelSize `quot` 2 in
  for_range kernelSize (λ k acc,
    let sampleX := sample_coordinate width x k center in
    pixel ← read_pixel imageData y sampleX;
    accumulate kernel k pixel acc) (#0, #0, #0).

(** Lines 108-127. *)
Definition horizontal_pass (imageData : Image) (width height kernelSize : Z)
    (kernel : list double) (temp : Image) : outcome Image :=
  for_range height (λ y temp,
    for_range width (λ x temp,
      acc ← horizontal_taps imageData width kernelSize kernel y x;
      store_pixel temp y x acc) temp) temp.

(** Lines 132-142: the taps of the vertical pass at [(x, y)]. *)
Definition vertical_taps (temp : Image) (height kernelSize : Z)
    (kernel : list double) (y x : Z) : outcome (double * double * double) :=
  let center := kernelSize `quot` 2 in
  for_range kernelSize (λ k acc,
    let sampleY := sample_coordinate height y k center in
    pixel ← read_pixel temp sampleY x;
    accumulate kernel k pixel acc) (#0, #0, #0).

(** Lines 130-149. *)
Definition vertical_pass (temp : Image) (width height kernelSize : Z)
    (kernel : list double) (result : Image) : outcome Image :=
  for_range height (λ y result,
    for_range width (λ x result,
      acc ← vertical_taps temp height kernelSize kernel y x;
      store_pixel result y x acc) result) result.

(** Lines 161-163: [gaussianFunction], a file-local helper that nothing
    calls; the kernel loop repeats its formula. *)
Definition gaussianFunction (x sigma : double) : double :=
  dexp D (- (x * x) / (#2 * sigma * sigma))%num.

(** The default argument [sigma = 1.0] of line 70. *)
Definition default_sigma : double := #1.

Definition kernel_size_message : string := "Kernel size must be odd and >= 3".
Definition dimensions_message : string := "Image dimensions must be positive".
Definition empty_image_message : string := "Image data cannot be empty".

(** [imageData.empty() || imageData[0].empty()] *)
Definition image_is_empty (imageData : Image) : bool :=
  match imageData with
  | [] => true
  | row0 :: _ => bool_decide (row0 = [])
  end.

Definition applyGaussianBlur (imageData : Image)
    (width height kernelSize : Z) (sigma : double) : outcome Image :=
  if (kernelSize <? 3) || (kernelSize `rem` 2 =? 0) then
    Throw kernel_size_message
  else if (width <=? 0) || (height <=? 0) then
    Throw dimensions_message
  else if image_is_empty imageData then
    Throw empty_image_message
  else
    let kernel := gaussianKernel kernelSize sigma in
    let result := blank_image width height in
    let temp := blank_image width height in
    temp ← horizontal_pass imageData width height kernelSize kernel temp;
    vertical_pass temp width height kernelSize kernel result.

End Filter.

(** ** Binary64: the arithmetic of the machine *)

Module Binary64.

(** Conversion of an [int] to [double]; exact for every 32-bit value. *)
Definition of_int (z : Z) : float :=
  if z <? 0 then PrimFloat.opp (PrimFloat.of_uint63 (Uint63.of_Z (- z)))
  else PrimFloat.of_uint63 (Uint63.of_Z z).

(** The integer a finite [double] truncates to (rounding toward zero). *)
Definition truncate (f : float) : option Z :=
  match Prim2SF f with
  | S754_zero _ => Some 0
  | S754_finite s m e => Some (cond_Zopp s (Z.shiftl (Z.pos m) e))
  | _ => None
  end.

(** [static_cast<uint8_t>(f)]: defined when the truncated value fits. *)
Definition to_uint8 (f : float) : option Z :=
  t ← truncate f;
  if (0 <=? t) && (t <=? 255) then Some t else None.

End Binary64.

(** [binary64 e] computes in double precision, with [e] for [std::exp]. *)
Definition binary64 (libm_exp : float → float) : arith :=
  Arith float Binary64.of_int PrimFloat.add PrimFloat.mul PrimFloat.div
        PrimFloat.opp PrimFloat.ltb libm_exp Binary64.to_uint8.

(** What the C standard (Annex F) fixes about [exp] at the special values. *)
Record annex_F (libm_exp : float → float) : Prop := {
  exp_zero : libm_exp 0%float = 1%float;
  exp_neg_zero : libm_exp neg_zero = 1%float;
  exp_neg_infinity : libm_exp neg_infinity = 0%float;
  exp_infinity : libm_exp infinity = infinity;
  exp_nan : libm_exp nan = nan
}.

(** ** The index expressions in [int]

    The filter above computes its indices in [Z]. The source computes them
    in [int], where an overflow is undefined behaviour; the definitions
    below follow the same expressions operation by operation and yield no
    value when an operation leaves the range of [int]. *)

Definition INT_MIN : Z := - 2 ^ 31.
Definition INT_MAX : Z := 2 ^ 31 - 1.

Definition checked_int (z : Z) : option Z :=
  if (INT_MIN <=? z) && (z <=? INT_MAX) then Some z else None.

(** [std::max(0, std::min(axisLength - 1, pos + k - center))] of lines 114
    and 136. *)
Definition sample_coordinate_int (axisLength pos k center : Z) : option Z :=
  last ← checked_int (axisLength - 1);
  shifted ← checked_int (pos + k);
  offset ← checked_int (shifted - center);
  Some (std_max Z.ltb 0 (std_min Z.ltb last offset)).

(** [center = kernelSize / 2] and [i - center] of lines 88 and 92. *)
Definition kernel_offset_int (kernelSize i : Z) : option Z :=
  center ← checked_int (kernelSize `quot` 2);
  checked_int (i - center).

(** * Definitions for the specification *)

(** [tabulate n f] is the vector [f 0, ..., f (n-1)]. *)
Definition tabulate {A} (n : Z) (f : Z → A) : list A := f <$> seqZ 0 n.

(** ** What the loops compute *)

Section Formulas.
Context (D : arith).
Local Abbreviation double := (num D).
Local Notation "# z" := (of_int D z) (at level 9, format "# z").

Definition raw_weights (kernelSize : Z) (sigma : double) : list double :=
  tabulate kernelSize (gaussian_weight D sigma (kernelSize `quot` 2)).

(** [sum = 0.0; sum += kernel[0]; sum += kernel[1]; ...] *)
Definition running_sum (values : list double) : double :=
  foldl (dadd D) #0 values.

(** [kernel[k]] and [img[y][x]] where the index is known to be inside. *)
Definition weight_at (kernel : list double) (k : Z) : double :=
  default #0 (kernel !! Z.to_nat k).

Definition pixel_at (img : Image) (y x : Z) : Pixel :=
  default Pixel_default (row ← img !! Z.to_nat y; row !! Z.to_nat x).

(** The value one accumulator holds after the [kernelSize] taps, for the
    channel values [channel k] the taps read. *)
Definition channel_sum (kernel : list double) (kernelSize : Z)
    (channel : Z → Z) : double :=
  foldl (λ acc k, (acc + #(channel k) * weight_at kernel k)%num) #0
        (seqZ 0 kernelSize).

Definition weighted_sum (kernel : list double) (kernelSize : Z)
    (sample : Z → Pixel) : double * double * double :=
  (channel_sum kernel kernelSize (λ k, r (sample k)),
   channel_sum kernel kernelSize (λ k, g (sample k)),
   channel_sum kernel kernelSize (λ k, b (sample k))).

(** The channel value a clamped and cast accumulator is stored as. *)
Definition stored_channel (v : double) : Z :=
  default 0 (to_uint8 D (clamp D v)).

Definition quantized (acc : double * double * double) : Pixel :=
  let '(r0, g0, b0) := acc in
  mkPixel (stored_channel r0) (stored_channel g0) (stored_channel b0).

Definition horizontal_pixel (imageData : Image) (width kernelSize : Z)
    (kernel : list double) (y x : Z) : Pixel :=
  quantized (weighted_sum kernel kernelSize (λ k,
    pixel_at imageData y (sample_coordinate width x k (kernelSize `quot` 2)))).

Definition vertical_pixel (temp : Image) (height kernelSize : Z)
    (kernel : list double) (y x : Z) : Pixel :=
  quantized (weighted_sum kernel kernelSize (λ k,
    pixel_at temp (sample_coordinate height y k (kernelSize `quot` 2)) x)).

Definition horizontal_image (imageData : Image) (width height kernelSize : Z)
    (kernel : list double) : Image :=
  tabulate height (λ y,
    tabulate width (horizontal_pixel imageData width kernelSize kernel y)).

Definition vertical_image (temp : Image) (width height kernelSize : Z)
    (kernel : list double) : Image :=
  tabulate height (λ y,
    tabulate width (vertical_pixel temp height kernelSize kernel y)).

(** The blurred image, pixel by pixel. *)
Definition blurred (imageData : Image) (width height kernelSize : Z)
    (sigma : double) : Image :=
  let kernel := gaussianKernel D kernelSize sigma in
  vertical_image (horizontal_image imageData width height kernelSize kernel)
                 width height kernelSize kernel.

(** What one pass stores where every tap reads the colour [p]. *)
Definition recolor (kernel : list (num D)) (kernelSize : Z) (p : Pixel)
  : Pixel :=
  quantized (weighted_sum kernel kernelSize (λ _, p)).

(** The direct 2D convolution of the specification: one accumulator per
    channel sums, over the [kernelSize * kernelSize] taps, the sampled
    channel times the entry [kernel[ky] * kernel[kx]] of the outer product
    of the 1D kernel with itself; the samples are clamped to the image as
    in the passes. *)
Definition direct_channel_sum (kernel : list (num D)) (kernelSize : Z)
    (channel : Z → Z → Z) : num D :=
  foldl (λ acc ky,
           foldl (λ acc kx,
                    (acc + of_int D (channel ky kx)
                           * (weight_at kernel ky * weight_at kernel kx))%num)
                 acc (seqZ 0 kernelSize))
        (of_int D 0) (seqZ 0 kernelSize).

Definition direct_2d_convolution (kernel : list (num D)) (kernelSize : Z)
    (imageData : Image) (width height y x : Z) (channel : Pixel → Z) : num D :=
  let center := kernelSize `quot` 2 in
  direct_channel_sum kernel kernelSize (λ ky kx,
    channel (pixel_at imageData (sample_coordinate height y ky center)
                                (sample_coordinate width x kx center))).

End Formulas.

(** ** Lawful arithmetics, shapes and sample data *)

(** An arithmetic is lawful when the cast yields a [uint8_t] and accepts
    every clamped value. *)
Class lawful (D : arith) : Prop := {
  to_uint8_range : ∀ v c, to_uint8 D v = Some c → 0 ≤ c ≤ 255;
  clamp_castable : ∀ v, is_Some (to_uint8 D (clamp D v))
}.

(** [imageData] has at least [height] rows, the first [height] of which
    have at least [width] columns each. *)
Definition covers (imageData : Image) (width height : Z) : Prop :=
  ∀ y, 0 ≤ y < height →
       ∃ row, imageData !! Z.to_nat y = Some row ∧ width ≤ Z.of_nat (length row).

(** [img] has exactly [height] rows of exactly [width] pixels. *)
Definition dimensions (img : Image) (width height : Z) : Prop :=
  Z.of_nat (length img) = height ∧
  Forall (λ row : list Pixel, Z.of_nat (length row) = width) img.

(** The top-left [width] by [height] region of a grid. *)
Definition top_left (imageData : Image) (width height : Z) : Image :=
  take (Z.to_nat width) <$> take (Z.to_nat height) imageData.

(** The image of [height] rows of [width] pixels, all of colour [p]. *)
Definition uniform_image (p : Pixel) (width height : Z) : Image :=
  replicate (Z.to_nat height) (replicate (Z.to_nat width) p).

(** Small images for the worked examples. *)
Definition gray (c : Z) : Pixel := mkPixel c c c.

(** A black 3 x 3 image whose pixel (0,0) is white. *)
Definition white_corner : Image :=
  [[gray 255; gray 0; gray 0];
   [gray 0; gray 0; gray 0];
   [gray 0; gray 0; gray 0]].

Definition sample_image : Image :=
  [[gray 1; gray 1; gray 0];
   [gray 1; gray 1; gray 0];
   [gray 4; gray 4; gray 0]].

Definition orange : Pixel := mkPixel 255 128 0.

(** The three channels of a pixel. *)
Definition is_channel (channel : Pixel → Z) : Prop :=
  channel = r ∨ channel = g ∨ channel = b.

(** ** Validation failures *)

(** The three failures the specification names, and the message each is
    thrown with ([std::invalid_argument(what)]). *)
Inductive validation_failure :=
| InvalidKernelSize
| InvalidDimensions
| EmptyImage.

Definition what (f : validation_failure) : string :=
  match f with
  | InvalidKernelSize => kernel_size_message
  | InvalidDimensions => dimensions_message
  | EmptyImage => empty_image_message
  end.

(** The three conditions of lines 73, 77 and 81. *)
Definition bad_kernel_size (kernelSize : Z) : Prop :=
  kernelSize < 3 ∨ Z.even kernelSize = true.

Definition bad_dimensions (width height : Z) : Prop :=
  width ≤ 0 ∨ height ≤ 0.

Definition no_pixels (imageData : Image) : Prop :=
  imageData = [] ∨ imageData !! 0%nat = Some [].

(** Two images have the same shape when their rows have the same lengths;
    nothing is said about the pixels they hold. *)
Definition same_shape (img1 img2 : Image) : Prop :=
  length <$> img1 = length <$> img2.

(** ** Binary64: signs, a reference exponential, special values of [sigma] *)

(** [f] is [+0.0], a positive double, plus infinity or a NaN. *)
Definition sign_clear (f : float) : Prop :=
  match Prim2SF f with
  | S754_zero s | S754_infinity s | S754_finite s _ _ => s = false
  | S754_nan => True
  end.

Definition SF_sign_is (s : bool) (f : spec_float) : Prop :=
  match f with
  | S754_zero s' | S754_infinity s' | S754_finite s' _ _ => s' = s
  | S754_nan => True
  end.

Fixpoint exp_series (terms : nat) (i : float) (y : float) : float :=
  match terms with
  | O => 1
  | Datatypes.S terms' => 1 + y / i * exp_series terms' (i + 1) y
  end%float.

Fixpoint repeated_square (n : nat) (y : float) : float :=
  match n with
  | O => y
  | Datatypes.S n' => let z := repeated_square n' y in (z * z)%float
  end.

Definition exp_reference (x : float) : float :=
  if PrimFloat.eqb x x then
    if PrimFloat.ltb x (-746) then 0%float
    else if PrimFloat.ltb 710 x then infinity
    else repeated_square 10 (exp_series 20 1 (x / 1024))
  else nan.

(** Values of [sigma] for which the kernel does not depend on the digits of
    [exp]: [2^600], whose square overflows; [2^-530], for which the quotient
    [-(x*x)/(2*sigma*sigma)] overflows beside the centre; [2^-600], for which
    [2*sigma*sigma] underflows to zero. [third] and [seventh] are the doubles
    nearest to 1/3 and 1/7. *)

Definition third : float := 0x1.5555555555555p-2.

Definition seventh : float := 0x1.2492492492492p-3.

Definition huge_sigma : float := 0x1p+600.

Definition tiny_sigma : float := 0x1p-530.

Definition vanishing_sigma : float := 0x1p-600.

(** ** Binary64: the real number a double stands for

    The definitions below read a double as a real number and name the
    quantities the error bounds are stated with. *)

(** Powers of two. *)
Definition bpow (e : Z) : R := powerRZ 2 e.

(** The real number a specified double stands for (0 for infinities and
    NaN, which the statements exclude where they use it). *)
Definition SF2R (f : spec_float) : R :=
  match f with
  | S754_finite s m e => (IZR (cond_Zopp s (Z.pos m)) * bpow e)%R
  | _ => 0%R
  end.

(** The real number a double stands for. *)
Definition F2R (f : float) : R := SF2R (Prim2SF f).

(** A double that is a zero or a positive finite number. *)
Definition nonneg (f : float) : Prop :=
  match Prim2SF f with
  | S754_zero _ | S754_finite false _ _ => True
  | _ => False
  end.

(** A positive finite double. *)
Definition positive_finite (f : float) : Prop :=
  match Prim2SF f with
  | S754_finite false _ _ => True
  | _ => False
  end.

(** The unit roundoff and the smallest rounding error of binary64. *)
Definition u : R := bpow (- 53).
Definition eta : R := bpow (- 1075).

(** [x] lies in [[m, m + 1)], at the place the two flags say: on [m], in the
    lower half, on the middle, in the upper half. *)
Definition located (x : R) (mrs : shr_record) : Prop :=
  match shr_r mrs, shr_s mrs with
  | false, false => x = IZR (shr_m mrs)
  | false, true => (IZR (shr_m mrs) < x < IZR (shr_m mrs) + / 2)%R
  | true, false => x = (IZR (shr_m mrs) + / 2)%R
  | true, true => (IZR (shr_m mrs) + / 2 < x < IZR (shr_m mrs) + 1)%R
  end.

(** The result of a rounding that did not overflow: a zero or a positive
    finite number of value [V]. *)
Definition rounds_to (f : spec_float) (V : R) : Prop :=
  (∃ s, f = S754_zero s) ∧ V = 0%R ∨
  ∃ m e, f = S754_finite false m e ∧ V = (IZR (Z.pos m) * bpow e)%R.

(** [c] converts to a double of value [c]. *)
Definition level_is_exact (c : Z) : bool :=
  match Prim2SF (Binary64.of_int c) with
  | S754_zero _ => c =? 0
  | S754_finite false m e => (e <=? 0) && (Z.pos m =? c * 2 ^ (- e))
  | _ => false
  end.

(** The sum of a list of real numbers. *)
Definition Rsum (l : list R) : R := foldr Rplus 0%R l.

(** The running sum [sum = a; sum += l[0]; sum += l[1]; ...] of doubles. *)
Definition fsum (a : float) (l : list float) : float := foldl PrimFloat.add a l.

(** [0.0 <= v && v <= 1.0] *)
Definition in_unit_interval (v : float) : bool :=
  PrimFloat.leb 0 v && PrimFloat.leb v 1.

(** The values [exp] returns for the taps of the kernel (line 93) are those
    of an exponential at arguments that are not positive: each lies in
    [[0.0, 1.0]], and the one of the centre, where the offset is 0, is 1.0.
    A NaN fails both comparisons. *)
Definition ordinary_weights (libm_exp : float → float) (kernelSize : Z)
    (sigma : float) : bool :=
  let raw := raw_weights (binary64 libm_exp) kernelSize sigma in
  forallb in_unit_interval raw
  && PrimFloat.leb 1 (weight_at (binary64 libm_exp) raw (kernelSize `quot` 2)).

(** A kernel of [kernelSize] finite weights that are not negative and sum
    to 1 within [kernelSize * 2^-50]. *)
Definition normalised (kernel : list float) (kernelSize : Z) : Prop :=
  length kernel = Z.to_nat kernelSize ∧ Forall nonneg kernel ∧
  (Rabs (Rsum (F2R <$> kernel) - 1) <= IZR kernelSize * bpow (-50))%R.

(** The sum of the products a tap loop would accumulate without rounding. *)
Definition real_channel_sum (kernel : list float) (kernelSize : Z)
    (channel : Z → Z) : R :=
  Rsum ((λ k, IZR (channel k) * F2R (default 0%float (kernel !! Z.to_nat k)))%R
          <$> seqZ 0 kernelSize).

(** The sum of the products the direct convolution would accumulate
    without rounding: the weighted sum of the weighted sums of the rows. *)
Definition real_direct_sum (kernel : list float) (kernelSize : Z)
    (channel : Z → Z → Z) : R :=
  Rsum ((λ ky, real_channel_sum kernel kernelSize (channel ky)
               * F2R (default 0%float (kernel !! Z.to_nat ky)))%R
          <$> seqZ 0 kernelSize).

(** ** The claims of the specification, as it states them *)

(** The symmetry the specification states, read with the [==] of C++, for a
    given [exp]. *)
Definition kernel_symmetry_claim (libm_exp : float → float) : Prop :=
  ∀ (kernelSize : Z) (sigma : float) (i : Z) (a c : float),
    3 ≤ kernelSize → Z.odd kernelSize = true → PrimFloat.ltb 0 sigma = true →
    0 ≤ i < kernelSize →
    gaussianKernel (binary64 libm_exp) kernelSize sigma !! Z.to_nat i = Some a →
    gaussianKernel (binary64 libm_exp) kernelSize sigma
      !! Z.to_nat (kernelSize - 1 - i) = Some c →
    PrimFloat.eqb a c = true.

(** The normalisation the specification states, for a given [exp] and a
    given tolerance on the sum. *)
Definition kernel_normalisation_claim (libm_exp : float → float)
    (tolerance : float) : Prop :=
  ∀ (kernelSize : Z) (sigma : float),
    3 ≤ kernelSize → Z.odd kernelSize = true → PrimFloat.ltb 0 sigma = true →
    let D := binary64 libm_exp in
    let kernel := gaussianKernel D kernelSize sigma in
    length kernel = Z.to_nat kernelSize ∧
    Forall (λ w, PrimFloat.ltb 0 w = true) kernel ∧
    PrimFloat.leb (PrimFloat.abs (PrimFloat.sub (running_sum D kernel) 1))
                  tolerance = true.

(** The property the specification states for solid-colour images, for a
    given [exp], a given tolerance (in channel levels) on "unchanged" and a
    given set of admitted values of [sigma]. *)
Definition uniform_claim (libm_exp : float → float) (tolerance : Z)
    (admitted : float → Prop) : Prop :=
  ∀ (p : Pixel) (width height kernelSize : Z) (sigma : float),
    3 ≤ kernelSize → Z.odd kernelSize = true → 0 < width → 0 < height →
    wf_pixel p → admitted sigma →
    ∃ result,
      applyGaussianBlur (binary64 libm_exp) (uniform_image p width height)
                        width height kernelSize sigma = Return result ∧
      ∀ y x, 0 ≤ y < height → 0 ≤ x < width →
        Z.abs (r (pixel_at result y x) - r p) ≤ tolerance ∧
        Z.abs (g (pixel_at result y x) - g p) ≤ tolerance ∧
        Z.abs (b (pixel_at result y x) - b p) ≤ tolerance.

(** The equivalence the specification states, for a given [exp], with the
    generous tolerance of one whole level: every channel the two passes store
    is less than 1.0 away from the accumulator of the direct convolution. *)
Definition separability_claim (libm_exp : float → float) : Prop :=
  ∀ (imageData : Image) (width height kernelSize : Z) (sigma : float),
    3 ≤ kernelSize → Z.odd kernelSize = true → 0 < width → 0 < height →
    dimensions imageData width height →
    Forall (Forall wf_pixel) imageData →
    PrimFloat.ltb 0 sigma = true →
    let D := binary64 libm_exp in
    let kernel := gaussianKernel D kernelSize sigma in
    ∃ result,
      applyGaussianBlur D imageData width height kernelSize sigma = Return result ∧
      ∀ y x, 0 ≤ y < height → 0 ≤ x < width →
        Forall (λ channel : Pixel → Z,
                  PrimFloat.ltb
                    (PrimFloat.abs
                       (PrimFloat.sub
                          (Binary64.of_int (channel (pixel_at result y x)))
                          (direct_2d_convolution D kernel kernelSize imageData
                                                 width height y x channel)))
                    1 = true)
               [r; g; b].

(** ** Definitions for the further properties *)


(** [2.0 * sigma * sigma] is zero or a NaN: [sigma] is [0.0], [-0.0], a NaN,
    or so small that the product underflows. *)
Definition degenerate (sigma : float) : bool :=
  let d := (2 * sigma * sigma)%float in
  PrimFloat.is_zero d || PrimFloat.is_nan d.

(** A double that is a zero or a finite non-zero number. *)
Definition finite (f : float) : bool :=
  match Prim2SF f with
  | S754_zero _ | S754_finite _ _ _ => true
  | _ => false
  end.

(** The kernel whose centre weight is 1 and whose other weights are +0.0. *)
Definition centre_only (kernelSize : Z) : list float :=
  tabulate kernelSize (λ i, if i =? kernelSize `quot` 2 then 1%float else 0%float).

(** [(y', x')] lies in the square of [kernelSize] by [kernelSize] pixels
    centred at [(y, x)]. *)
Definition in_window (kernelSize y x y' x' : Z) : Prop :=
  Z.abs (y' - y) ≤ kernelSize `quot` 2 ∧ Z.abs (x' - x) ≤ kernelSize `quot` 2.

(** The pixel whose three channels are the channels [c1], [c2] and [c3] of
    [p]: a permutation of the channels, or one channel repeated. *)
Definition remix (c1 c2 c3 : Pixel → Z) (p : Pixel) : Pixel :=
  mkPixel (c1 p) (c2 p) (c3 p).

Definition remix_image (c1 c2 c3 : Pixel → Z) (img : Image) : Image :=
  (λ row : list Pixel, remix c1 c2 c3 <$> row) <$> img.

(** The sample image with its bottom-right pixel repainted. *)
Definition sample_image_repainted : Image :=
  [[gray 1; gray 1; gray 0];
   [gray 1; gray 1; gray 0];
   [gray 4; gray 4; gray 200]].

(** A 4 x 4 image that is black but for its right column. *)
Definition black_with_bright_column : Image :=
  replicate 4 [gray 0; gray 0; gray 0; gray 255].

(** A 3 x 4 image that holds, one column to the right, the pixels of the
    sample image. *)
Definition sample_image_shifted : Image :=
  [[gray 9; gray 1; gray 1; gray 0];
   [gray 9; gray 1; gray 1; gray 0];
   [gray 9; gray 4; gray 4; gray 0]].

(** * Lemmas *)

(** ** Loops *)

Section Loops.
Context {S : Type}.
Implicit Types (body : Z → S → outcome S) (s : S).

Lemma for_each_app body l1 l2 s :
  for_each body (l1 ++ l2) s = s' ← for_each body l1 s; for_each body l2 s'.
Proof.
  revert s. induction l1 as [|i l1 IH]; intros s; simpl; [done|].
  destruct (body i s); simpl; auto.
Qed.

Lemma for_each_ext body body' l s :
  (∀ i s', i ∈ l → body i s' = body' i s') →
  for_each body l s = for_each body' l s.
Proof.
  revert s. induction l as [|i l IH]; intros s H; simpl; [done|].
  rewrite H by left. destruct (body' i s); simpl; [|done..].
  apply IH. intros. apply H. by right.
Qed.

(** A loop whose iterations all return preserves an invariant. *)
Lemma for_each_invariant (P : S → Prop) body l s :
  P s →
  (∀ i s', i ∈ l → P s' → ∃ s'', body i s' = Return s'' ∧ P s'') →
  ∃ s', for_each body l s = Return s' ∧ P s'.
Proof.
  revert s. induction l as [|i l IH]; intros s Hs H; simpl; [eauto|].
  destruct (H i s) as (s'' & -> & Hs''); [by left|done|]. simpl.
  apply IH; [done|]. intros. apply H; [by right|done].
Qed.

Lemma for_range_nonpos n body s : n ≤ 0 → for_range n body s = Return s.
Proof.
  intros. unfold for_range, seqZ.
  replace (Z.to_nat n) with 0%nat by lia. done.
Qed.

Lemma for_range_ext n body body' s :
  (∀ i s', 0 ≤ i < n → body i s' = body' i s') →
  for_range n body s = for_range n body' s.
Proof.
  intros H. apply for_each_ext. intros i s' Hi. apply H.
  apply elem_of_seqZ in Hi. lia.
Qed.
End Loops.

(** A pure loop written with [for_each] is a left fold. *)
Lemma for_each_pure {S} (step : S → Z → S) l s :
  for_each (λ i s, Return (step s i)) l s = Return (foldl step s l).
Proof. revert s. induction l; intros; simpl; auto. Qed.

Lemma length_tabulate {A} n (f : Z → A) : length (tabulate n f) = Z.to_nat n.
Proof. unfold tabulate. by rewrite length_fmap, length_seqZ. Qed.

Lemma lookup_tabulate {A} n (f : Z → A) (i : nat) :
  Z.of_nat i < n → tabulate n f !! i = Some (f (Z.of_nat i)).
Proof.
  intros. unfold tabulate. rewrite list_lookup_fmap.
  rewrite (lookup_seqZ_lt 0 n i) by done. done.
Qed.

Lemma lookup_tabulate_ge {A} n (f : Z → A) (i : nat) :
  n ≤ Z.of_nat i → tabulate n f !! i = None.
Proof.
  intros. apply lookup_ge_None. rewrite length_tabulate. lia.
Qed.

Lemma tabulate_ext {A} n (f f' : Z → A) :
  (∀ i, 0 ≤ i < n → f i = f' i) → tabulate n f = tabulate n f'.
Proof.
  intros H. unfold tabulate. apply list_fmap_ext.
  intros i x Hx. apply H. apply lookup_seqZ in Hx. lia.
Qed.

(** Vector accesses. *)
Lemma at_index_Return {A} (v : list A) (i : Z) a :
  at_index v i = Return a ↔ 0 ≤ i ∧ v !! Z.to_nat i = Some a.
Proof.
  unfold at_index. destruct (Z.ltb_spec i 0).
  - split; [done|lia].
  - destruct (v !! Z.to_nat i); split; intros; try done;
      destruct_and?; simplify_eq; auto.
Qed.

Lemma at_index_tabulate {A} n (f : Z → A) i :
  0 ≤ i < n → at_index (tabulate n f) i = Return (f i).
Proof.
  intros. apply at_index_Return. split; [lia|].
  rewrite lookup_tabulate by lia. f_equal. f_equal. lia.
Qed.

(** ** Filling a grid pixel by pixel *)

Lemma write_pixel_Return (img : Image) y x p row :
  0 ≤ y → 0 ≤ x →
  img !! Z.to_nat y = Some row → (Z.to_nat x < length row)%nat →
  write_pixel img y x p
  = Return (<[Z.to_nat y := <[Z.to_nat x := p]> row]> img).
Proof.
  intros Hy Hx Hrow Hlen. unfold write_pixel.
  destruct (lookup_lt_is_Some_2 row (Z.to_nat x) Hlen) as [q Hq].
  rewrite (proj2 (at_index_Return img y row)) by done. simpl.
  rewrite (proj2 (at_index_Return row x q)) by done. done.
Qed.

(** The loop over [x] of one row: it replaces the pixels of row [y] from left
    to right and leaves the other rows alone. *)
Lemma fill_row (body : Z → Image → outcome Image) (p : Z → Pixel) y rest :
  ∀ (filled : list Pixel) (img : Image),
    0 ≤ y →
    img !! Z.to_nat y = Some (filled ++ rest) →
    (∀ x img', Z.of_nat (length filled) ≤ x < Z.of_nat (length filled + length rest) →
               body x img' = write_pixel img' y x (p x)) →
    for_each body (seqZ (Z.of_nat (length filled)) (Z.of_nat (length rest))) img
    = Return (<[Z.to_nat y :=
                 filled ++ (p <$> seqZ (Z.of_nat (length filled)) (Z.of_nat (length rest)))]> img).
Proof.
  induction rest as [|a rest IH]; intros filled img Hy Hrow Hbody.
  - unfold seqZ. simpl. rewrite app_nil_r in *. by rewrite list_insert_id.
  - rewrite seqZ_cons by (simpl; lia). simpl for_each.
    rewrite Hbody by (simpl; lia).
    rewrite (write_pixel_Return img y (Z.of_nat (length filled))
               (p (Z.of_nat (length filled))) (filled ++ a :: rest) Hy
               (Nat2Z.is_nonneg _) Hrow)
      by (rewrite length_app; simpl; lia).
    simpl.
    replace (Z.to_nat (Z.of_nat (length filled))) with (length filled + 0)%nat by lia.
    rewrite insert_app_r. simpl.
    replace (Z.succ (Z.of_nat (length filled)))
      with (Z.of_nat (length (filled ++ [p (Z.of_nat (length filled))])))
      by (rewrite length_app; simpl; lia).
    replace (Z.pred (Z.of_nat (Datatypes.S (length rest)))) with (Z.of_nat (length rest))
      by lia.
    rewrite IH.
    + rewrite list_insert_insert_eq. f_equal. f_equal.
      rewrite <- app_assoc, length_app. simpl. repeat f_equal; lia.
    + done.
    + rewrite list_lookup_insert_eq by (by eapply lookup_lt_Some).
      by rewrite <- app_assoc.
    + intros x img' Hx. apply Hbody. rewrite length_app in Hx. simpl in *. lia.
Qed.

(** The loop over [y]: each iteration replaces one row. *)
Lemma fill_rows (body : Z → Image → outcome Image) (rowval : Z → list Pixel)
    (w : nat) rest :
  ∀ filled : Image,
    Forall (λ row, length row = w) rest →
    (∀ y (img' : Image) row,
       Z.of_nat (length filled) ≤ y < Z.of_nat (length filled + length rest) →
       img' !! Z.to_nat y = Some row → length row = w →
       body y img' = Return (<[Z.to_nat y := rowval y]> img')) →
    for_each body (seqZ (Z.of_nat (length filled)) (Z.of_nat (length rest)))
             (filled ++ rest)
    = Return (filled ++ (rowval <$> seqZ (Z.of_nat (length filled))
                                       (Z.of_nat (length rest)))).
Proof.
  induction rest as [|a rest IH]; intros filled Hw Hbody.
  - unfold seqZ. simpl. done.
  - apply Forall_cons in Hw as [Ha Hw].
    rewrite seqZ_cons by (simpl; lia). simpl for_each.
    rewrite (Hbody _ _ a); [|simpl; lia| |done]; cycle 1.
    { rewrite Nat2Z.id. by rewrite list_lookup_middle. }
    simpl. rewrite Nat2Z.id.
    rewrite insert_app_r_alt, Nat.sub_diag by lia. simpl.
    replace (Z.succ (Z.of_nat (length filled)))
      with (Z.of_nat (length (filled ++ [rowval (Z.of_nat (length filled))])))
      by (rewrite length_app; simpl; lia).
    replace (Z.pred (Z.of_nat (Datatypes.S (length rest)))) with (Z.of_nat (length rest))
      by lia.
    replace (filled ++ rowval (Z.of_nat (length filled)) :: rest)
      with ((filled ++ [rowval (Z.of_nat (length filled))]) ++ rest)
      by (by rewrite <- app_assoc).
    rewrite IH.
    + rewrite <- app_assoc, length_app. simpl. repeat f_equal; lia.
    + done.
    + intros y img' row Hy. apply Hbody. rewrite length_app in Hy. simpl in *. lia.
Qed.

(** The two nested loops of a pass, started on a blank grid, produce the
    grid of the pixels they store. *)
Lemma fill_grid (cell : Z → Z → Image → outcome Image) (p : Z → Z → Pixel)
    width height :
  (∀ y x (img' : Image), 0 ≤ y < height → 0 ≤ x < width →
                         cell y x img' = write_pixel img' y x (p y x)) →
  for_range height (λ y img, for_range width (λ x img, cell y x img) img)
            (blank_image width height)
  = Return (tabulate height (λ y, tabulate width (p y))).
Proof.
  intros Hcell. unfold for_range, blank_image, tabulate.
  pose proof (fill_rows
    (λ y img, for_each (λ x img, cell y x img) (seqZ 0 width) img)
    (λ y, p y <$> seqZ 0 width) (Z.to_nat width)
    (replicate (Z.to_nat height) (replicate (Z.to_nat width) Pixel_default))
    []) as H.
  simpl in H. rewrite length_replicate in H.
  destruct (Z.le_gt_cases height 0) as [Hh|Hh].
  { unfold seqZ. replace (Z.to_nat height) with 0%nat by lia. done. }
  rewrite Z2Nat.id in H by lia. apply H; clear H.
  - apply Forall_replicate. by rewrite length_replicate.
  - intros y img' row Hy Hrow Hlen.
    pose proof (fill_row (λ x img, cell y x img) (p y) y row [] img') as H.
    simpl in H. rewrite Hlen in H.
    destruct (Z.le_gt_cases width 0) as [Hw|Hw].
    { unfold seqZ. replace (Z.to_nat width) with 0%nat in * by lia. simpl.
      destruct row; [|done]. by rewrite list_insert_id. }
    rewrite Z2Nat.id in H by lia. apply H; [lia|done|].
    intros x img'' Hx. apply Hcell; lia.
Qed.

(** ** The loops compute the formulas *)

Section Formula_lemmas.
Context (D : arith).
Local Abbreviation double := (num D).
Local Notation "# z" := (of_int D z) (at level 9, format "# z").

(** *** The kernel *)

Lemma fill_weights (f : Z → double) (rest : list double) :
  ∀ (filled : list double) (s : double),
    foldl (λ '(kernel, sum) i,
             let kernel := <[Z.to_nat i := f i]> kernel in
             (kernel, (sum + default #0 (kernel !! Z.to_nat i))%num))
          (filled ++ rest, s)
          (seqZ (Z.of_nat (length filled)) (Z.of_nat (length rest)))
    = (filled ++ (f <$> seqZ (Z.of_nat (length filled)) (Z.of_nat (length rest))),
       foldl (dadd D) s (f <$> seqZ (Z.of_nat (length filled)) (Z.of_nat (length rest)))).
Proof.
  induction rest as [|a rest IH]; intros filled s.
  - unfold seqZ. simpl. by rewrite app_nil_r.
  - rewrite seqZ_cons by (simpl; lia). simpl foldl. rewrite Nat2Z.id.
    rewrite insert_app_r_alt, Nat.sub_diag by lia. simpl.
    rewrite list_lookup_middle by done. simpl.
    replace (Z.succ (Z.of_nat (length filled)))
      with (Z.of_nat (length (filled ++ [f (Z.of_nat (length filled))])))
      by (rewrite length_app; simpl; lia).
    replace (Z.pred (Z.of_nat (Datatypes.S (length rest)))) with (Z.of_nat (length rest))
      by lia.
    replace (filled ++ f (Z.of_nat (length filled)) :: rest)
      with ((filled ++ [f (Z.of_nat (length filled))]) ++ rest)
      by (by rewrite <- app_assoc).
    rewrite IH. rewrite <- app_assoc, length_app. simpl.
    repeat f_equal; lia.
Qed.

Lemma generate_weights_eq kernelSize sigma :
  generate_weights D kernelSize sigma
  = (raw_weights D kernelSize sigma, running_sum D (raw_weights D kernelSize sigma)).
Proof.
  unfold generate_weights, raw_weights, running_sum, tabulate.
  pose proof (fill_weights
    (gaussian_weight D sigma (kernelSize `quot` 2))
    (replicate (Z.to_nat kernelSize) #0) [] #0) as H.
  simpl in H. rewrite length_replicate in H.
  destruct (Z.le_gt_cases kernelSize 0).
  - unfold seqZ. replace (Z.to_nat kernelSize) with 0%nat by lia. done.
  - rewrite Z2Nat.id in H by lia. exact H.
Qed.

Lemma gaussianKernel_eq kernelSize sigma :
  gaussianKernel D kernelSize sigma
  = (λ value, (value / running_sum D (raw_weights D kernelSize sigma))%num)
      <$> raw_weights D kernelSize sigma.
Proof. unfold gaussianKernel. by rewrite generate_weights_eq. Qed.

Lemma length_gaussianKernel kernelSize sigma :
  length (gaussianKernel D kernelSize sigma) = Z.to_nat kernelSize.
Proof.
  rewrite gaussianKernel_eq, length_fmap. apply length_tabulate.
Qed.

Lemma lookup_gaussianKernel kernelSize sigma (i : nat) :
  Z.of_nat i < kernelSize →
  gaussianKernel D kernelSize sigma !! i
  = Some (gaussian_weight D sigma (kernelSize `quot` 2) (Z.of_nat i)
          / running_sum D (raw_weights D kernelSize sigma))%num.
Proof.
  intros. rewrite gaussianKernel_eq, list_lookup_fmap.
  unfold raw_weights. by rewrite lookup_tabulate.
Qed.

(** *** The taps *)

Lemma tap_loop_Return (kernel : list double) kernelSize
    (read : Z → outcome Pixel) (sample : Z → Pixel) :
  length kernel = Z.to_nat kernelSize →
  (∀ k, 0 ≤ k < kernelSize → read k = Return (sample k)) →
  for_range kernelSize
    (λ k acc, pixel ← read k; accumulate D kernel k pixel acc) (#0, #0, #0)
  = Return (weighted_sum D kernel kernelSize sample).
Proof.
  intros Hlen Hread.
  rewrite (for_range_ext _ _
    (λ k acc, Return (let '(r0, g0, b0) := acc in
                      ((r0 + #(r (sample k)) * weight_at D kernel k)%num,
                       (g0 + #(g (sample k)) * weight_at D kernel k)%num,
                       (b0 + #(b (sample k)) * weight_at D kernel k)%num)))).
  - unfold for_range.
    rewrite (for_each_pure (λ acc k, let '(r0, g0, b0) := acc in _)).
    f_equal. unfold weighted_sum, channel_sum.
    generalize (#0) at 1 4 as r0. generalize (#0) at 1 3 as g0.
    generalize (#0) as b0.
    induction (seqZ 0 kernelSize) as [|k l IH]; intros; simpl; [done|].
    apply IH.
  - intros k [[r0 g0] b0] Hk. rewrite Hread by done. simpl.
    unfold accumulate, weight_at.
    destruct (lookup_lt_is_Some_2 kernel (Z.to_nat k)) as [w Hw]; [lia|].
    rewrite (proj2 (at_index_Return kernel k w)) by (split; [lia|done]).
    rewrite Hw. done.
Qed.
End Formula_lemmas.

(** *** Integer clamping *)

Lemma std_min_Z a b : std_min Z.ltb a b = Z.min a b.
Proof. unfold std_min. destruct (Z.ltb_spec b a); lia. Qed.

Lemma std_max_Z a b : std_max Z.ltb a b = Z.max a b.
Proof. unfold std_max. destruct (Z.ltb_spec a b); lia. Qed.

Lemma sample_coordinate_eq axisLength pos k center :
  sample_coordinate axisLength pos k center
  = Z.max 0 (Z.min (axisLength - 1) (pos + k - center)).
Proof. unfold sample_coordinate. by rewrite std_max_Z, std_min_Z. Qed.

Lemma sample_coordinate_range axisLength pos k center :
  0 < axisLength →
  0 ≤ sample_coordinate axisLength pos k center < axisLength.
Proof. rewrite sample_coordinate_eq. lia. Qed.

(** The [int] expression [pos + k - center] is evaluated as [(pos + k) -
    center]; neither step leaves the range of a 32-bit [int] while
    [axisLength + kernelSize] fits in one. *)
Lemma sample_expression_in_int_range axisLength kernelSize pos k :
  0 ≤ pos < axisLength → 0 ≤ k < kernelSize →
  axisLength + kernelSize ≤ 2 ^ 31 - 1 →
  - 2 ^ 31 ≤ pos + k ≤ 2 ^ 31 - 1 ∧
  - 2 ^ 31 ≤ pos + k - kernelSize `quot` 2 ≤ 2 ^ 31 - 1.
Proof.
  intros. assert (0 ≤ kernelSize `quot` 2 ≤ kernelSize).
  { split; [apply Z.quot_pos; lia|]. apply Z.quot_le_upper_bound; lia. }
  lia.
Qed.

(** *** The passes *)

Section Passes.
Context (D : arith).
Local Abbreviation double := (num D).
Local Notation "# z" := (of_int D z) (at level 9, format "# z").

Lemma read_pixel_Return (img : Image) width height y x :
  covers img width height → 0 ≤ y < height → 0 ≤ x < width →
  read_pixel img y x = Return (pixel_at img y x).
Proof.
  intros Hc Hy Hx. destruct (Hc y Hy) as (row & Hrow & Hlen).
  destruct (lookup_lt_is_Some_2 row (Z.to_nat x)) as [p Hp]; [lia|].
  unfold read_pixel, pixel_at. rewrite Hrow. simpl. rewrite Hp. simpl.
  rewrite (proj2 (at_index_Return img y row)) by (split; [lia|done]). simpl.
  by rewrite (proj2 (at_index_Return row x p)) by (split; [lia|done]).
Qed.

Lemma covers_tabulate (p : Z → Z → Pixel) width height :
  0 ≤ width → covers (tabulate height (λ y, tabulate width (p y))) width height.
Proof.
  intros Hw y Hy. eexists. rewrite lookup_tabulate by lia. split; [done|].
  rewrite length_tabulate. lia.
Qed.

Lemma pixel_at_tabulate (p : Z → Z → Pixel) width height y x :
  0 ≤ y < height → 0 ≤ x < width →
  pixel_at (tabulate height (λ y, tabulate width (p y))) y x = p y x.
Proof.
  intros. unfold pixel_at. rewrite lookup_tabulate by lia. simpl.
  rewrite lookup_tabulate by lia. simpl. f_equal; lia.
Qed.

Context `{!lawful D}.

Lemma store_channel_Return v : store_channel D v = Return (stored_channel D v).
Proof.
  unfold store_channel, stored_channel.
  by destruct (clamp_castable v) as [c ->].
Qed.

Lemma stored_channel_range v : 0 ≤ stored_channel D v ≤ 255.
Proof.
  unfold stored_channel. destruct (clamp_castable v) as [c Hc].
  rewrite Hc. simpl. by eapply to_uint8_range.
Qed.

Lemma quantize_Return acc : quantize D acc = Return (quantized D acc).
Proof.
  destruct acc as [[r0 g0] b0]. unfold quantize, quantized.
  by rewrite !store_channel_Return.
Qed.

Lemma wf_quantized acc : wf_pixel (quantized D acc).
Proof.
  destruct acc as [[r0 g0] b0].
  repeat split; simpl; apply stored_channel_range.
Qed.

Lemma horizontal_taps_Return imageData width height kernelSize kernel y x :
  0 < width → length kernel = Z.to_nat kernelSize →
  covers imageData width height → 0 ≤ y < height →
  horizontal_taps D imageData width kernelSize kernel y x
  = Return (weighted_sum D kernel kernelSize (λ k,
      pixel_at imageData y (sample_coordinate width x k (kernelSize `quot` 2)))).
Proof.
  intros Hw Hlen Hc Hy. unfold horizontal_taps.
  apply (tap_loop_Return D kernel kernelSize
           (λ k, read_pixel imageData y _)); [done|].
  intros k Hk. eapply read_pixel_Return; [done..|].
  by apply sample_coordinate_range.
Qed.

Lemma vertical_taps_Return temp width height kernelSize kernel y x :
  0 < height → length kernel = Z.to_nat kernelSize →
  covers temp width height → 0 ≤ x < width →
  vertical_taps D temp height kernelSize kernel y x
  = Return (weighted_sum D kernel kernelSize (λ k,
      pixel_at temp (sample_coordinate height y k (kernelSize `quot` 2)) x)).
Proof.
  intros Hh Hlen Hc Hx. unfold vertical_taps.
  apply (tap_loop_Return D kernel kernelSize
           (λ k, read_pixel temp _ x)); [done|].
  intros k Hk. eapply read_pixel_Return; [done| |done].
  by apply sample_coordinate_range.
Qed.

Lemma horizontal_pass_Return imageData width height kernelSize kernel :
  0 < width → length kernel = Z.to_nat kernelSize →
  covers imageData width height →
  horizontal_pass D imageData width height kernelSize kernel
                  (blank_image width height)
  = Return (horizontal_image D imageData width height kernelSize kernel).
Proof.
  intros Hw Hlen Hc. unfold horizontal_pass, horizontal_image.
  apply (fill_grid (λ y x temp,
           acc ← horizontal_taps D imageData width kernelSize kernel y x;
           store_pixel D temp y x acc)).
  intros y x img' Hy Hx.
  rewrite (horizontal_taps_Return _ width height) by done. simpl.
  unfold store_pixel. by rewrite quantize_Return.
Qed.

Lemma vertical_pass_Return temp width height kernelSize kernel :
  0 < height → length kernel = Z.to_nat kernelSize →
  covers temp width height →
  vertical_pass D temp width height kernelSize kernel
                (blank_image width height)
  = Return (vertical_image D temp width height kernelSize kernel).
Proof.
  intros Hh Hlen Hc. unfold vertical_pass, vertical_image.
  apply (fill_grid (λ y x result,
           acc ← vertical_taps D temp height kernelSize kernel y x;
           store_pixel D result y x acc)).
  intros y x img' Hy Hx.
  rewrite (vertical_taps_Return _ width height) by done. simpl.
  unfold store_pixel. by rewrite quantize_Return.
Qed.

Lemma rem_2_odd z : (z `rem` 2 =? 0) = negb (Z.odd z).
Proof.
  pose proof (Z.quot_rem' z 2) as H.
  pose proof (Z.rem_bound_abs z 2 ltac:(lia)) as Hb.
  assert (Hz : Z.odd z = Z.odd (z `rem` 2)).
  { rewrite H at 1. by rewrite Z.add_comm, Z.odd_add_mul_2. }
  rewrite Hz. destruct (z `rem` 2) as [|[]|[]]; simpl in *; try lia; done.
Qed.

Lemma covers_not_empty imageData width height :
  0 < width → 0 < height → covers imageData width height →
  image_is_empty imageData = false.
Proof.
  intros Hw Hh Hc. destruct (Hc 0) as (row & Hrow & Hlen); [lia|].
  destruct imageData as [|row0 rows]; [done|]. simpl in *.
  simplify_eq. apply bool_decide_eq_false. intros ->. simpl in *. lia.
Qed.

(** On arguments that pass the checks and an image that covers the
    [width] by [height] region, the call returns the blurred D image. *)
Theorem applyGaussianBlur_Return imageData width height kernelSize sigma :
  3 ≤ kernelSize → Z.odd kernelSize = true → 0 < width → 0 < height →
  covers imageData width height →
  applyGaussianBlur D imageData width height kernelSize sigma
  = Return (blurred D imageData width height kernelSize sigma).
Proof.
  intros Hk Hodd Hw Hh Hc. unfold applyGaussianBlur.
  rewrite rem_2_odd, Hodd.
  rewrite (proj2 (Z.ltb_ge kernelSize 3)) by lia.
  rewrite (proj2 (Z.leb_gt width 0)), (proj2 (Z.leb_gt height 0)) by lia.
  rewrite (covers_not_empty imageData width height) by done. simpl.
  rewrite horizontal_pass_Return;
    [|done|by rewrite length_gaussianKernel|done].
  simpl. rewrite vertical_pass_Return;
    [done|done|by rewrite length_gaussianKernel|].
  apply covers_tabulate. lia.
Qed.
End Passes.

(** ** Binary64 is lawful *)

Section Binary64_facts.

Lemma digits2_pos_gt (m : positive) :
  Z.pos m < 2 ^ Z.pos (SpecFloat.digits2_pos m).
Proof.
  induction m as [m IH|m IH|]; simpl; [| |done];
    rewrite Pos2Z.inj_succ, Z.pow_succ_r by lia; lia.
Qed.

(** The mantissa of a double has at most 53 bits. *)
Lemma valid_mantissa_bound s m e :
  valid_binary (S754_finite s m e) = true → Z.pos m < 9007199254740992.
Proof.
  simpl. unfold bounded, canonical_mantissa.
  intros [Hc _]%andb_prop. apply Z.eqb_eq in Hc.
  pose proof (digits2_pos_gt m) as Hm.
  assert (Z.pos (SpecFloat.digits2_pos m) ≤ 53) as Hd.
  { unfold fexp in Hc. change prec with 53 in Hc. clear Hm. lia. }
  eapply Z.lt_le_trans; [exact Hm|].
  change 9007199254740992 with (2 ^ 53).
  apply Z.pow_le_mono_r; [done|exact Hd].
Qed.

Lemma to_uint8_range_binary64 v c :
  Binary64.to_uint8 v = Some c → 0 ≤ c ≤ 255.
Proof.
  unfold Binary64.to_uint8. destruct (Binary64.truncate v) as [t|]; [|done].
  simpl. destruct (Z.leb_spec 0 t), (Z.leb_spec t 255); simpl;
    intros; simplify_eq; lia.
Qed.

(** A double strictly between 0.0 and 255.0 truncates to 0, ..., 254. *)
Lemma truncate_below_255 v :
  PrimFloat.ltb 0 v = true → PrimFloat.ltb v 255 = true →
  ∃ t, Binary64.truncate v = Some t ∧ 0 ≤ t ≤ 254.
Proof.
  rewrite !ltb_spec. unfold Binary64.truncate.
  pose proof (Prim2SF_valid v) as Hvalid.
  change (Prim2SF 0) with (S754_zero false).
  change (Prim2SF 255) with (S754_finite false 8972014882652160 (-45)).
  intros H0 H255.
  destruct (Prim2SF v) as [s|s| |s m e].
  - by destruct s.
  - by destruct s.
  - done.
  - destruct s; [done|].
    apply valid_mantissa_bound in Hvalid.
    eexists; split; [done|]. unfold cond_Zopp.
    unfold SFltb, SFcompare in H255.
    destruct (Z.compare_spec e (-45)) as [->|He|He]; [| |done].
    + assert (Z.pos m < Z.pos 8972014882652160) as Hm.
      { destruct (Pos.compare_cont Eq m 8972014882652160%positive) eqn:E;
          try discriminate H255.
        exact E. }
      change (Z.shiftl (Z.pos m) (-45)) with (Z.shiftr (Z.pos m) 45).
      rewrite Z.shiftr_div_pow2 by done.
      change (2 ^ 45) with 35184372088832.
      split; [by apply Z.div_pos|].
      apply Z.lt_succ_r, Z.div_lt_upper_bound; [done|exact Hm].
    + destruct e as [|e|e]; [clear -He; lia..|].
      assert (0 < 2 ^ Z.pos e) as Hpos by (by apply Z.pow_pos_nonneg).
      assert (2 ^ 46 ≤ 2 ^ Z.pos e) as Hpow
        by (apply Z.pow_le_mono_r; [done|clear -He; lia]).
      change (Z.shiftl (Z.pos m) (Z.neg e)) with (Z.shiftr (Z.pos m) (Z.pos e)).
      rewrite Z.shiftr_div_pow2 by done.
      change (2 ^ 46) with 70368744177664 in Hpow.
      generalize dependent (2 ^ Z.pos e). intros P HP HP'.
      split; [by apply Z.div_pos|].
      apply Z.lt_succ_r, Z.div_lt_upper_bound; [done|].
      clear -Hvalid HP'. lia.
Qed.

Context (libm_exp : float → float).

(** The clamp of lines 123-125 leaves one of 0.0, 255.0, or the
    accumulator itself when it lies strictly between the two. *)
Lemma clamp_binary64 (v : float) :
  clamp (binary64 libm_exp) v
  = if PrimFloat.ltb v 255 then if PrimFloat.ltb 0 v then v else 0%float
    else 255%float.
Proof.
  unfold clamp, std_max, std_min. simpl.
  change (Binary64.of_int 255) with 255%float.
  change (Binary64.of_int 0) with 0%float.
  destruct (PrimFloat.ltb v 255); [done|].
  by change (PrimFloat.ltb 0 255) with true.
Qed.

Lemma clamp_castable_binary64 (v : float) :
  is_Some (Binary64.to_uint8 (clamp (binary64 libm_exp) v)).
Proof.
  rewrite clamp_binary64.
  destruct (PrimFloat.ltb v 255) eqn:H255; [|by eexists].
  destruct (PrimFloat.ltb 0 v) eqn:H0; [|by eexists].
  destruct (truncate_below_255 v H0 H255) as (t & Ht & Hr).
  unfold Binary64.to_uint8. rewrite Ht. simpl.
  rewrite (proj2 (Z.leb_le 0 t)), (proj2 (Z.leb_le t 255)) by lia.
  by eexists.
Qed.

#[global] Instance lawful_binary64 : lawful (binary64 libm_exp).
Proof.
  split.
  - apply to_uint8_range_binary64.
  - apply clamp_castable_binary64.
Qed.

End Binary64_facts.

(** ** A reference exponential

    The theorems below hold for every function in the place of [std::exp].
    Worked examples need one: [exp_reference] follows Annex F at the special
    values and evaluates [e^x] elsewhere by halving the argument ten times,
    summing the Taylor series and squaring back. *)

Lemma annex_F_reference : annex_F exp_reference.
Proof. by split; vm_compute. Qed.

(** ** Shape of an image *)

Lemma dimensions_covers img width height :
  dimensions img width height → covers img width height.
Proof.
  intros [Hh Hw] y Hy.
  destruct (lookup_lt_is_Some_2 img (Z.to_nat y)) as [row Hrow]; [lia|].
  exists row. split; [done|].
  rewrite Forall_lookup in Hw. rewrite (Hw _ _ Hrow). lia.
Qed.

Lemma dimensions_tabulate (p : Z → Z → Pixel) width height :
  0 ≤ width → 0 ≤ height →
  dimensions (tabulate height (λ y, tabulate width (p y))) width height.
Proof.
  intros Hw Hh. split.
  - rewrite length_tabulate. lia.
  - unfold tabulate at 1. apply Forall_fmap, Forall_forall. intros y _. simpl.
    rewrite length_tabulate. lia.
Qed.

Lemma dimensions_blurred (D : arith) img width height kernelSize sigma :
  0 ≤ width → 0 ≤ height →
  dimensions (blurred D img width height kernelSize sigma) width height.
Proof. intros. by apply dimensions_tabulate. Qed.

Lemma pixel_at_blurred (D : arith) img width height kernelSize sigma y x :
  0 ≤ y < height → 0 ≤ x < width →
  pixel_at (blurred D img width height kernelSize sigma) y x
  = vertical_pixel D
      (horizontal_image D img width height kernelSize
         (gaussianKernel D kernelSize sigma))
      height kernelSize (gaussianKernel D kernelSize sigma) y x.
Proof. intros. unfold blurred, vertical_image. by rewrite pixel_at_tabulate. Qed.

(** Every pixel of a grid produced by a pass holds [uint8_t] channels. *)
Lemma wf_tabulate_quantized (D : arith) `{!lawful D} width height
    (acc : Z → Z → num D * num D * num D) :
  Forall (Forall wf_pixel)
         (tabulate height (λ y, tabulate width (λ x, quantized D (acc y x)))).
Proof.
  unfold tabulate. apply Forall_fmap, Forall_forall. intros y _. simpl.
  apply Forall_fmap, Forall_forall. intros x _. simpl. by apply wf_quantized.
Qed.

Lemma dimensions_sample_image : dimensions sample_image 3 3.
Proof. split; [done|]. by repeat constructor. Qed.

(** ** Worked examples

    Calls evaluated with the reference exponential. *)

Example gaussian_weight_is_gaussianFunction (D : arith) sigma center i :
  gaussian_weight D sigma center i
  = gaussianFunction D (of_int D (i - center)) sigma.
Proof. reflexivity. Qed.

(** The kernel of size 3 for the default [sigma]: about 0.27407, 0.45186
    and 0.27407. *)
Example kernel_3_default_sigma :
  let D := binary64 exp_reference in
  gaussianKernel D 3 (default_sigma D)
  = [0x1.18a571aee93a1p-2; 0x1.ceb51ca22d8bfp-2; 0x1.18a571aee93a1p-2]%float.
Proof. vm_compute. reflexivity. Qed.

(** A white corner spreads over the four nearest pixels; the replicated
    border keeps more of it at the corner itself. *)
Example blur_white_corner :
  let D := binary64 exp_reference in
  applyGaussianBlur D white_corner 3 3 3 (default_sigma D)
  = Return [[gray 134; gray 50; gray 0];
            [gray 50; gray 18; gray 0];
            [gray 0; gray 0; gray 0]].
Proof. vm_compute. reflexivity. Qed.

(** A [width] or a [height] beyond the grid passes the three checks and
    reads outside a vector. *)
Example width_beyond_grid :
  applyGaussianBlur (binary64 exp_reference) sample_image 4 3 3 1%float
  = Undefined.
Proof. vm_compute. reflexivity. Qed.

Example height_beyond_grid :
  applyGaussianBlur (binary64 exp_reference) sample_image 3 4 3 1%float
  = Undefined.
Proof. vm_compute. reflexivity. Qed.

(** * The claims *)

(** ** C7: the output has the dimensions of the input *)

(** C7. For every odd [kernelSize >= 3], positive [width] and [height], every
    [sigma] and every image of exactly [height] rows of [width] pixels,
    [applyGaussianBlur] returns a grid with exactly [height] rows, each of
    exactly [width] pixels. *)
Theorem C7_dimension_preservation (libm_exp : float → float)
    (imageData : Image) (width height kernelSize : Z) (sigma : float) :
  3 ≤ kernelSize → Z.odd kernelSize = true → 0 < width → 0 < height →
  dimensions imageData width height →
  ∃ result,
    applyGaussianBlur (binary64 libm_exp) imageData width height kernelSize sigma
    = Return result ∧
    dimensions result width height.
Proof.
  intros Hk Hodd Hw Hh Hdim. eexists. split.
  - apply (applyGaussianBlur_Return (binary64 libm_exp)); try done.
    by apply dimensions_covers.
  - apply dimensions_blurred; lia.
Qed.

Lemma C7_witness :
  ∃ result,
    applyGaussianBlur (binary64 exp_reference) sample_image 3 3 3 1%float
    = Return result ∧
    dimensions result 3 3.
Proof.
  apply (C7_dimension_preservation exp_reference sample_image 3 3 3 1%float);
    [lia|reflexivity|lia|lia|exact dimensions_sample_image].
Defined.

(** ** C8: every output channel lies in [0, 255] *)

Lemma wf_blurred (D : arith) `{!lawful D} img width height kernelSize sigma :
  Forall (Forall wf_pixel) (blurred D img width height kernelSize sigma).
Proof.
  unfold blurred, vertical_image, vertical_pixel.
  apply (wf_tabulate_quantized D width height).
Qed.

(** C8. For every valid input the call returns a grid in which every channel
    of every pixel lies in [0, 255]: each stored channel is the cast of the
    clamp of the accumulator that holds the sum of all the taps, and the
    cast of a clamped value is always defined. *)
Theorem C8_channel_bounds (libm_exp : float → float)
    (imageData : Image) (width height kernelSize : Z) (sigma : float) :
  3 ≤ kernelSize → Z.odd kernelSize = true → 0 < width → 0 < height →
  dimensions imageData width height →
  let D := binary64 libm_exp in
  let kernel := gaussianKernel D kernelSize sigma in
  let temp := horizontal_image D imageData width height kernelSize kernel in
  ∃ result,
    applyGaussianBlur D imageData width height kernelSize sigma = Return result ∧
    Forall (Forall wf_pixel) result ∧
    (∀ y x, 0 ≤ y < height → 0 ≤ x < width →
       pixel_at result y x
       = quantized D (weighted_sum D kernel kernelSize (λ k,
           pixel_at temp (sample_coordinate height y k (kernelSize `quot` 2)) x))) ∧
    (∀ v : float, ∃ c, to_uint8 D (clamp D v) = Some c ∧
                       stored_channel D v = c ∧ 0 ≤ c ≤ 255).
Proof.
  intros Hk Hodd Hw Hh Hdim D kernel temp.
  exists (blurred D imageData width height kernelSize sigma).
  split; [|split; [|split]].
  - apply (applyGaussianBlur_Return D); try done. by apply dimensions_covers.
  - apply (wf_blurred D).
  - intros y x Hy Hx. by rewrite pixel_at_blurred.
  - intros v. destruct (clamp_castable (D:=D) v) as [c Hc]. exists c.
    unfold stored_channel. rewrite Hc. repeat split; try done;
      by eapply (to_uint8_range (D:=D)).
Qed.

Lemma C8_witness :
  let D := binary64 exp_reference in
  let kernel := gaussianKernel D 3 1%float in
  let temp := horizontal_image D sample_image 3 3 3 kernel in
  ∃ result,
    applyGaussianBlur D sample_image 3 3 3 1%float = Return result ∧
    Forall (Forall wf_pixel) result ∧
    (∀ y x, 0 ≤ y < 3 → 0 ≤ x < 3 →
       pixel_at result y x
       = quantized D (weighted_sum D kernel 3 (λ k,
           pixel_at temp (sample_coordinate 3 y k (3 `quot` 2)) x))) ∧
    (∀ v : float, ∃ c, to_uint8 D (clamp D v) = Some c ∧
                       stored_channel D v = c ∧ 0 ≤ c ≤ 255).
Proof.
  apply (C8_channel_bounds exp_reference sample_image 3 3 3 1%float);
    [lia|reflexivity|lia|lia|exact dimensions_sample_image].
Defined.

(** ** C2: validation failures *)

Lemma what_inj f1 f2 : what f1 = what f2 → f1 = f2.
Proof. by destruct f1, f2. Qed.

Lemma image_is_empty_true imageData :
  image_is_empty imageData = true ↔ no_pixels imageData.
Proof.
  unfold no_pixels. destruct imageData as [|row0 rows]; simpl.
  - split; auto.
  - rewrite bool_decide_eq_true. split; [intros ->; by right|].
    intros [|]; by simplify_eq.
Qed.

Lemma image_is_empty_shape img1 img2 :
  same_shape img1 img2 → image_is_empty img1 = image_is_empty img2.
Proof.
  unfold same_shape.
  destruct img1 as [|r1 rows1], img2 as [|r2 rows2]; simpl; try done.
  intros [= Hlen _]. destruct r1, r2; simpl in *; try done.
Qed.

Lemma even_rem_2 z : (z `rem` 2 =? 0) = Z.even z.
Proof. by rewrite rem_2_odd, Z.negb_odd. Qed.

(** C2. Whatever the arithmetic and the pixels: an even kernel size or one
    below 3 makes the call throw the kernel-size failure; otherwise a width
    or height that is zero or negative makes it throw the dimensions failure;
    otherwise a grid with no rows, or whose first row has no columns, makes
    it throw the empty-image failure. The three failures are distinct, a
    failing call returns no grid, and its outcome is the same for every
    image of the same shape: no pixel takes part in it. *)
Theorem C2_validation_failures (D : arith)
    (imageData : Image) (width height kernelSize : Z) (sigma : num D) :
  let call img := applyGaussianBlur D img width height kernelSize sigma in
  (bad_kernel_size kernelSize →
     call imageData = Throw (what InvalidKernelSize)) ∧
  (¬ bad_kernel_size kernelSize → bad_dimensions width height →
     call imageData = Throw (what InvalidDimensions)) ∧
  (¬ bad_kernel_size kernelSize → ¬ bad_dimensions width height →
     no_pixels imageData →
     call imageData = Throw (what EmptyImage)) ∧
  (bad_kernel_size kernelSize ∨ bad_dimensions width height ∨
   no_pixels imageData →
     (∃ f, call imageData = Throw (what f)) ∧
     (∀ result, call imageData ≠ Return result) ∧
     (∀ img', same_shape imageData img' → call img' = call imageData)) ∧
  (∀ f1 f2, what f1 = what f2 → f1 = f2).
Proof.
  intros call. unfold call, applyGaussianBlur, bad_kernel_size, bad_dimensions.
  rewrite even_rem_2.
  destruct (Z.ltb_spec kernelSize 3) as [Hk|Hk];
    destruct (Z.even kernelSize) eqn:Heven; simpl.
  1-3: (split; [done|]; split; [intros []; by auto|];
        split; [intros []; by auto|]; split; [|apply what_inj];
        intros _; split; [by exists InvalidKernelSize|]; by split).
  destruct (Z.leb_spec width 0) as [Hw|Hw];
    destruct (Z.leb_spec height 0) as [Hh|Hh]; simpl.
  1-3: (split; [intros [|]; [lia|done]|]; split; [done|];
        split; [intros _ []; by auto|]; split; [|apply what_inj];
        intros _; split; [by exists InvalidDimensions|]; by split).
  split; [intros [|]; [lia|done]|]. split; [intros _ [|]; lia|].
  split; [intros _ _ ->%image_is_empty_true; done|].
  split; [|apply what_inj].
  intros [[|]|[[|]|Hempty]]; try lia; try done.
  pose proof Hempty as ->%image_is_empty_true.
  split; [by exists EmptyImage|]. split; [done|].
  intros img' <-%image_is_empty_shape.
  by apply image_is_empty_true in Hempty as ->.
Qed.

Lemma C2_witness :
  let D := binary64 exp_reference in
  applyGaussianBlur D sample_image 3 3 4 1%float = Throw (what InvalidKernelSize) ∧
  applyGaussianBlur D sample_image 0 3 3 1%float = Throw (what InvalidDimensions) ∧
  applyGaussianBlur D [] 3 3 3 1%float = Throw (what EmptyImage).
Proof.
  intros D. split; [|split].
  - apply (proj1 (C2_validation_failures D sample_image 3 3 4 1%float)).
    right. reflexivity.
  - apply (proj1 (proj2 (C2_validation_failures D sample_image 0 3 3 1%float))).
    + intros [|]; [lia|discriminate].
    + left. lia.
  - apply (proj1 (proj2 (proj2 (C2_validation_failures D [] 3 3 3 1%float)))).
    + intros [|]; [lia|discriminate].
    + intros [|]; lia.
    + left. reflexivity.
Defined.

(** ** C6: edge-replicating sample coordinates *)

(** C6. In both passes tap [k] reads the pixel whose coordinate along the
    convolution axis is [pos + k - center] clamped to [0, axisLength - 1]
    ([pos] is [x] and the axis length [width] in the horizontal pass, [y] and
    [height] in the vertical pass): inside the image it is [pos + k - center]
    itself, before the first pixel it is 0 and past the last one it is
    [axisLength - 1], so an outside tap repeats the nearest edge pixel. *)
Theorem C6_edge_clamped_sampling (D : arith) (imageData temp : Image)
    (width height kernelSize : Z) (kernel : list (num D)) (y x : Z) :
  let center := kernelSize `quot` 2 in
  let clamped axisLength pos k :=
    Z.max 0 (Z.min (axisLength - 1) (pos + k - center)) in
  horizontal_taps D imageData width kernelSize kernel y x
  = for_range kernelSize (λ k acc,
      pixel ← read_pixel imageData y (clamped width x k);
      accumulate D kernel k pixel acc) (of_int D 0, of_int D 0, of_int D 0) ∧
  vertical_taps D temp height kernelSize kernel y x
  = for_range kernelSize (λ k acc,
      pixel ← read_pixel temp (clamped height y k) x;
      accumulate D kernel k pixel acc) (of_int D 0, of_int D 0, of_int D 0) ∧
  ∀ axisLength pos k,
    sample_coordinate axisLength pos k center = clamped axisLength pos k ∧
    (0 < axisLength →
       0 ≤ clamped axisLength pos k ≤ axisLength - 1 ∧
       (0 ≤ pos + k - center ≤ axisLength - 1 →
          clamped axisLength pos k = pos + k - center) ∧
       (pos + k - center < 0 → clamped axisLength pos k = 0) ∧
       (axisLength - 1 < pos + k - center →
          clamped axisLength pos k = axisLength - 1)).
Proof.
  intros center clamped. unfold horizontal_taps, vertical_taps, clamped.
  split; [|split].
  - apply for_range_ext. intros k acc _. by rewrite sample_coordinate_eq.
  - apply for_range_ext. intros k acc _. by rewrite sample_coordinate_eq.
  - intros axisLength pos k. split; [apply sample_coordinate_eq|]. lia.
Qed.

(** The taps of a 3-pixel axis with a 3-tap kernel: the first tap of the
    first pixel and the last tap of the last pixel fall outside and read the
    edge pixels 0 and 2. *)
Example sample_coordinates_3 :
  (λ pos, (λ k, sample_coordinate 3 pos k 1) <$> [0; 1; 2]) <$> [0; 1; 2]
  = [[0; 0; 1]; [0; 1; 2]; [1; 2; 2]].
Proof. reflexivity. Qed.

(** ** C10: [width] and [height] smaller than the grid *)

Section Region.
Context (D : arith).

Lemma foldl_seqZ_ext {A} (f f' : A → Z → A) (a : A) n :
  (∀ acc k, 0 ≤ k < n → f acc k = f' acc k) →
  foldl f a (seqZ 0 n) = foldl f' a (seqZ 0 n).
Proof.
  intros H.
  assert (∀ l a, (∀ k, k ∈ l → 0 ≤ k < n) → foldl f a l = foldl f' a l) as Hl.
  { induction l as [|k l IH]; intros a' Hin; simpl; [done|].
    rewrite H by (apply Hin; by left). apply IH. intros. apply Hin. by right. }
  apply Hl. intros k Hk%elem_of_seqZ. lia.
Qed.

Lemma channel_sum_ext (kernel : list (num D)) kernelSize (c c' : Z → Z) :
  (∀ k, 0 ≤ k < kernelSize → c k = c' k) →
  channel_sum D kernel kernelSize c = channel_sum D kernel kernelSize c'.
Proof.
  intros H. unfold channel_sum. apply foldl_seqZ_ext.
  intros acc k Hk. by rewrite H.
Qed.

Lemma weighted_sum_ext (kernel : list (num D)) kernelSize (s s' : Z → Pixel) :
  (∀ k, 0 ≤ k < kernelSize → s k = s' k) →
  weighted_sum D kernel kernelSize s = weighted_sum D kernel kernelSize s'.
Proof.
  intros H. unfold weighted_sum.
  f_equal; [f_equal|]; apply channel_sum_ext; intros k Hk; by rewrite H.
Qed.

(** The blurred image is a function of the pixels of the [width] by
    [height] region alone. *)
Lemma blurred_ext img img' width height kernelSize sigma :
  0 < width →
  (∀ y x, 0 ≤ y < height → 0 ≤ x < width →
          pixel_at img y x = pixel_at img' y x) →
  blurred D img width height kernelSize sigma
  = blurred D img' width height kernelSize sigma.
Proof.
  intros Hw H. unfold blurred. f_equal.
  unfold horizontal_image. apply tabulate_ext. intros y Hy.
  apply tabulate_ext. intros x Hx. unfold horizontal_pixel. f_equal.
  apply weighted_sum_ext. intros k Hk. apply H; [done|].
  by apply sample_coordinate_range.
Qed.
End Region.

Lemma pixel_at_top_left imageData width height y x :
  0 ≤ y < height → 0 ≤ x < width →
  pixel_at (top_left imageData width height) y x = pixel_at imageData y x.
Proof.
  intros Hy Hx. unfold pixel_at, top_left.
  rewrite list_lookup_fmap, lookup_take_lt by lia.
  destruct (imageData !! Z.to_nat y) as [row|]; simpl; [|done].
  by rewrite lookup_take_lt by lia.
Qed.

Lemma covers_top_left imageData width height :
  covers imageData width height →
  covers (top_left imageData width height) width height.
Proof.
  intros Hc y Hy. destruct (Hc y Hy) as (row & Hrow & Hlen).
  exists (take (Z.to_nat width) row). unfold top_left.
  rewrite list_lookup_fmap, lookup_take_lt, Hrow by lia. split; [done|].
  rewrite length_take. lia.
Qed.

(** C10. When [width] and [height] are positive and the grid has at least
    [height] rows, the first [height] of them with at least [width] columns
    each, no failure is raised: the call returns a [height] by [width] grid,
    the one it returns for the top-left region of the grid alone, and the one
    it returns for any other grid that holds the same pixels at the positions
    [y] in [0, height), [x] in [0, width). *)
Theorem C10_larger_grid (libm_exp : float → float)
    (imageData : Image) (width height kernelSize : Z) (sigma : float) :
  3 ≤ kernelSize → Z.odd kernelSize = true → 0 < width → 0 < height →
  covers imageData width height →
  let call img := applyGaussianBlur (binary64 libm_exp) img width height
                                    kernelSize sigma in
  ∃ result,
    call imageData = Return result ∧
    dimensions result width height ∧
    call (top_left imageData width height) = Return result ∧
    ∀ img', covers img' width height →
            (∀ y x, 0 ≤ y < height → 0 ≤ x < width →
                    pixel_at img' y x = pixel_at imageData y x) →
            call img' = Return result.
Proof.
  intros Hk Hodd Hw Hh Hc call. unfold call.
  exists (blurred (binary64 libm_exp) imageData width height kernelSize sigma).
  split; [|split; [|split]].
  - by apply (applyGaussianBlur_Return (binary64 libm_exp)).
  - apply dimensions_blurred; lia.
  - rewrite (applyGaussianBlur_Return (binary64 libm_exp));
      [|done..|by apply covers_top_left].
    rewrite (blurred_ext _ _ imageData); [done|done|].
    intros. by apply pixel_at_top_left.
  - intros img' Hc' Hsame.
    rewrite (applyGaussianBlur_Return (binary64 libm_exp)) by done.
    by rewrite (blurred_ext _ _ imageData).
Qed.

Lemma covers_sample_image_2 : covers sample_image 2 2.
Proof.
  intros y Hy. assert (y = 0 ∨ y = 1) as [-> | ->] by lia;
    eexists; (split; [reflexivity|simpl; lia]).
Qed.

Lemma C10_witness :
  let call img := applyGaussianBlur (binary64 exp_reference) img 2 2 3 1%float in
  ∃ result,
    call sample_image = Return result ∧
    dimensions result 2 2 ∧
    call (top_left sample_image 2 2) = Return result ∧
    ∀ img', covers img' 2 2 →
            (∀ y x, 0 ≤ y < 2 → 0 ≤ x < 2 →
                    pixel_at img' y x = pixel_at sample_image y x) →
            call img' = Return result.
Proof.
  apply (C10_larger_grid exp_reference sample_image 2 2 3 1%float);
    [lia|reflexivity|lia|lia|exact covers_sample_image_2].
Defined.

(** ** C9: the intermediate buffer holds quantized channels *)

(** The cast truncates toward zero: the integer [t] it yields has the sign
    of the double [±m·2^e] and [|t| <= m·2^e < |t| + 1]. *)
Lemma truncate_toward_zero (f : float) s m e :
  Prim2SF f = S754_finite s m e →
  ∃ t, Binary64.truncate f = Some t ∧
       t = cond_Zopp s (Z.abs t) ∧
       Z.abs t * 2 ^ Z.max 0 (- e) ≤ Z.pos m * 2 ^ Z.max 0 e
         < (Z.abs t + 1) * 2 ^ Z.max 0 (- e).
Proof.
  intros Hf. unfold Binary64.truncate. rewrite Hf. eexists. split; [done|].
  assert (0 ≤ Z.shiftl (Z.pos m) e) as Hnonneg by (by apply Z.shiftl_nonneg).
  assert (Z.abs (cond_Zopp s (Z.shiftl (Z.pos m) e)) = Z.shiftl (Z.pos m) e)
    as ->.
  { destruct s; simpl; lia. }
  split; [done|].
  destruct (Z.le_gt_cases 0 e) as [He|He].
  - rewrite Z.shiftl_mul_pow2 by done.
    rewrite (Z.max_r 0 e), (Z.max_l 0 (- e)) by lia.
    change (2 ^ 0) with 1. lia.
  - rewrite Z.shiftl_div_pow2 by lia.
    rewrite (Z.max_l 0 e), (Z.max_r 0 (- e)) by lia.
    change (2 ^ 0) with 1.
    assert (0 < 2 ^ (- e)) as Hpos by (apply Z.pow_pos_nonneg; lia).
    clear Hnonneg. revert Hpos. generalize (2 ^ (- e)). intros d Hd.
    pose proof (Z.mul_div_le (Z.pos m) d Hd).
    pose proof (Z.mul_succ_div_gt (Z.pos m) d Hd).
    lia.
Qed.

Example truncate_examples :
  Binary64.truncate 0x1.fdfffffffffffp+7 = Some 254 ∧
  Binary64.truncate 0x1.8p+0 = Some 1 ∧
  Binary64.truncate 0x1.8p-1 = Some 0 ∧
  Binary64.truncate (-0x1.cp+1) = Some (-3) ∧
  Binary64.truncate nan = None ∧
  Binary64.truncate infinity = None.
Proof. by vm_compute. Qed.

(** C9. On a valid input the horizontal pass returns a buffer [temp] whose
    every channel is the accumulator of the horizontal taps clamped to
    [0, 255] and truncated toward zero to an integer [c] of 0..255 (the
    clamped double [m·2^e] satisfies [c <= m·2^e < c + 1]), and the result of
    the call is the vertical pass run on that buffer: its taps read the
    integer channels of [temp], not the horizontal sums. *)
Theorem C9_intermediate_quantized (libm_exp : float → float)
    (imageData : Image) (width height kernelSize : Z) (sigma : float) :
  3 ≤ kernelSize → Z.odd kernelSize = true → 0 < width → 0 < height →
  dimensions imageData width height →
  let D := binary64 libm_exp in
  let kernel := gaussianKernel D kernelSize sigma in
  let center := kernelSize `quot` 2 in
  ∃ temp result,
    horizontal_pass D imageData width height kernelSize kernel
                    (blank_image width height) = Return temp ∧
    vertical_pass D temp width height kernelSize kernel
                  (blank_image width height) = Return result ∧
    applyGaussianBlur D imageData width height kernelSize sigma = Return result ∧
    Forall (Forall wf_pixel) temp ∧
    (∀ y x, 0 ≤ y < height → 0 ≤ x < width →
       pixel_at temp y x
       = quantized D (weighted_sum D kernel kernelSize (λ k,
           pixel_at imageData y (sample_coordinate width x k center))) ∧
       pixel_at result y x
       = quantized D (weighted_sum D kernel kernelSize (λ k,
           pixel_at temp (sample_coordinate height y k center) x))) ∧
    (∀ acc : float, ∃ c,
       Binary64.truncate (clamp D acc) = Some c ∧
       stored_channel D acc = c ∧ 0 ≤ c ≤ 255 ∧
       ∀ s m e, Prim2SF (clamp D acc) = S754_finite s m e →
                c * 2 ^ Z.max 0 (- e) ≤ Z.pos m * 2 ^ Z.max 0 e
                  < (c + 1) * 2 ^ Z.max 0 (- e)).
Proof.
  intros Hk Hodd Hw Hh Hdim D kernel center.
  pose proof (dimensions_covers _ _ _ Hdim) as Hc.
  assert (length kernel = Z.to_nat kernelSize) as Hlen
    by apply length_gaussianKernel.
  exists (horizontal_image D imageData width height kernelSize kernel),
         (blurred D imageData width height kernelSize sigma).
  split; [by apply (horizontal_pass_Return D)|].
  split.
  { apply (vertical_pass_Return D); [done..|]. apply covers_tabulate. lia. }
  split; [by apply (applyGaussianBlur_Return D)|].
  split.
  { unfold horizontal_image, horizontal_pixel.
    apply (wf_tabulate_quantized D width height). }
  split.
  - intros y x Hy Hx. split.
    + unfold horizontal_image. by rewrite pixel_at_tabulate.
    + by rewrite pixel_at_blurred.
  - intros acc. destruct (clamp_castable (D:=D) acc) as [c Hc'].
    pose proof (to_uint8_range (D:=D) _ _ Hc') as Hr.
    exists c. unfold stored_channel. rewrite Hc'.
    assert (Binary64.truncate (clamp D acc) = Some c) as Htrunc.
    { simpl in Hc'. unfold Binary64.to_uint8 in Hc'.
      destruct (Binary64.truncate (clamp D acc)) as [t|]; [|done].
      simpl in Hc'. by destruct ((0 <=? t) && (t <=? 255)); simplify_eq. }
    split; [done|]. split; [done|]. split; [done|].
    intros s m e Hf.
    destruct (truncate_toward_zero _ s m e Hf) as (t & Ht & _ & Hb).
    rewrite Htrunc in Ht. injection Ht as <-.
    by rewrite (Z.abs_eq c) in Hb by lia.
Qed.

Lemma C9_witness :
  let D := binary64 exp_reference in
  let kernel := gaussianKernel D 3 1%float in
  let center := 3 `quot` 2 in
  ∃ temp result,
    horizontal_pass D sample_image 3 3 3 kernel (blank_image 3 3) = Return temp ∧
    vertical_pass D temp 3 3 3 kernel (blank_image 3 3) = Return result ∧
    applyGaussianBlur D sample_image 3 3 3 1%float = Return result ∧
    Forall (Forall wf_pixel) temp ∧
    (∀ y x, 0 ≤ y < 3 → 0 ≤ x < 3 →
       pixel_at temp y x
       = quantized D (weighted_sum D kernel 3 (λ k,
           pixel_at sample_image y (sample_coordinate 3 x k center))) ∧
       pixel_at result y x
       = quantized D (weighted_sum D kernel 3 (λ k,
           pixel_at temp (sample_coordinate 3 y k center) x))) ∧
    (∀ acc : float, ∃ c,
       Binary64.truncate (clamp D acc) = Some c ∧
       stored_channel D acc = c ∧ 0 ≤ c ≤ 255 ∧
       ∀ s m e, Prim2SF (clamp D acc) = S754_finite s m e →
                c * 2 ^ Z.max 0 (- e) ≤ Z.pos m * 2 ^ Z.max 0 e
                  < (c + 1) * 2 ^ Z.max 0 (- e)).
Proof.
  apply (C9_intermediate_quantized exp_reference sample_image 3 3 3 1%float);
    [lia|reflexivity|lia|lia|exact dimensions_sample_image].
Defined.

(** ** C4: the kernel is symmetric *)

Section Mirror.

(** The square of a double does not depend on its sign. *)
Lemma mul_opp_opp (a : float) :
  PrimFloat.mul (PrimFloat.opp a) (PrimFloat.opp a) = PrimFloat.mul a a.
Proof.
  apply Prim2SF_inj. rewrite !mul_spec, opp_spec.
  destruct (Prim2SF a) as [s|s| |s m e]; simpl; try done;
    by destruct s.
Qed.

Lemma of_int_opp_square (z : Z) :
  PrimFloat.mul (Binary64.of_int (- z)) (Binary64.of_int (- z))
  = PrimFloat.mul (Binary64.of_int z) (Binary64.of_int z).
Proof.
  unfold Binary64.of_int.
  destruct (Z.ltb_spec z 0), (Z.ltb_spec (- z) 0); try lia.
  - rewrite mul_opp_opp. done.
  - rewrite Z.opp_involutive. by rewrite mul_opp_opp.
  - by replace z with 0 by lia.
Qed.

(** [a == a] holds for every double but NaN. *)
Lemma eqb_refl_iff (a : float) : PrimFloat.eqb a a = true ↔ a ≠ nan.
Proof.
  rewrite FloatAxioms.eqb_spec. split.
  - intros H ->. by vm_compute in H.
  - intros Hnan. unfold SFeqb.
    destruct (Prim2SF a) as [s|s| |s m e] eqn:Ha; simpl.
    + done.
    + by destruct s.
    + destruct Hnan. apply Prim2SF_inj. by rewrite Ha.
    + destruct s; rewrite Z.compare_refl;
        change (Pos.compare_cont Eq m m) with (Pos.compare m m);
        by rewrite Pos.compare_refl.
Qed.

Context (libm_exp : float → float).
Local Abbreviation D := (binary64 libm_exp).

(** For an odd size the offsets of mirrored indices are opposite, so the
    unnormalised weights are the same double. *)
Lemma gaussian_weight_mirror kernelSize sigma i :
  Z.odd kernelSize = true → 0 < kernelSize →
  gaussian_weight D sigma (kernelSize `quot` 2) (kernelSize - 1 - i)
  = gaussian_weight D sigma (kernelSize `quot` 2) i.
Proof.
  intros Hodd Hpos. unfold gaussian_weight. simpl.
  assert (kernelSize = 2 * kernelSize `quot` 2 + 1) as Hk.
  { pose proof (Z.quot_rem' kernelSize 2) as H.
    pose proof (Z.rem_bound_pos kernelSize 2 ltac:(lia) ltac:(lia)) as Hb.
    pose proof (rem_2_odd kernelSize) as Hr. rewrite Hodd in Hr.
    apply Z.eqb_neq in Hr. lia. }
  replace (kernelSize - 1 - i - kernelSize `quot` 2)
    with (- (i - kernelSize `quot` 2)) by lia.
  by rewrite of_int_opp_square.
Qed.

Lemma gaussianKernel_mirror kernelSize sigma i :
  Z.odd kernelSize = true → 0 ≤ i < kernelSize →
  gaussianKernel D kernelSize sigma !! Z.to_nat (kernelSize - 1 - i)
  = gaussianKernel D kernelSize sigma !! Z.to_nat i.
Proof.
  intros Hodd Hi.
  rewrite !lookup_gaussianKernel by lia.
  rewrite !Z2Nat.id by lia.
  by rewrite gaussian_weight_mirror by (done || lia).
Qed.

End Mirror.

(** ** Kernels that do not depend on the digits of [exp]

    For a very large [sigma] the quotient [-(x*x)/(2*sigma*sigma)] is [-0.0]
    at every tap and the kernel is the box filter; for a very small one the
    quotient overflows to minus infinity beside the centre, or, when
    [2*sigma*sigma] underflows to zero, is [0.0/0.0] at the centre. Annex F
    fixes [exp] there. *)

Section Special_kernels.
Context (libm_exp : float → float) (HF : annex_F libm_exp).
Local Abbreviation D := (binary64 libm_exp).

(** The special values, with the arguments in the form evaluation leaves
    them in. *)
Ltac special_values :=
  let H0 := fresh in let H1 := fresh in let H2 := fresh in let H3 := fresh in
  pose proof (exp_neg_zero _ HF) as H0; vm_compute in H0;
  pose proof (exp_neg_infinity _ HF) as H1; vm_compute in H1;
  pose proof (exp_nan _ HF) as H2; vm_compute in H2;
  pose proof (exp_zero _ HF) as H3; vm_compute in H3;
  vm_compute; rewrite ?H0, ?H1, ?H2, ?H3; vm_compute.

Lemma kernel_3_huge_sigma :
  gaussianKernel D 3 huge_sigma = [third; third; third].
Proof. by special_values. Qed.

Lemma kernel_7_huge_sigma :
  gaussianKernel D 7 huge_sigma = replicate 7 seventh.
Proof. by special_values. Qed.

Lemma kernel_3_tiny_sigma :
  gaussianKernel D 3 tiny_sigma = [0; 1; 0]%float.
Proof. by special_values. Qed.

Lemma kernel_3_vanishing_sigma :
  gaussianKernel D 3 vanishing_sigma = [nan; nan; nan].
Proof. by special_values. Qed.

End Special_kernels.

(** With [kernelSize = 3] and the positive [sigma = 2^-600], [2.0 * sigma *
    sigma] underflows to [0.0]; the centre weight is [exp(-0.0 / 0.0)], a
    NaN, so is the sum and so is every normalised weight, and
    [kernel[0] == kernel[2]] is false. No [exp] that follows Annex F
    avoids it. *)
Lemma C4_counterexample :
  ¬ ∃ libm_exp, annex_F libm_exp ∧ kernel_symmetry_claim libm_exp.
Proof.
  intros (libm_exp & HF & Hclaim).
  specialize (Hclaim 3 vanishing_sigma 0 nan nan).
  rewrite (kernel_3_vanishing_sigma libm_exp HF) in Hclaim.
  discriminate Hclaim; (done || lia).
Qed.

(** C4 (amended). For every odd [kernelSize >= 3], every [sigma] and every
    [i] in [0, kernelSize), [kernel[i]] and [kernel[kernelSize - 1 - i]] hold
    the same double; the comparison [kernel[i] == kernel[kernelSize - 1 - i]]
    is therefore true exactly when that weight is not a NaN. *)
Theorem C4_kernel_symmetry (libm_exp : float → float)
    (kernelSize : Z) (sigma : float) (i : Z) :
  3 ≤ kernelSize → Z.odd kernelSize = true → 0 ≤ i < kernelSize →
  let kernel := gaussianKernel (binary64 libm_exp) kernelSize sigma in
  ∃ a, kernel !! Z.to_nat i = Some a ∧
       kernel !! Z.to_nat (kernelSize - 1 - i) = Some a ∧
       (PrimFloat.eqb a a = true ↔ a ≠ nan).
Proof.
  intros Hk Hodd Hi kernel. unfold kernel.
  destruct (lookup_lt_is_Some_2
              (gaussianKernel (binary64 libm_exp) kernelSize sigma)
              (Z.to_nat i)) as [a Ha].
  { rewrite length_gaussianKernel. lia. }
  exists a. split; [done|]. split; [|apply eqb_refl_iff].
  etrans; [exact (gaussianKernel_mirror libm_exp kernelSize sigma i Hodd Hi)|].
  exact Ha.
Qed.

Lemma C4_witness :
  let kernel := gaussianKernel (binary64 exp_reference) 5 1%float in
  ∃ a, kernel !! Z.to_nat 1 = Some a ∧
       kernel !! Z.to_nat (5 - 1 - 1) = Some a ∧
       (PrimFloat.eqb a a = true ↔ a ≠ nan).
Proof.
  apply (C4_kernel_symmetry exp_reference 5 1%float 1); [lia|reflexivity|lia].
Defined.

(** ** Binary64: the rounding errors of the sums

    C3, C5 and C1 bound what the code computes in double precision. The
    lemmas below follow the specification of the operations ([SpecFloat])
    down to the mantissas: a sum, a product or a quotient of doubles that
    are not negative is the real result rounded, with a relative error of at
    most [u = 2^-53] (and an absolute one of at most [eta = 2^-1075] where
    the result can be subnormal). *)

(** *** Powers of two and digits *)

Lemma bpow_pos e : (0 < bpow e)%R.
Proof. apply powerRZ_lt. lra. Qed.

Lemma bpow_add a c : (bpow (a + c) = bpow a * bpow c)%R.
Proof. apply powerRZ_add. lra. Qed.

Lemma bpow_0 : bpow 0 = 1%R.
Proof. reflexivity. Qed.

Lemma bpow_1 : bpow 1 = 2%R.
Proof. unfold bpow. simpl. lra. Qed.

Lemma bpow_opp e : (bpow (- e) = / bpow e)%R.
Proof. apply powerRZ_neg'. Qed.

Lemma bpow_succ e : (bpow (e + 1) = 2 * bpow e)%R.
Proof. rewrite bpow_add, bpow_1. lra. Qed.

Lemma bpow_pred e : (bpow (e - 1) = bpow e / 2)%R.
Proof.
  replace e with (e - 1 + 1) at 2 by lia. rewrite bpow_succ. lra.
Qed.

Lemma bpow_ge_1 n : 0 ≤ n → (1 <= bpow n)%R.
Proof.
  intros Hn. rewrite <- (Z2Nat.id n) by done.
  generalize (Z.to_nat n). intros k. induction k as [|k IH].
  - change (Z.of_nat 0) with 0. rewrite bpow_0. lra.
  - rewrite Nat2Z.inj_succ. unfold Z.succ. rewrite bpow_succ. lra.
Qed.

Lemma bpow_le a c : a ≤ c → (bpow a <= bpow c)%R.
Proof.
  intros H. replace c with (a + (c - a)) by lia. rewrite bpow_add.
  pose proof (bpow_ge_1 (c - a) ltac:(lia)). pose proof (bpow_pos a). nra.
Qed.

Lemma bpow_lt a c : a < c → (bpow a < bpow c)%R.
Proof.
  intros H. apply Rlt_le_trans with (bpow (a + 1)); [|apply bpow_le; lia].
  rewrite bpow_succ. pose proof (bpow_pos a). lra.
Qed.

Lemma bpow_lt_inv a c : (bpow a < bpow c)%R → a < c.
Proof.
  intros H. destruct (Z.lt_ge_cases a c) as [|Hge]; [done|].
  apply bpow_le in Hge. lra.
Qed.

Lemma bpow_IZR n : 0 ≤ n → bpow n = IZR (2 ^ n).
Proof.
  intros Hn. rewrite <- (Z2Nat.id n) by done.
  generalize (Z.to_nat n). intros k. induction k as [|k IH].
  - change (Z.of_nat 0) with 0. by rewrite bpow_0.
  - rewrite Nat2Z.inj_succ. unfold Z.succ. rewrite bpow_succ, IH.
    rewrite Z.pow_add_r, Z.pow_1_r by lia. rewrite mult_IZR. lra.
Qed.

(** Number of binary digits. *)
Lemma digits2_pos_ge (m : positive) :
  2 ^ (Z.pos (digits2_pos m) - 1) ≤ Z.pos m.
Proof.
  induction m as [m IH|m IH|]; simpl; [| |done].
  - rewrite Pos2Z.inj_succ. replace (Z.succ (Z.pos (digits2_pos m)) - 1)
      with (Z.pos (digits2_pos m) - 1 + 1) by lia.
    rewrite Z.pow_add_r by lia. lia.
  - rewrite Pos2Z.inj_succ. replace (Z.succ (Z.pos (digits2_pos m)) - 1)
      with (Z.pos (digits2_pos m) - 1 + 1) by lia.
    rewrite Z.pow_add_r by lia. lia.
Qed.

Lemma Zdigits2_bounds (m : Z) :
  0 < m → (bpow (Zdigits2 m - 1) <= IZR m < bpow (Zdigits2 m))%R.
Proof.
  destruct m as [|p|p]; try lia. intros _. simpl Zdigits2.
  rewrite !bpow_IZR by lia. split.
  - apply IZR_le, digits2_pos_ge.
  - apply IZR_lt, digits2_pos_gt.
Qed.

Lemma Zdigits2_nonneg m : 0 ≤ Zdigits2 m.
Proof. by destruct m. Qed.

Lemma Zdigits2_le_bound m k :
  0 ≤ m → 0 ≤ k → (IZR m < bpow k)%R → Zdigits2 m ≤ k.
Proof.
  intros Hm Hk Hlt. destruct (Z.eq_dec m 0) as [->|Hne]; [done|].
  destruct (Zdigits2_bounds m) as [Hlo _]; [lia|].
  assert (bpow (Zdigits2 m - 1) < bpow k)%R as H%bpow_lt_inv by lra. lia.
Qed.

(** *** Shifting and rounding a mantissa *)

Lemma located_bounds x mrs :
  located x mrs → (IZR (shr_m mrs) <= x < IZR (shr_m mrs) + 1)%R.
Proof. unfold located. destruct (shr_r mrs), (shr_s mrs); lra. Qed.

Lemma shr_1_located x mrs :
  0 ≤ shr_m mrs → located x mrs →
  0 ≤ shr_m (shr_1 mrs) ∧ located (x / 2) (shr_1 mrs).
Proof.
  destruct mrs as [m r s]. unfold located. simpl. intros Hm Hloc.
  destruct m as [|[p|p|]|]; try lia; simpl.
  - (* 0 *) split; [done|]. destruct r, s; simpl; lra.
  - (* 2p+1 *) split; [lia|].
    rewrite Pos2Z.inj_xI, plus_IZR, mult_IZR in Hloc.
    destruct r, s; simpl; lra.
  - (* 2p *) split; [lia|].
    rewrite Pos2Z.inj_xO, mult_IZR in Hloc.
    destruct r, s; simpl; lra.
  - (* 1 *) split; [done|]. destruct r, s; simpl; lra.
Qed.

Lemma iter_pos_nat {A} (f : A → A) (p : positive) (x : A) :
  SpecFloat.iter_pos f p x = Nat.iter (Pos.to_nat p) f x.
Proof.
  revert x. induction p as [p IH|p IH|]; intros x.
  - cbn [SpecFloat.iter_pos]. rewrite !IH, Pos2Nat.inj_xI.
    replace (S (2 * Pos.to_nat p)) with (Pos.to_nat p + (Pos.to_nat p + 1))%nat
      by lia.
    by rewrite !Nat.iter_add.
  - cbn [SpecFloat.iter_pos]. rewrite !IH, Pos2Nat.inj_xO.
    replace (2 * Pos.to_nat p)%nat with (Pos.to_nat p + Pos.to_nat p)%nat by lia.
    by rewrite Nat.iter_add.
  - done.
Qed.

Lemma iter_shr_1_located (n : nat) x mrs :
  0 ≤ shr_m mrs → located x mrs →
  0 ≤ shr_m (Nat.iter n shr_1 mrs) ∧
  located (x * bpow (- Z.of_nat n)) (Nat.iter n shr_1 mrs).
Proof.
  intros Hm Hloc. induction n as [|n [IHm IHloc]].
  - change (Nat.iter 0 shr_1 mrs) with mrs. split; [done|].
    change (- Z.of_nat 0) with 0. rewrite bpow_0. by rewrite Rmult_1_r.
  - change (Nat.iter (S n) shr_1 mrs) with (shr_1 (Nat.iter n shr_1 mrs)).
    destruct (shr_1_located _ _ IHm IHloc) as [Hm' Hloc'].
    split; [done|].
    replace (x * bpow (- Z.of_nat (S n)))%R
      with (x * bpow (- Z.of_nat n) / 2)%R; [done|].
    rewrite Nat2Z.inj_succ.
    replace (- Z.succ (Z.of_nat n)) with (- Z.of_nat n - 1) by lia.
    rewrite bpow_pred. lra.
Qed.

(** [shr] by [n] places: the exponent grows by [n] when [n] is positive. *)
Lemma shr_located x mrs e n :
  0 ≤ shr_m mrs → located x mrs →
  let '(mrs', e') := shr mrs e n in
  e' = Z.max e (e + n) ∧ 0 ≤ shr_m mrs' ∧
  located (x * bpow (e - e')) mrs'.
Proof.
  intros Hm Hloc. unfold shr. destruct n as [|p|p].
  - split; [lia|]. split; [done|]. rewrite Z.sub_diag, bpow_0.
    by rewrite Rmult_1_r.
  - split; [lia|]. rewrite iter_pos_nat.
    destruct (iter_shr_1_located (Pos.to_nat p) x mrs Hm Hloc) as [Hm' Hloc'].
    split; [done|].
    replace (e - (e + Z.pos p)) with (- Z.of_nat (Pos.to_nat p)) by lia. done.
  - split; [lia|]. split; [done|]. rewrite Z.sub_diag, bpow_0.
    by rewrite Rmult_1_r.
Qed.

Lemma round_nearest_even_located x mrs :
  located x mrs →
  let M := round_nearest_even (shr_m mrs) (loc_of_shr_record mrs) in
  (Rabs (IZR M - x) <= / 2)%R ∧ shr_m mrs ≤ M ≤ shr_m mrs + 1 ∧
  (shr_r mrs = false → shr_s mrs = false → M = shr_m mrs).
Proof.
  destruct mrs as [m r s]. unfold located. simpl. intros Hloc.
  destruct r, s; simpl.
  - rewrite plus_IZR. split; [apply Rabs_le; lra|]. split; [lia|done].
  - destruct (Z.even m).
    + split; [apply Rabs_le; lra|]. split; [lia|done].
    + rewrite plus_IZR. split; [apply Rabs_le; lra|]. split; [lia|done].
  - split; [apply Rabs_le; lra|]. split; [lia|done].
  - split; [apply Rabs_le; lra|]. split; [lia|done].
Qed.

Lemma located_of_loc_exact m : located (IZR m) (shr_record_of_loc m loc_Exact).
Proof. reflexivity. Qed.

Lemma fexp_eq z : fexp prec emax z = Z.max (z - 53) (- 1074).
Proof. reflexivity. Qed.

Lemma shr_m_of_loc m l : shr_m (shr_record_of_loc m l) = m.
Proof. by destruct l as [|[| |]]. Qed.

Lemma shr_nonpos mrs e n : n ≤ 0 → shr mrs e n = (mrs, e).
Proof. destruct n; [done|lia|done]. Qed.

(** The second shift of [binary_round_aux] only renormalises a rounded
    mantissa that reached [2^53]. *)
Lemma shr_fexp_second (M e' : Z) :
  0 ≤ M ≤ 2 ^ 53 → - 1074 ≤ e' →
  let '(mrs'', e'') := shr_fexp prec emax M e' loc_Exact in
  (IZR (shr_m mrs'') * bpow e'' = IZR M * bpow e')%R ∧ 0 ≤ shr_m mrs'' ∧
  (e'' = e' ∨ M = 2 ^ 53 ∧ e'' = e' + 1).
Proof.
  intros HM He. unfold shr_fexp. rewrite fexp_eq.
  destruct (Z.eq_dec M (2 ^ 53)) as [->|Hne].
  - change (Zdigits2 (2 ^ 53)) with 54.
    replace (Z.max (54 + e' - 53) (- 1074) - e') with 1 by lia.
    cbn [shr shr_record_of_loc SpecFloat.iter_pos].
    change (shr_1 {| shr_m := 2 ^ 53; shr_r := false; shr_s := false |})
      with {| shr_m := 2 ^ 52; shr_r := false; shr_s := false |}.
    cbn [shr_m]. split; [|split; [done|by right]].
    rewrite bpow_succ. rewrite <- !bpow_IZR by lia.
    change 53 with (52 + 1). rewrite bpow_succ. lra.
  - assert (Zdigits2 M ≤ 53) as Hd.
    { apply Zdigits2_le_bound; [lia|lia|]. rewrite bpow_IZR by lia.
      apply IZR_lt. lia. }
    rewrite shr_nonpos by lia. cbn [shr_m shr_record_of_loc].
    split; [done|]. split; [lia|by left].
Qed.

Lemma binary_round_aux_correct (s : bool) (m e : Z) (l : location) (x : R) :
  0 ≤ m →
  located x (shr_record_of_loc m l) →
  (x * bpow e < bpow 1023)%R →
  (e ≤ 971 ∨ e ≤ fexp prec emax (Zdigits2 m + e)) →
  let E := Z.max e (fexp prec emax (Zdigits2 m + e)) in
  ∃ V : R,
    (binary_round_aux prec emax s m e l = S754_zero s ∧ V = 0%R ∨
     ∃ m'' e'', binary_round_aux prec emax s m e l = S754_finite s m'' e'' ∧
                V = (IZR (Z.pos m'') * bpow e'')%R) ∧
    (Rabs (V - x * bpow e) <= bpow (E - 1))%R ∧
    (l = loc_Exact → fexp prec emax (Zdigits2 m + e) ≤ e → V = (x * bpow e)%R).
Proof.
  intros Hm Hloc Hx He E.
  pose proof (located_bounds _ _ Hloc) as Hxm. rewrite shr_m_of_loc in Hxm.
  set (d := Zdigits2 m) in *.
  assert (0 ≤ d) as Hd0 by apply Zdigits2_nonneg.
  (* [x] is below [2^d] *)
  assert (x < bpow d)%R as Hxd.
  { destruct (Z.eq_dec m 0) as [->|Hne].
    - change d with 0 in *. rewrite bpow_0. simpl in Hxm. lra.
    - destruct (Zdigits2_bounds m) as [_ Hhi]; [lia|]. fold d in Hhi.
      rewrite bpow_IZR in Hhi |- * by lia. apply lt_IZR in Hhi.
      assert (IZR m + 1 <= IZR (2 ^ d))%R; [|lra].
      rewrite <- plus_IZR. apply IZR_le. lia. }
  assert (binary_round_aux prec emax s m e l
          = let '(mrs', e') := shr (shr_record_of_loc m l) e
                                   (fexp prec emax (d + e) - e) in
            let '(mrs'', e'') :=
              shr_fexp prec emax
                (round_nearest_even (shr_m mrs') (loc_of_shr_record mrs'))
                e' loc_Exact in
            match shr_m mrs'' with
            | 0 => S754_zero s
            | Z.pos m0 => if e'' <=? emax - prec then S754_finite s m0 e''
                          else S754_infinity s
            | Z.neg _ => S754_nan
            end) as Hbra by reflexivity.
  generalize dependent (binary_round_aux prec emax s m e l). intros res Hbra.
  pose proof (shr_located x (shr_record_of_loc m l) e
                (fexp prec emax (d + e) - e)) as Hshr.
  rewrite shr_m_of_loc in Hshr. specialize (Hshr Hm Hloc).
  destruct (shr (shr_record_of_loc m l) e (fexp prec emax (d + e) - e))
    as [mrs' e'] eqn:Hs1.
  destruct Hshr as (He' & Hm' & Hloc').
  assert (e' = E) as HeE by (unfold E; lia).
  pose proof (fexp_eq (d + e)) as Hfexp.
  assert (- 1074 ≤ e') as Hemin by lia.
  pose proof (located_bounds _ _ Hloc') as Hxm'.
  pose proof (round_nearest_even_located _ _ Hloc') as (Hround & HM & Hexact).
  set (M := round_nearest_even (shr_m mrs') (loc_of_shr_record mrs')) in *.
  (* the shifted mantissa has at most 53 digits *)
  assert (x * bpow (e - e') < bpow (d + e - e'))%R as Hx'.
  { replace (d + e - e') with (d + (e - e')) by lia. rewrite bpow_add.
    pose proof (bpow_pos (e - e')). nra. }
  assert (shr_m mrs' < 2 ^ 53) as Hm53.
  { apply lt_IZR. rewrite <- bpow_IZR by lia.
    pose proof (bpow_le (d + e - e') 53 ltac:(lia)). lra. }
  pose proof (shr_fexp_second M e' ltac:(lia) Hemin) as Hsecond.
  destruct (shr_fexp prec emax M e' loc_Exact) as [mrs'' e''].
  destruct Hsecond as (Hval & Hm'' & He'').
  exists (IZR M * bpow e')%R.
  (* the exponent of the result is in range *)
  assert (0 < shr_m mrs'' → e'' ≤ 971) as Hrange.
  { intros Hpos.
    destruct (Z.le_gt_cases e (fexp prec emax (d + e))) as [Hle|Hgt].
    - (* a shift took place, or none was needed *)
      assert (e' ≤ 970); [|lia].
      destruct (Z.eq_dec m 0) as [->|Hne].
      + change d with 0 in *. lia.
      + destruct (Zdigits2_bounds m) as [Hlo _]; [lia|]. fold d in Hlo.
        assert (bpow (d - 1 + e) < bpow 1023)%R as H%bpow_lt_inv; [|lia].
        rewrite bpow_add. pose proof (bpow_pos e). nra.
    - (* no shift: the mantissa is short, so rounding cannot reach 2^53 *)
      destruct He as [He|He]; [|lia].
      destruct He'' as [->|[HM53 _]]; [lia|].
      assert (mrs' = shr_record_of_loc m l) as Hsame.
      { rewrite shr_nonpos in Hs1 by lia. congruence. }
      rewrite Hsame, shr_m_of_loc in HM.
      assert (d ≤ 52) as Hd52 by lia.
      destruct (Z.eq_dec m 0) as [->|Hne]; [lia|].
      destruct (Zdigits2_bounds m) as [_ Hhi]; [lia|]. fold d in Hhi.
      assert (IZR m < bpow 52)%R as Hm52.
      { pose proof (bpow_le d 52 Hd52). lra. }
      rewrite bpow_IZR in Hm52 by lia. apply lt_IZR in Hm52. lia. }
  split; [|split].
  - destruct (shr_m mrs'') as [|m''|m''] eqn:Hm''eq; [| |lia].
    + left. split; [done|]. rewrite <- Hval. simpl. lra.
    + right. exists m'', e''.
      rewrite (proj2 (Z.leb_le e'' (emax - prec))) in Hbra
        by (apply Hrange; lia).
      split; [done|]. by rewrite <- Hval.
  - replace (x * bpow e)%R with (x * bpow (e - e') * bpow e')%R.
    2:{ rewrite Rmult_assoc, <- bpow_add. f_equal. f_equal. lia. }
    rewrite <- Rmult_minus_distr_r, Rabs_mult.
    rewrite (Rabs_pos_eq (bpow e')) by (left; apply bpow_pos).
    rewrite <- HeE, bpow_pred. pose proof (bpow_pos e'). nra.
  - intros -> Hle.
    assert (mrs' = shr_record_of_loc m loc_Exact ∧ e' = e) as [Hsame ->].
    { rewrite shr_nonpos in Hs1 by lia. split; congruence. }
    rewrite Hsame in Hexact, Hloc'. cbn [shr_r shr_s shr_m shr_record_of_loc] in *.
    rewrite Hexact by done. unfold located in Hloc'. simpl in Hloc'.
    rewrite Z.sub_diag, bpow_0 in Hloc'. f_equal. lra.
Qed.

(** *** One operation *)

Lemma F2R_nonneg f : nonneg f → (0 <= F2R f)%R.
Proof.
  unfold nonneg, F2R. destruct (Prim2SF f) as [s|s| |[|] m e]; simpl; try done;
    try lra.
  intros _. pose proof (bpow_pos e). assert (0 < IZR (Z.pos m))%R by (by apply IZR_lt).
  nra.
Qed.

(** What validity says of a finite double. *)
Lemma valid_finite f s m e :
  Prim2SF f = S754_finite s m e →
  fexp prec emax (Z.pos (digits2_pos m) + e) = e ∧ e ≤ 971.
Proof.
  intros Hf. pose proof (Prim2SF_valid f) as Hv. rewrite Hf in Hv.
  simpl in Hv. unfold bounded, canonical_mantissa in Hv.
  apply andb_prop in Hv as [Hc He].
  apply Z.eqb_eq in Hc. apply Z.leb_le in He. split; [done|].
  change (emax - prec) with 971 in He. done.
Qed.

Lemma Zdigits2_unique (m a : Z) :
  (bpow (a - 1) <= IZR m < bpow a)%R → Zdigits2 m = a.
Proof.
  intros [Hlo Hhi].
  assert (0 < m) as Hm.
  { apply lt_IZR. pose proof (bpow_pos (a - 1)). lra. }
  destruct (Zdigits2_bounds m Hm) as [Hlo' Hhi'].
  assert (bpow (a - 1) < bpow (Zdigits2 m))%R as H1%bpow_lt_inv by lra.
  assert (bpow (Zdigits2 m - 1) < bpow a)%R as H2%bpow_lt_inv by lra.
  lia.
Qed.

Lemma pos_iter_xO (m d : positive) :
  Z.pos (Pos.iter xO m d) = Z.pos m * 2 ^ Z.pos d.
Proof.
  revert m. induction d as [|d IH] using Pos.peano_ind; intros m.
  - simpl. lia.
  - rewrite Pos.iter_succ, Pos2Z.inj_xO, IH, Pos2Z.inj_succ.
    rewrite Z.pow_succ_r by lia. lia.
Qed.

Lemma shl_align_spec (m : positive) (e e' : Z) :
  let '(m', e'') := shl_align m e e' in
  e'' = Z.min e e' ∧ IZR (Z.pos m') = (IZR (Z.pos m) * bpow (e - e''))%R.
Proof.
  unfold shl_align. destruct (e' - e) as [|d|d] eqn:Hd.
  - split; [lia|]. rewrite Z.sub_diag, bpow_0. lra.
  - split; [lia|]. rewrite Z.sub_diag, bpow_0. lra.
  - split; [lia|]. rewrite pos_iter_xO, mult_IZR.
    replace (e - e') with (Z.pos d) by lia. by rewrite bpow_IZR by lia.
Qed.

Lemma u_pos : (0 < u)%R.
Proof. apply bpow_pos. Qed.

Lemma eta_pos : (0 < eta)%R.
Proof. apply bpow_pos. Qed.

(** Half a unit in the last place, against the number rounded. *)
Lemma half_ulp_relative (D E : Z) (X : R) :
  (bpow (D - 1) <= X)%R → E ≤ Z.max (D - 53) (- 1074) →
  (bpow (E - 1) <= u * X + eta)%R.
Proof.
  intros HX HE. pose proof u_pos. pose proof eta_pos.
  pose proof (bpow_pos (D - 1)).
  destruct (Z.le_gt_cases E (D - 53)) as [Hle|Hgt].
  - apply Rle_trans with (bpow (- 53 + (D - 1))); [apply bpow_le; lia|].
    rewrite bpow_add. fold u. nra.
  - apply Rle_trans with eta; [apply bpow_le; lia|]. nra.
Qed.

Lemma half_ulp_relative_normal (D E : Z) (X : R) :
  (bpow (D - 1) <= X)%R → E ≤ D - 53 → (bpow (E - 1) <= u * X)%R.
Proof.
  intros HX HE. pose proof u_pos. pose proof (bpow_pos (D - 1)).
  apply Rle_trans with (bpow (- 53 + (D - 1))); [apply bpow_le; lia|].
  rewrite bpow_add. fold u. nra.
Qed.

Lemma rounds_to_F2R (f : float) V :
  rounds_to (Prim2SF f) V → nonneg f ∧ F2R f = V.
Proof.
  unfold nonneg, F2R. intros [[[s ->] ->]|(m & e & -> & ->)]; by simpl.
Qed.

Lemma binary_round_correct (p : positive) (e : Z) :
  (IZR (Z.pos p) * bpow e < bpow 1023)%R → - 1074 ≤ e →
  ∃ V, rounds_to (binary_round prec emax false p e) V ∧
       (Rabs (V - IZR (Z.pos p) * bpow e) <= u * (IZR (Z.pos p) * bpow e))%R.
Proof.
  intros HX He. unfold binary_round.
  set (dp := Z.pos (digits2_pos p)).
  pose proof (shl_align_spec p e (fexp prec emax (dp + e))) as Hal.
  destruct (shl_align p e (fexp prec emax (dp + e))) as [mz ez].
  destruct Hal as [Hez Hmz].
  destruct (Zdigits2_bounds (Z.pos p) ltac:(lia)) as [Hlo Hhi].
  change (Zdigits2 (Z.pos p)) with dp in Hlo, Hhi.
  assert (Zdigits2 (Z.pos mz) = dp + (e - ez)) as Hdz.
  { apply Zdigits2_unique. rewrite Hmz.
    replace (dp + (e - ez) - 1) with (dp - 1 + (e - ez)) by lia.
    rewrite !bpow_add. pose proof (bpow_pos (e - ez)). nra. }
  assert (IZR (Z.pos mz) * bpow ez = IZR (Z.pos p) * bpow e)%R as Hval.
  { rewrite Hmz, Rmult_assoc, <- bpow_add. do 2 f_equal. lia. }
  destruct (binary_round_aux_correct false (Z.pos mz) ez loc_Exact
              (IZR (Z.pos mz))) as (V & Hres & Herr & Hexact).
  { lia. } { apply located_of_loc_exact. } { by rewrite Hval. }
  { right. rewrite Hdz. replace (dp + (e - ez) + ez) with (dp + e) by lia. lia. }
  rewrite Hdz in Herr, Hexact.
  replace (dp + (e - ez) + ez) with (dp + e) in Herr, Hexact by lia.
  rewrite Hval in Herr, Hexact.
  exists V. split.
  - destruct Hres as [[-> ->]|(m'' & e'' & -> & ->)]; [left|right]; by eauto.
  - pose proof (fexp_eq (dp + e)) as Hf.
    assert (0 < IZR (Z.pos p) * bpow e)%R as Hpos.
    { pose proof (bpow_pos e). assert (0 < IZR (Z.pos p))%R by (by apply IZR_lt).
      nra. }
    destruct (Z.le_gt_cases (fexp prec emax (dp + e)) e) as [Hle|Hgt].
    + rewrite Hexact by (done || lia). rewrite Rminus_diag, Rabs_R0.
      pose proof u_pos. nra.
    + eapply Rle_trans; [exact Herr|].
      apply (half_ulp_relative_normal (dp + e)); [|lia].
      replace (dp + e - 1) with (dp - 1 + e) by lia. rewrite bpow_add.
      pose proof (bpow_pos e). nra.
Qed.

Lemma SF2R_finite_pos m e : SF2R (S754_finite false m e) = (IZR (Z.pos m) * bpow e)%R.
Proof. reflexivity. Qed.

(** Addition of two non-negative doubles: one rounding, of relative error
    at most [u]. *)
Lemma add_correct (x y : float) :
  nonneg x → nonneg y → (F2R x + F2R y < bpow 1023)%R →
  nonneg (x + y)%float ∧
  (Rabs (F2R (x + y)%float - (F2R x + F2R y)) <= u * (F2R x + F2R y))%R.
Proof.
  intros Hx Hy Hsum. pose proof u_pos as Hu.
  pose proof (F2R_nonneg x Hx) as Hx0. pose proof (F2R_nonneg y Hy) as Hy0.
  unfold nonneg, F2R in *. rewrite add_spec.
  destruct (Prim2SF x) as [sx|sx| |[|] mx ex] eqn:Hpx; try done;
    destruct (Prim2SF y) as [sy|sy| |[|] my ey] eqn:Hpy; try done.
  - (* 0 + 0 *)
    assert (∃ s, SF64add (S754_zero sx) (S754_zero sy) = S754_zero s) as [s ->].
    { destruct sx, sy; by eexists. }
    cbn [SF2R]. split; [done|].
    match goal with |- (Rabs ?a <= _)%R => replace a with 0%R by lra end.
    rewrite Rabs_R0. lra.
  - (* 0 + y *)
    change (SF64add (S754_zero sx) (S754_finite false my ey))
      with (S754_finite false my ey).
    split; [done|]. cbn [SF2R cond_Zopp] in *.
    match goal with |- (Rabs ?a <= _)%R => replace a with 0%R by lra end.
    rewrite Rabs_R0. nra.
  - (* x + 0 *)
    change (SF64add (S754_finite false mx ex) (S754_zero sy))
      with (S754_finite false mx ex).
    split; [done|]. cbn [SF2R cond_Zopp] in *.
    match goal with |- (Rabs ?a <= _)%R => replace a with 0%R by lra end.
    rewrite Rabs_R0. nra.
  - (* two positive numbers *)
    destruct (valid_finite x _ _ _ Hpx) as [Hcx _].
    destruct (valid_finite y _ _ _ Hpy) as [Hcy _].
    rewrite fexp_eq in Hcx, Hcy.
    unfold SF64add, SFadd. set (ez := Z.min ex ey).
    pose proof (shl_align_spec mx ex ez) as Hax.
    pose proof (shl_align_spec my ey ez) as Hay.
    destruct (shl_align mx ex ez) as [mx' ex'].
    destruct (shl_align my ey ez) as [my' ey'].
    destruct Hax as [Hex' Hmx']. destruct Hay as [Hey' Hmy'].
    cbn [fst cond_Zopp]. change (Z.pos mx' + Z.pos my') with (Z.pos (mx' + my')).
    cbn [binary_normalize].
    rewrite !SF2R_finite_pos in *.
    assert (IZR (Z.pos (mx' + my')) * bpow ez
            = IZR (Z.pos mx) * bpow ex + IZR (Z.pos my) * bpow ey)%R as Hval.
    { rewrite Pos2Z.inj_add, plus_IZR, Hmx', Hmy'.
      replace ex' with ez by lia. replace ey' with ez by lia.
      rewrite Rmult_plus_distr_r, !Rmult_assoc, <- !bpow_add.
      by replace (ex - ez + ez) with ex by lia;
        replace (ey - ez + ez) with ey by lia. }
    destruct (binary_round_correct (mx' + my') ez) as (V & Hres & Herr).
    { by rewrite Hval. } { lia. }
    rewrite Hval in Herr.
    destruct Hres as [[[s ->] ->]|(m'' & e'' & -> & ->)]; by simpl.
Qed.

Lemma finite_exponent_lt (m : positive) (e k : Z) :
  (IZR (Z.pos m) * bpow e < bpow k)%R → e < k.
Proof.
  intros H. apply bpow_lt_inv. pose proof (bpow_pos e).
  assert (1 <= IZR (Z.pos m))%R by (apply IZR_le; lia). nra.
Qed.

(** Multiplication of two non-negative doubles: one rounding. *)
Lemma mul_correct (x y : float) :
  nonneg x → nonneg y → (F2R x < bpow 480)%R → (F2R y < bpow 480)%R →
  nonneg (x * y)%float ∧
  (Rabs (F2R (x * y)%float - F2R x * F2R y) <= u * (F2R x * F2R y) + eta)%R.
Proof.
  intros Hx Hy Hbx Hby. pose proof u_pos as Hu. pose proof eta_pos as Heta.
  pose proof (F2R_nonneg x Hx) as Hx0. pose proof (F2R_nonneg y Hy) as Hy0.
  unfold nonneg, F2R in *. rewrite mul_spec.
  destruct (Prim2SF x) as [sx|sx| |[|] mx ex] eqn:Hpx; try done;
    destruct (Prim2SF y) as [sy|sy| |[|] my ey] eqn:Hpy; try done.
  1-3: (cbn [SF64mul SFmul SF2R]; split; [done|];
        match goal with |- (Rabs ?a <= _)%R => replace a with 0%R by lra end;
        rewrite Rabs_R0; cbn [SF2R cond_Zopp] in *; nra).
  unfold SF64mul, SFmul. cbn [xorb].
  rewrite !SF2R_finite_pos in *.
  pose proof (finite_exponent_lt _ _ _ Hbx). pose proof (finite_exponent_lt _ _ _ Hby).
  assert (IZR (Z.pos (mx * my)) * bpow (ex + ey)
          = IZR (Z.pos mx) * bpow ex * (IZR (Z.pos my) * bpow ey))%R as Hval.
  { rewrite Pos2Z.inj_mul, mult_IZR, bpow_add. ring. }
  assert (0 < IZR (Z.pos (mx * my)) * bpow (ex + ey))%R as Hpos.
  { pose proof (bpow_pos (ex + ey)).
    assert (0 < IZR (Z.pos (mx * my)))%R by (by apply IZR_lt). nra. }
  destruct (binary_round_aux_correct false (Z.pos (mx * my)) (ex + ey) loc_Exact
              (IZR (Z.pos (mx * my)))) as (V & Hres & Herr & Hexact).
  { lia. } { apply located_of_loc_exact. }
  { rewrite Hval. apply Rlt_trans with (bpow 480 * bpow 480)%R; [nra|].
    rewrite <- bpow_add. apply bpow_lt. lia. }
  { left. lia. }
  rewrite Hval in *.
  assert (Rabs (V - IZR (Z.pos mx) * bpow ex * (IZR (Z.pos my) * bpow ey))
          <= u * (IZR (Z.pos mx) * bpow ex * (IZR (Z.pos my) * bpow ey)) + eta)%R
    as Hbound.
  { set (D := Zdigits2 (Z.pos (mx * my))) in *.
    destruct (Z.le_gt_cases (fexp prec emax (D + (ex + ey))) (ex + ey))
      as [Hle|Hgt].
    - rewrite Hexact by done. rewrite Rminus_diag, Rabs_R0. nra.
    - eapply Rle_trans; [exact Herr|].
      apply (half_ulp_relative (D + (ex + ey))).
      + rewrite <- Hval. destruct (Zdigits2_bounds (Z.pos (mx * my))) as [Hlo _];
          [lia|]. fold D in Hlo.
        replace (D + (ex + ey) - 1) with (D - 1 + (ex + ey)) by lia.
        rewrite bpow_add. pose proof (bpow_pos (ex + ey)). nra.
      + rewrite fexp_eq in *. lia. }
  destruct Hres as [[-> ->]|(m'' & e'' & -> & ->)]; by simpl.
Qed.

(** Where the quotient of a division lies. *)
Lemma new_location_located (q r d : Z) :
  0 < d → 0 ≤ r < d →
  located (IZR q + IZR r / IZR d) (shr_record_of_loc q (new_location d r)).
Proof.
  intros Hd Hr.
  assert (0 < IZR d)%R as Hd' by (by apply IZR_lt).
  assert (0 <= IZR r < IZR d)%R as Hr' by (split; [apply IZR_le|apply IZR_lt]; lia).
  assert (∀ a c : Z, (IZR r / IZR d < / 2)%R ↔ 2 * r < d) as Hlt.
  { intros _ _. split.
    - intros H. apply lt_IZR. rewrite mult_IZR.
      apply (Rmult_lt_compat_r (IZR d)) in H; [|done].
      unfold Rdiv in H. rewrite Rmult_assoc, Rinv_l in H by lra. lra.
    - intros H%IZR_lt. rewrite mult_IZR in H.
      apply (Rmult_lt_reg_r (IZR d)); [done|].
      unfold Rdiv. rewrite Rmult_assoc, Rinv_l by lra. lra. }
  specialize (Hlt 0 0).
  assert (IZR r / IZR d < 1)%R as Hlt1.
  { apply (Rmult_lt_reg_r (IZR d)); [done|].
    unfold Rdiv. rewrite Rmult_assoc, Rinv_l by lra. lra. }
  assert (r ≠ 0 → (0 < IZR r / IZR d)%R) as Hpos.
  { intros Hne. apply Rdiv_lt_0_compat; [|done]. apply IZR_lt. lia. }
  assert (2 * r = d → (IZR r / IZR d = / 2)%R) as Heq.
  { intros <-. rewrite mult_IZR. field. intros H0.
    assert (IZR r = 0)%R as H0'%eq_IZR by lra. lia. }
  assert (d < 2 * r → (/ 2 < IZR r / IZR d)%R) as Hgt.
  { intros H%IZR_lt. rewrite mult_IZR in H.
    apply (Rmult_lt_reg_r (IZR d)); [done|].
    unfold Rdiv. rewrite Rmult_assoc, Rinv_l by lra. lra. }
  unfold new_location.
  destruct (Z.even d) eqn:Heven.
  - unfold new_location_even. destruct (Z.eqb_spec r 0) as [->|Hne].
    + unfold located. simpl. unfold Rdiv. lra.
    + destruct (Z.compare_spec (2 * r) d) as [Hc|Hc|Hc]; unfold located; simpl.
      * rewrite (Heq Hc). lra.
      * apply Hlt in Hc. specialize (Hpos Hne). lra.
      * specialize (Hgt Hc). lra.
  - unfold new_location_odd. destruct (Z.eqb_spec r 0) as [->|Hne].
    + unfold located. simpl. unfold Rdiv. lra.
    + assert (2 * r ≠ d) as Hodd.
      { intros <-. rewrite Z.even_mul in Heven. done. }
      destruct (Z.compare_spec (2 * r + 1) d) as [Hc|Hc|Hc]; unfold located; simpl.
      * assert (2 * r < d) as Hc'%Hlt by lia. specialize (Hpos Hne). lra.
      * assert (2 * r < d) as Hc'%Hlt by lia. specialize (Hpos Hne). lra.
      * assert (d < 2 * r) as Hc'%Hgt by lia. lra.
Qed.

Lemma positive_finite_F2R f : positive_finite f → nonneg f ∧ (0 < F2R f)%R.
Proof.
  unfold positive_finite, nonneg, F2R.
  destruct (Prim2SF f) as [s|s| |[|] m e]; try done. intros _. split; [done|].
  rewrite SF2R_finite_pos. pose proof (bpow_pos e).
  assert (0 < IZR (Z.pos m))%R by (by apply IZR_lt). nra.
Qed.

(** Division of a non-negative double by a positive one: one rounding. *)
Lemma div_correct (x y : float) :
  nonneg x → positive_finite y → (F2R x / F2R y < bpow 1023)%R →
  nonneg (x / y)%float ∧
  (Rabs (F2R (x / y)%float - F2R x / F2R y) <= u * (F2R x / F2R y) + eta)%R.
Proof.
  intros Hx Hy Hq. pose proof u_pos as Hu. pose proof eta_pos as Heta.
  destruct (positive_finite_F2R y Hy) as [_ Hy0].
  unfold nonneg, positive_finite, F2R in *. rewrite div_spec.
  destruct (Prim2SF y) as [sy|sy| |[|] my ey] eqn:Hpy; try done.
  destruct (Prim2SF x) as [sx|sx| |[|] mx ex] eqn:Hpx; try done.
  - (* 0 / y *)
    cbn [SF64div SFdiv SF2R]. split; [done|]. unfold Rdiv.
    rewrite Rmult_0_l, Rminus_diag, Rabs_R0. lra.
  - (* two positive numbers *)
    rewrite !SF2R_finite_pos in *.
    unfold SF64div, SFdiv. cbn [xorb].
    pose proof (eq_refl (SFdiv_core_binary prec emax (Z.pos mx) ex (Z.pos my) ey))
      as Hcore.
    unfold SFdiv_core_binary at 2 in Hcore.
    set (d1 := Zdigits2 (Z.pos mx)) in *. set (d2 := Zdigits2 (Z.pos my)) in *.
    set (K := d1 + ex - (d2 + ey)) in *.
    set (e' := Z.min (fexp prec emax K) (ex - ey)) in *.
    set (s := ex - ey - e') in *.
    assert (0 ≤ s) as Hs by lia.
    set (m' := match s with
               | 0 => Z.pos mx
               | Z.pos _ => Z.shiftl (Z.pos mx) s
               | Z.neg _ => 0
               end) in *.
    assert (m' = Z.pos mx * 2 ^ s) as Hm'.
    { unfold m'. destruct s as [|p|p] eqn:Hs'; [lia| |lia].
      by rewrite Z.shiftl_mul_pow2 by lia. }
    pose proof (Z_div_mod m' (Z.pos my) ltac:(lia)) as Hdiv.
    destruct (Z.div_eucl m' (Z.pos my)) as [q r].
    destruct Hdiv as [Hqr Hr].
    rewrite Hcore. clear Hcore.
    assert (0 ≤ q) as Hq0 by nia.
    assert (0 < IZR (Z.pos mx))%R as Hmx by (by apply IZR_lt).
    assert (0 < IZR (Z.pos my))%R as Hmy by (by apply IZR_lt).
    pose proof (bpow_pos ex) as Hbex. pose proof (bpow_pos ey) as Hbey.
    pose proof (bpow_pos e') as Hbe'.
    set (Q := (IZR (Z.pos mx) * bpow ex / (IZR (Z.pos my) * bpow ey))%R) in *.
    assert ((IZR q + IZR r / IZR (Z.pos my)) * bpow e' = Q)%R as Hval.
    { assert (IZR q + IZR r / IZR (Z.pos my) = IZR m' / IZR (Z.pos my))%R as ->.
      { rewrite Hqr, plus_IZR, mult_IZR. field. lra. }
      rewrite Hm', mult_IZR, <- bpow_IZR by done. unfold Q.
      assert (bpow ex = bpow s * bpow e' * bpow ey)%R as ->.
      { rewrite <- !bpow_add. f_equal. lia. }
      field. split; lra. }
    assert (bpow (K - 1) <= Q)%R as HQlo.
    { destruct (Zdigits2_bounds (Z.pos mx)) as [Hlo1 _]; [lia|].
      destruct (Zdigits2_bounds (Z.pos my)) as [_ Hhi2]; [lia|].
      fold d1 in Hlo1. fold d2 in Hhi2.
      unfold Q. apply Rle_trans with (bpow (d1 - 1) * bpow ex / (bpow d2 * bpow ey))%R.
      - replace (K - 1) with (d1 - 1 + ex + - (d2 + ey)) by lia.
        rewrite !bpow_add, bpow_opp, bpow_add. unfold Rdiv. lra.
      - pose proof (bpow_pos d2). pose proof (bpow_pos (d1 - 1)).
        unfold Rdiv. apply Rmult_le_compat; try nra.
        + left. apply Rinv_0_lt_compat. nra.
        + apply Rinv_le_contravar; nra. }
    assert (K ≤ 1023) as HK.
    { assert (bpow (K - 1) < bpow 1023)%R as H%bpow_lt_inv by lra. lia. }
    pose proof (fexp_eq K) as HfK.
    pose proof (new_location_located q r (Z.pos my) ltac:(lia) Hr) as Hloc.
    pose proof (located_bounds _ _ Hloc) as Hqx. rewrite shr_m_of_loc in Hqx.
    destruct (binary_round_aux_correct false q e' (new_location (Z.pos my) r)
                (IZR q + IZR r / IZR (Z.pos my))) as (V & Hres & Herr & _).
    { done. } { done. } { by rewrite Hval. } { left. lia. }
    rewrite Hval in Herr.
    assert (Rabs (V - Q) <= u * Q + eta)%R as Hbound.
    { eapply Rle_trans; [exact Herr|].
      set (dq := Zdigits2 q) in *. pose proof (fexp_eq (dq + e')) as Hfq.
      destruct (Z.max_spec e' (fexp prec emax (dq + e'))) as [[_ ->]|[_ ->]].
      - destruct (Z.eq_dec q 0) as [->|Hne].
        + change dq with 0 in *. apply (half_ulp_relative K); [done|lia].
        + apply (half_ulp_relative (dq + e')); [|lia].
          destruct (Zdigits2_bounds q) as [Hlo _]; [lia|]. fold dq in Hlo.
          replace (dq + e' - 1) with (dq - 1 + e') by lia. rewrite bpow_add.
          rewrite <- Hval. nra.
      - apply (half_ulp_relative K); [done|lia]. }
    destruct Hres as [[-> ->]|(m'' & e'' & -> & ->)]; by simpl.
Qed.

(** *** Channels, comparisons and the cast *)

Lemma levels_are_exact : forallb level_is_exact (seqZ 0 256) = true.
Proof. by vm_compute. Qed.

(** The conversion of a channel to [double] is exact. *)
Lemma of_int_level (c : Z) :
  0 ≤ c ≤ 255 →
  nonneg (Binary64.of_int c) ∧ F2R (Binary64.of_int c) = IZR c.
Proof.
  intros Hc. pose proof levels_are_exact as H.
  rewrite forallb_forall in H. specialize (H c).
  assert (level_is_exact c = true) as Hok.
  { apply H. apply list_elem_of_In, elem_of_seqZ. lia. }
  clear H. unfold level_is_exact in Hok. unfold nonneg, F2R.
  destruct (Prim2SF (Binary64.of_int c)) as [s|s| |[|] m e]; try done.
  - apply Z.eqb_eq in Hok as ->. done.
  - apply andb_prop in Hok as [He%Z.leb_le Hm%Z.eqb_eq]. split; [done|].
    rewrite SF2R_finite_pos, Hm, mult_IZR, <- bpow_IZR by lia.
    rewrite Rmult_assoc, <- bpow_add. replace (- e + e) with 0 by lia.
    rewrite bpow_0. lra.
Qed.

Section Comparisons.

(** A positive double has 53 digits unless its exponent is the least. *)
Lemma finite_mantissa_bounds f s m e :
  Prim2SF f = S754_finite s m e →
  Z.pos m < 2 ^ 53 ∧ (- 1074 < e → 2 ^ 52 ≤ Z.pos m).
Proof.
  intros Hf. destruct (valid_finite f s m e Hf) as [Hc _].
  rewrite fexp_eq in Hc. split.
  - pose proof (digits2_pos_gt m) as Hm.
    eapply Z.lt_le_trans; [exact Hm|]. apply Z.pow_le_mono_r; lia.
  - intros He. pose proof (digits2_pos_ge m) as Hm.
    replace (Z.pos (digits2_pos m)) with 53 in Hm by lia. exact Hm.
Qed.

Lemma not_ltb_255 (v : float) :
  nonneg v → PrimFloat.ltb v 255 = false → (255 <= F2R v)%R.
Proof.
  unfold nonneg, F2R. rewrite ltb_spec.
  change (Prim2SF 255) with (S754_finite false 8972014882652160 (-45)).
  destruct (Prim2SF v) as [s|s| |[|] m e] eqn:Hv; try done.
  intros _ Hlt. rewrite SF2R_finite_pos.
  destruct (finite_mantissa_bounds v _ _ _ Hv) as [Hhi Hlo].
  unfold SFltb, SFcompare in Hlt.
  destruct (Z.compare_spec e (-45)) as [->|He|He]; [|done|].
  - assert (Z.pos 8972014882652160 ≤ Z.pos m) as Hm.
    { destruct (Pos.compare_cont Eq m 8972014882652160%positive) eqn:E;
        try discriminate Hlt.
      - apply (Pos.compare_eq m) in E. rewrite E. done.
      - apply (proj1 (Pos.compare_gt_iff m _)) in E. clear -E. lia. }
    apply IZR_le in Hm.
    assert (bpow (-45) * 35184372088832 = 1)%R as Hinv.
    { change 35184372088832%R with (IZR (2 ^ 45)).
      rewrite <- bpow_IZR, <- bpow_add by lia. done. }
    pose proof (bpow_pos (-45)). nra.
  - specialize (Hlo ltac:(lia)). apply IZR_le in Hlo.
    rewrite <- bpow_IZR in Hlo by lia.
    pose proof (bpow_le (-44) e ltac:(lia)) as Hbe.
    assert (bpow 52 * bpow (-44) = 256)%R as H256.
    { rewrite <- bpow_add. by rewrite (bpow_IZR (52 + -44)) by lia. }
    pose proof (bpow_pos 52). pose proof (bpow_pos (-44)). nra.
Qed.

Lemma not_ltb_0 (v : float) :
  nonneg v → PrimFloat.ltb 0 v = false → F2R v = 0%R.
Proof.
  unfold nonneg, F2R. rewrite ltb_spec.
  change (Prim2SF 0) with (S754_zero false).
  by destruct (Prim2SF v) as [s|s| |[|] m e].
Qed.

(** The value of a positive double lies between the integer it truncates
    to and the next one. *)
Lemma truncate_real (v : float) m e :
  Prim2SF v = S754_finite false m e →
  ∃ t, Binary64.truncate v = Some t ∧ 0 ≤ t ∧
       (IZR t <= F2R v < IZR t + 1)%R.
Proof.
  intros Hv. destruct (truncate_toward_zero v false m e Hv) as (t & Ht & Hs & Hb).
  simpl in Hs. exists t. split; [done|]. split; [lia|].
  rewrite Z.abs_eq in Hb by lia. unfold F2R. rewrite Hv, SF2R_finite_pos.
  destruct (Z.le_gt_cases 0 e) as [He|He].
  - rewrite (Z.max_r 0 e), (Z.max_l 0 (- e)) in Hb by lia.
    change (2 ^ 0) with 1 in Hb. rewrite bpow_IZR, <- mult_IZR by done.
    rewrite <- plus_IZR. split; [apply IZR_le|apply IZR_lt]; lia.
  - rewrite (Z.max_l 0 e), (Z.max_r 0 (- e)) in Hb by lia.
    change (2 ^ 0) with 1 in Hb. destruct Hb as [Hb1 Hb2].
    apply IZR_le in Hb1. apply IZR_lt in Hb2.
    rewrite !mult_IZR, <- !bpow_IZR, ?plus_IZR in Hb1, Hb2 by lia.
    assert (bpow (- e) * bpow e = 1)%R as Hinv.
    { rewrite <- bpow_add. by replace (- e + e) with 0 by lia. }
    pose proof (bpow_pos e) as Hbe. rewrite plus_IZR in Hb2.
    apply (Rmult_le_compat_r (bpow e)) in Hb1; [|lra].
    apply (Rmult_lt_compat_r (bpow e)) in Hb2; [|lra].
    rewrite !Rmult_assoc, Hinv in Hb1, Hb2. lra.
Qed.

Context (libm_exp : float → float).
Local Abbreviation D := (binary64 libm_exp).

(** The channel stored for a non-negative accumulator: 255 from 255.0 on,
    the integer part below. *)
Lemma stored_channel_real (v : float) :
  nonneg v →
  0 ≤ stored_channel D v ≤ 255 ∧
  (IZR (stored_channel D v) <= F2R v)%R ∧
  ((F2R v < 256)%R → (F2R v < IZR (stored_channel D v) + 1)%R).
Proof.
  intros Hv. split; [apply (stored_channel_range D)|].
  unfold stored_channel. rewrite clamp_binary64.
  destruct (PrimFloat.ltb v 255) eqn:H255.
  - destruct (PrimFloat.ltb 0 v) eqn:H0.
    + destruct (truncate_below_255 v H0 H255) as (t & Ht & Hr).
      simpl. unfold Binary64.to_uint8. rewrite Ht. simpl.
      rewrite (proj2 (Z.leb_le 0 t)), (proj2 (Z.leb_le t 255)) by lia. simpl.
      unfold nonneg in Hv. rewrite ltb_spec in H0.
      change (Prim2SF 0) with (S754_zero false) in H0.
      destruct (Prim2SF v) as [s|s| |[|] m e] eqn:Hpv; try done.
      destruct (truncate_real v m e Hpv) as (t' & Ht' & _ & Hb).
      rewrite Ht in Ht'. injection Ht' as <-. lra.
    + rewrite (not_ltb_0 v Hv H0). change (default 0 (to_uint8 D 0%float)) with 0.
      simpl. lra.
  - pose proof (not_ltb_255 v Hv H255).
    change (default 0 (to_uint8 D 255%float)) with 255. lra.
Qed.

End Comparisons.

(** *** Sums of lists *)

Lemma Rabs_bounds (a b : R) : (Rabs a <= b)%R → (- b <= a <= b)%R.
Proof. unfold Rabs. destruct (Rcase_abs a); lra. Qed.

Lemma Rsum_cons x l : Rsum (x :: l) = (x + Rsum l)%R.
Proof. reflexivity. Qed.

Lemma Rsum_app l1 l2 : Rsum (l1 ++ l2) = (Rsum l1 + Rsum l2)%R.
Proof.
  induction l1 as [|x l1 IH]; [simpl; lra|].
  rewrite <- app_comm_cons, !Rsum_cons, IH. lra.
Qed.

Lemma Rsum_nonneg l : Forall (λ x, 0 <= x)%R l → (0 <= Rsum l)%R.
Proof.
  induction 1 as [|x l Hx _ IH]; [simpl; lra|]. rewrite Rsum_cons. lra.
Qed.

Lemma Rsum_fmap_le {A} (f g : A → R) (l : list A) :
  (∀ a, a ∈ l → (f a <= g a)%R) → (Rsum (f <$> l) <= Rsum (g <$> l))%R.
Proof.
  induction l as [|a l IH]; intros H; [simpl; lra|].
  rewrite !fmap_cons, !Rsum_cons.
  pose proof (H a ltac:(by left)). 
  assert (Rsum (f <$> l) <= Rsum (g <$> l))%R; [|lra].
  apply IH. intros. apply H. by right.
Qed.

Lemma Rsum_fmap_ext {A} (f g : A → R) (l : list A) :
  (∀ a, a ∈ l → f a = g a) → Rsum (f <$> l) = Rsum (g <$> l).
Proof.
  intros H. apply Rle_antisym; apply Rsum_fmap_le; intros a Ha;
    rewrite (H a Ha); lra.
Qed.

Lemma Rsum_fmap_scale {A} (c : R) (f : A → R) (l : list A) :
  Rsum ((λ a, c * f a)%R <$> l) = (c * Rsum (f <$> l))%R.
Proof.
  induction l as [|a l IH]; [simpl; lra|].
  rewrite !fmap_cons, !Rsum_cons, IH. lra.
Qed.

Lemma Rsum_fmap_scale_r {A} (c : R) (f : A → R) (l : list A) :
  Rsum ((λ a, f a * c)%R <$> l) = (Rsum (f <$> l) * c)%R.
Proof.
  induction l as [|a l IH]; [simpl; lra|].
  rewrite !fmap_cons, !Rsum_cons, IH. lra.
Qed.

Lemma Rsum_fmap_add {A} (f g : A → R) (l : list A) :
  Rsum ((λ a, f a + g a)%R <$> l) = (Rsum (f <$> l) + Rsum (g <$> l))%R.
Proof.
  induction l as [|a l IH]; [simpl; lra|].
  rewrite !fmap_cons, !Rsum_cons, IH. lra.
Qed.

Lemma Rsum_fmap_const {A} (c : R) (l : list A) :
  Rsum ((λ _, c) <$> l) = (INR (length l) * c)%R.
Proof.
  induction l as [|a l IH]; [simpl; lra|].
  rewrite fmap_cons, Rsum_cons, IH. cbn [length]. rewrite S_INR. lra.
Qed.

Lemma Rsum_fmap_abs {A} (f : A → R) (b : R) (l : list A) :
  (∀ a, a ∈ l → (Rabs (f a) <= b)%R) →
  (Rabs (Rsum (f <$> l)) <= INR (length l) * b)%R.
Proof.
  induction l as [|a l IH]; intros H.
  - simpl. rewrite Rabs_R0. lra.
  - rewrite fmap_cons, Rsum_cons. cbn [length]. rewrite S_INR.
    eapply Rle_trans; [apply Rabs_triang|].
    pose proof (H a ltac:(by left)).
    assert (Rabs (Rsum (f <$> l)) <= INR (length l) * b)%R; [|lra].
    apply IH. intros. apply H. by right.
Qed.

(** A running sum of [n] non-negative doubles has relative error at most
    [2 n u]. *)
Lemma fsum_correct (l : list float) :
  ∀ (a : float) (T : R) (k : nat),
    nonneg a → Forall nonneg l → (0 <= T)%R →
    (Rabs (F2R a - T) <= 2 * INR k * u * T)%R →
    (2 * INR (k + length l) * u <= 1)%R →
    (2 * (T + Rsum (F2R <$> l)) < bpow 1023)%R →
    nonneg (fsum a l) ∧
    (Rabs (F2R (fsum a l) - (T + Rsum (F2R <$> l)))
     <= 2 * INR (k + length l) * u * (T + Rsum (F2R <$> l)))%R.
Proof.
  pose proof u_pos as Hu.
  induction l as [|v l IH]; intros a T k Ha Hl HT Herr Hk Hov.
  - simpl. rewrite Nat.add_0_r, Rplus_0_r. done.
  - apply Forall_cons in Hl as [Hv Hl].
    rewrite fmap_cons, Rsum_cons in Hov |- *.
    pose proof (F2R_nonneg v Hv) as Hv0. pose proof (F2R_nonneg a Ha) as Ha0.
    assert (0 <= Rsum (F2R <$> l))%R as Hrest.
    { apply Rsum_nonneg, Forall_fmap. eapply Forall_impl; [exact Hl|].
      intros w Hw. by apply F2R_nonneg. }
    pose proof (pos_INR k) as Hk0. pose proof (pos_INR (length l)) as Hn0.
    cbn [length] in Hk. rewrite plus_INR, S_INR in Hk.
    apply Rabs_bounds in Herr.
    set (g := (2 * INR k * u)%R) in *.
    assert (0 <= g)%R as Hg0 by (unfold g; nra).
    assert (g + 2 * u <= 1)%R as Hg1 by (unfold g; nra).
    assert (g + 2 * u = 2 * (INR k + 1) * u)%R as Hg2 by (unfold g; lra).
    clearbody g.
    destruct (add_correct a v Ha Hv) as [Hav Herr'].
    { nra. }
    apply Rabs_bounds in Herr'.
    cbn [fsum foldl]. fold (fsum (a + v)%float l).
    destruct (IH (a + v)%float (T + F2R v)%R (S k) Hav Hl) as [Hres Hfin].
    + lra.
    + rewrite S_INR. apply Rabs_le.
      rewrite <- Hg2.
      assert (0 <= g * F2R v)%R by nra.
      assert (F2R a + F2R v <= (1 + g) * (T + F2R v))%R as Hup by lra.
      assert ((1 - g) * (T + F2R v) <= F2R a + F2R v)%R as Hlo by lra.
      assert (u * (F2R a + F2R v) <= 2 * u * (T + F2R v))%R by nra.
      lra.
    + rewrite plus_INR, S_INR. lra.
    + lra.
    + split; [done|]. cbn [length]. rewrite plus_INR, S_INR.
      rewrite plus_INR, S_INR in Hfin.
      replace (T + (F2R v + Rsum (F2R <$> l)))%R
        with (T + F2R v + Rsum (F2R <$> l))%R by lra.
      replace (INR k + (INR (length l) + 1))%R
        with (INR k + 1 + INR (length l))%R by lra.
      exact Hfin.
Qed.

(** *** The kernel *)

Lemma u_inv : (u * 9007199254740992 = 1)%R.
Proof.
  unfold u. change 9007199254740992%R with (IZR (2 ^ 53)).
  rewrite <- bpow_IZR, <- bpow_add by lia. done.
Qed.

Lemma u_eq : u = (/ 9007199254740992)%R.
Proof. pose proof u_inv. lra. Qed.

Lemma eta_small : (eta <= u * / 9007199254740992)%R.
Proof.
  rewrite <- u_eq. unfold eta, u. rewrite <- bpow_add. apply bpow_le. lia.
Qed.

Lemma positive_finite_of_real f : nonneg f → (0 < F2R f)%R → positive_finite f.
Proof.
  unfold nonneg, positive_finite, F2R.
  destruct (Prim2SF f) as [s|s| |[|] m e]; simpl; try done; lra.
Qed.

Lemma unit_interval_real (v : float) :
  in_unit_interval v = true → nonneg v ∧ (F2R v <= 1)%R.
Proof.
  unfold in_unit_interval, nonneg, F2R. intros [H0 H1]%andb_prop.
  rewrite leb_spec in H0, H1.
  change (Prim2SF 0) with (S754_zero false) in H0.
  change (Prim2SF 1) with (S754_finite false 4503599627370496 (-52)) in H1.
  destruct (Prim2SF v) as [s|s| |[|] m e] eqn:Hv; try done.
  - simpl. split; [done|lra].
  - by destruct s.
  - split; [done|]. rewrite SF2R_finite_pos.
    destruct (finite_mantissa_bounds v _ _ _ Hv) as [Hhi Hlo].
    unfold SFleb, SFcompare in H1.
    destruct (Z.compare_spec e (-52)) as [->|He|He]; [| |done].
    + assert (Z.pos m ≤ Z.pos 4503599627370496) as Hm.
      { destruct (Pos.compare_cont Eq m 4503599627370496%positive) eqn:E;
          try discriminate H1.
        - apply (Pos.compare_eq m) in E. rewrite E. done.
        - apply (proj1 (Pos.compare_lt_iff m _)) in E.
          by apply Pos2Z.pos_le_pos, Pos.lt_le_incl. }
      apply IZR_le in Hm.
      assert (bpow (-52) * 4503599627370496 = 1)%R as Hinv.
      { change 4503599627370496%R with (IZR (2 ^ 52)).
        rewrite <- bpow_IZR, <- bpow_add by lia. done. }
      pose proof (bpow_pos (-52)). nra.
    + apply IZR_lt in Hhi. rewrite <- bpow_IZR in Hhi by lia.
      pose proof (bpow_le e (-53) ltac:(lia)) as Hbe.
      assert (bpow 53 * bpow (-53) = 1)%R as H1'.
      { rewrite <- bpow_add. done. }
      pose proof (bpow_pos 53). pose proof (bpow_pos e).
      assert (0 < IZR (Z.pos m))%R by (by apply IZR_lt). nra.
Qed.

Lemma at_least_one_real (v : float) :
  nonneg v → PrimFloat.leb 1 v = true → (1 <= F2R v)%R.
Proof.
  unfold nonneg, F2R. intros Hn H1. rewrite leb_spec in H1.
  change (Prim2SF 1) with (S754_finite false 4503599627370496 (-52)) in H1.
  destruct (Prim2SF v) as [s|s| |[|] m e] eqn:Hv; try done.
  rewrite SF2R_finite_pos.
  destruct (finite_mantissa_bounds v _ _ _ Hv) as [Hhi Hlo].
  unfold SFleb, SFcompare in H1.
  destruct (Z.compare_spec (-52) e) as [<-|He|He]; [| |done].
  - assert (Z.pos 4503599627370496 ≤ Z.pos m) as Hm.
    { destruct (Pos.compare_cont Eq 4503599627370496%positive m) eqn:E;
        try discriminate H1.
      - apply (Pos.compare_eq _ m) in E. rewrite <- E. done.
      - apply (proj1 (Pos.compare_lt_iff _ m)) in E.
        by apply Pos2Z.pos_le_pos, Pos.lt_le_incl. }
    apply IZR_le in Hm.
    assert (bpow (-52) * 4503599627370496 = 1)%R as Hinv.
    { change 4503599627370496%R with (IZR (2 ^ 52)).
      rewrite <- bpow_IZR, <- bpow_add by lia. done. }
    pose proof (bpow_pos (-52)). nra.
  - specialize (Hlo ltac:(lia)). apply IZR_le in Hlo.
    rewrite <- bpow_IZR in Hlo by lia.
    pose proof (bpow_le (-52) e ltac:(lia)) as Hbe.
    assert (bpow 52 * bpow (-52) = 1)%R as H1'.
    { rewrite <- bpow_add. done. }
    pose proof (bpow_pos 52). pose proof (bpow_pos (-52)). nra.
Qed.

Lemma Rsum_ge_elem (l : list R) (i : nat) (x : R) :
  Forall (λ x, 0 <= x)%R l → l !! i = Some x → (x <= Rsum l)%R.
Proof.
  intros Hl. revert i. induction Hl as [|y l Hy Hl IH]; intros i Hi; [done|].
  rewrite Rsum_cons. pose proof (Rsum_nonneg l Hl).
  destruct i as [|i]; simpl in Hi.
  - injection Hi as ->. lra.
  - specialize (IH i Hi). lra.
Qed.

Lemma nonneg_zero : nonneg 0%float.
Proof. done. Qed.

Lemma F2R_zero : F2R 0%float = 0%R.
Proof. done. Qed.

Section Kernel_error.
Context (libm_exp : float → float).
Local Abbreviation D := (binary64 libm_exp).

Lemma running_sum_fsum (l : list float) : running_sum D l = fsum 0%float l.
Proof. done. Qed.

Lemma raw_weights_real kernelSize sigma :
  0 < kernelSize →
  ordinary_weights libm_exp kernelSize sigma = true →
  Forall (λ v, nonneg v ∧ (F2R v <= 1)%R) (raw_weights D kernelSize sigma) ∧
  (1 <= Rsum (F2R <$> raw_weights D kernelSize sigma) <= IZR kernelSize)%R.
Proof.
  intros Hk [Hall Hc]%andb_prop.
  set (raw := raw_weights D kernelSize sigma) in *.
  assert (@length float raw = Z.to_nat kernelSize) as Hlen.
  { unfold raw, raw_weights. apply length_tabulate. }
  assert (Forall (λ v, nonneg v ∧ (F2R v <= 1)%R) raw) as Hraw.
  { apply Forall_forall. intros v Hv. apply unit_interval_real.
    rewrite forallb_forall in Hall. by apply Hall, list_elem_of_In. }
  split; [done|]. split.
  - unfold weight_at in Hc.
    destruct (lookup_lt_is_Some_2 raw (Z.to_nat (kernelSize `quot` 2)))
      as [c Hlook].
    { change (Z.to_nat (kernelSize `quot` 2) < @length float raw)%nat.
      rewrite Hlen. pose proof (Z.quot_lt kernelSize 2).
      pose proof (Z.quot_pos kernelSize 2). lia. }
    rewrite Hlook in Hc. simpl in Hc.
    assert (nonneg c) as Hcn.
    { rewrite Forall_forall in Hraw. eapply Hraw, list_elem_of_lookup_2, Hlook. }
    pose proof (at_least_one_real c Hcn Hc) as Hge.
    eapply Rle_trans; [exact Hge|].
    apply (Rsum_ge_elem _ (Z.to_nat (kernelSize `quot` 2))).
    + apply Forall_fmap. eapply Forall_impl; [exact Hraw|].
      intros v [Hv _]. by apply F2R_nonneg.
    + rewrite list_lookup_fmap. exact (f_equal (fmap F2R) Hlook).
  - eapply Rle_trans.
    + apply (Rsum_fmap_le F2R (λ _, 1%R)). intros v Hv.
      rewrite Forall_forall in Hraw. by apply Hraw.
    + rewrite Rsum_fmap_const, Hlen, INR_IZR_INZ, Z2Nat.id by lia. lra.
Qed.

End Kernel_error.

Lemma bpow_m50 : bpow (-50) = (8 * u)%R.
Proof.
  unfold u. change (-50) with (3 + -53). rewrite bpow_add.
  by rewrite (bpow_IZR 3) by lia.
Qed.

Lemma bpow_m49 : bpow (-49) = (16 * u)%R.
Proof.
  unfold u. change (-49) with (4 + -53). rewrite bpow_add.
  by rewrite (bpow_IZR 4) by lia.
Qed.

Lemma bpow_1023_large : (4294967296 < bpow 1023)%R.
Proof.
  change 4294967296%R with (IZR (2 ^ 32)). rewrite <- bpow_IZR by lia.
  apply bpow_lt. lia.
Qed.

Lemma bpow_480_large : (4294967296 < bpow 480)%R.
Proof.
  change 4294967296%R with (IZR (2 ^ 32)). rewrite <- bpow_IZR by lia.
  apply bpow_lt. lia.
Qed.

Lemma int_size_real (n : Z) :
  0 < n ≤ INT_MAX → (1 <= IZR n <= 2147483647)%R.
Proof.
  intros [H1 H2]. split.
  - apply (IZR_le 1). lia.
  - apply IZR_le. exact H2.
Qed.

(** A running sum of at most [INT_MAX] non-negative doubles, from 0.0. *)
Lemma fsum_from_zero (l : list float) (n : Z) :
  length l = Z.to_nat n → 0 < n ≤ INT_MAX →
  Forall nonneg l → (Rsum (F2R <$> l) <= 2147483648)%R →
  nonneg (fsum 0 l) ∧
  (Rabs (F2R (fsum 0 l) - Rsum (F2R <$> l))
   <= 2 * IZR n * u * Rsum (F2R <$> l))%R.
Proof.
  intros Hlen Hn Hl Hsum. pose proof (int_size_real n Hn) as HnR.
  assert (INR (length l) = IZR n) as HINR.
  { rewrite Hlen, INR_IZR_INZ, Z2Nat.id by lia. done. }
  destruct (fsum_correct l 0%float 0%R 0%nat) as [H1 H2].
  - exact nonneg_zero.
  - exact Hl.
  - lra.
  - rewrite F2R_zero, Rminus_diag, Rabs_R0. simpl. lra.
  - rewrite Nat.add_0_l, HINR, u_eq. lra.
  - pose proof bpow_1023_large. lra.
  - split; [done|]. rewrite Nat.add_0_l, HINR, Rplus_0_l in H2. exact H2.
Qed.

Section Kernel_sum.
Context (libm_exp : float → float).
Local Abbreviation D := (binary64 libm_exp).

(** For ordinary weights and a size of at most [INT_MAX], the kernel the
    code computes has finite weights that are not negative, and their sum
    differs from 1 by at most [kernelSize * 2^-50]. *)
Lemma gaussianKernel_real kernelSize sigma :
  0 < kernelSize ≤ INT_MAX →
  ordinary_weights libm_exp kernelSize sigma = true →
  Forall nonneg (gaussianKernel D kernelSize sigma) ∧
  (Rabs (Rsum (F2R <$> gaussianKernel D kernelSize sigma) - 1)
   <= IZR kernelSize * bpow (-50))%R ∧
  (Rabs (F2R (running_sum D (gaussianKernel D kernelSize sigma)) - 1)
   <= IZR kernelSize * bpow (-49))%R.
Proof.
  intros Hk Hord. pose proof (int_size_real kernelSize Hk) as HnR.
  destruct (raw_weights_real libm_exp kernelSize sigma) as [Hraw [Hlo Hhi]];
    [lia|done|].
  rewrite (gaussianKernel_eq D), running_sum_fsum.
  set (raw := raw_weights D kernelSize sigma : list float) in *.
  assert (length raw = Z.to_nat kernelSize) as Hlen.
  { unfold raw, raw_weights. apply length_tabulate. }
  set (Σ := Rsum (F2R <$> raw)) in *.
  set (n := IZR kernelSize) in *.
  assert (Forall nonneg raw) as Hrawn.
  { eapply Forall_impl; [exact Hraw|]. by intros v [Hv _]. }
  destruct (fsum_from_zero raw kernelSize Hlen Hk Hrawn) as [Hsn Hs].
  { fold Σ. lra. }
  fold Σ n in Hs. rewrite (running_sum_fsum libm_exp).
  set (s := fsum 0 raw) in *. set (S := F2R s) in *.
  apply Rabs_bounds in Hs.
  pose proof u_eq as Hu. pose proof eta_pos as Heta0.
  pose proof eta_small as Heta.
  set (t := (2 * n * u)%R) in *.
  assert (0 <= t <= / 2097152)%R as Ht by (unfold t; rewrite Hu; lra).
  assert (t * Σ <= Σ / 2)%R as HtΣ by nra.
  assert (0 <= t * Σ)%R as HtΣ0 by nra.
  assert (0 < S)%R as HS by lra.
  assert (positive_finite s) as Hsp by (by apply positive_finite_of_real).
  set (r := (/ S)%R).
  assert (0 < r)%R as Hr by (by apply Rinv_0_lt_compat).
  assert (S * r = 1)%R as HSr by (unfold r; field; lra).
  set (q := (Σ * r)%R).
  assert (0 <= q)%R as Hq0 by (unfold q; nra).
  assert ((1 - t) * q <= 1)%R as Hq1.
  { unfold q. replace 1%R with (S * r)%R at 2 by done.
    rewrite <- Rmult_assoc. apply Rmult_le_compat_r; lra. }
  assert (1 <= (1 + t) * q)%R as Hq2.
  { unfold q. replace 1%R with (S * r)%R at 1 by done.
    rewrite <- Rmult_assoc. apply Rmult_le_compat_r; lra. }
  assert (q <= 2)%R as Hq3 by nra.
  assert (1 - t <= q <= 1 + 2 * t)%R as Hq by nra.
  (* each weight *)
  assert (∀ v, v ∈ raw →
            nonneg (v / s)%float ∧
            ((1 - u) * r * F2R v + - eta <= F2R (v / s)%float
             <= (1 + u) * r * F2R v + eta)%R) as Hw.
  { intros v Hv. rewrite Forall_forall in Hraw.
    destruct (Hraw v Hv) as [Hvn Hv1].
    pose proof (F2R_nonneg v Hvn) as Hv0.
    assert (F2R v / S <= 2)%R as Hquot.
    { unfold Rdiv. fold r. unfold q in Hq3. 
      assert (1 <= Σ)%R by lra. nra. }
    destruct (div_correct v s Hvn Hsp) as [Hdn Hd].
    { fold S. pose proof bpow_1023_large. lra. }
    split; [done|]. apply Rabs_bounds in Hd. fold S in Hd.
    unfold Rdiv in Hd. fold r in Hd. lra. }
  split.
  { apply Forall_fmap, Forall_forall. intros v Hv. by apply Hw. }
  assert (INR (length raw) = n) as HINR.
  { rewrite Hlen, INR_IZR_INZ, Z2Nat.id by lia. done. }
  set (kernel := (λ value, (value / s)%float) <$> raw).
  assert (Rabs (Rsum (F2R <$> kernel) - 1) <= n * (8 * u))%R as Hsum.
  { unfold kernel. rewrite <- list_fmap_compose.
    assert (Rsum ((λ v, F2R (v / s)%float) <$> raw) <= (1 + u) * r * Σ + n * eta)%R
      as Hup.
    { eapply Rle_trans.
      - apply (Rsum_fmap_le _ (λ v, (1 + u) * r * F2R v + eta)%R).
        intros v Hv. by apply Hw.
      - rewrite (Rsum_fmap_add (λ v, (1 + u) * r * F2R v)%R (λ _, eta)).
        rewrite Rsum_fmap_scale, Rsum_fmap_const, HINR. fold Σ. lra. }
    assert ((1 - u) * r * Σ + - (n * eta) <= Rsum ((λ v, F2R (v / s)%float) <$> raw))%R
      as Hdown.
    { eapply Rle_trans;
        [|apply (Rsum_fmap_le (λ v, (1 - u) * r * F2R v + - eta)%R);
          intros v Hv; by apply Hw].
      rewrite (Rsum_fmap_add (λ v, (1 - u) * r * F2R v)%R (λ _, (- eta)%R)).
      rewrite Rsum_fmap_scale, Rsum_fmap_const, HINR. fold Σ. lra. }
    assert (n * eta <= n * (u * / 9007199254740992))%R as Hne.
    { apply Rmult_le_compat_l; lra. }
    replace ((1 + u) * r * Σ)%R with ((1 + u) * q)%R in Hup by (unfold q; ring).
    replace ((1 - u) * r * Σ)%R with ((1 - u) * q)%R in Hdown by (unfold q; ring).
    apply Rabs_le. unfold compose. unfold t in Hq. rewrite Hu in *. lra. }
  split.
  { rewrite bpow_m50. exact Hsum. }
  apply Rabs_bounds in Hsum.
  assert (length kernel = Z.to_nat kernelSize) as Hlenk.
  { unfold kernel. by rewrite length_fmap. }
  destruct (fsum_from_zero kernel kernelSize Hlenk Hk) as [Hkn Hks].
  { apply Forall_fmap, Forall_forall. intros v Hv. by apply Hw. }
  { rewrite Hu in Hsum. lra. }
  fold n in Hks. apply Rabs_bounds in Hks. fold t in Hks.
  set (W := Rsum (F2R <$> kernel)) in *.
  assert (0 <= W <= 2)%R as HW by (rewrite Hu in Hsum; lra).
  assert (0 <= t * W <= 2 * t)%R by nra.
  rewrite bpow_m49.
  match goal with |- context [fsum 0 ?k] => change k with kernel end.
  apply Rabs_le. unfold t in *. rewrite Hu in *. lra.
Qed.

End Kernel_sum.

(** *** The accumulators of a pass *)

Lemma wf_pixel_at (img : Image) y x :
  Forall (Forall wf_pixel) img → wf_pixel (pixel_at img y x).
Proof.
  intros Hwf. unfold pixel_at.
  destruct (img !! Z.to_nat y) as [row|] eqn:Hrow; simpl.
  - destruct (row !! Z.to_nat x) as [p|] eqn:Hp; simpl.
    + rewrite Forall_lookup in Hwf. specialize (Hwf _ _ Hrow).
      rewrite Forall_lookup in Hwf. by apply (Hwf _ _ Hp).
    + repeat split; simpl; lia.
  - repeat split; simpl; lia.
Qed.

Lemma wf_is_channel channel p :
  is_channel channel → wf_pixel p → 0 ≤ channel p ≤ 255.
Proof. intros [-> | [-> | ->]] (Hr & Hg & Hb); done. Qed.

Lemma channel_quantized (D : arith) channel kernel kernelSize sample :
  is_channel channel →
  channel (quantized D (weighted_sum D kernel kernelSize sample))
  = stored_channel D (channel_sum D kernel kernelSize (λ k, channel (sample k))).
Proof. by intros [-> | [-> | ->]]. Qed.

Lemma bpow_m43 : bpow (-43) = (1024 * u)%R.
Proof.
  unfold u. change (-43) with (10 + -53). rewrite bpow_add.
  by rewrite (bpow_IZR 10) by lia.
Qed.

Section Channel_error.
Context (libm_exp : float → float).
Local Abbreviation D := (binary64 libm_exp).
Context (K : list float) (n : Z).
Context (Hn : 0 < n ≤ INT_MAX) (HK : normalised K n).

Local Abbreviation W := (λ k : Z, F2R (weight_at D K k)).
Local Abbreviation taps := (seqZ 0 n).

Lemma weights_list : (λ k, default 0%float (K !! Z.to_nat k)) <$> taps = K.
Proof.
  destruct HK as (Hlen & _). apply list_eq. intros i.
  destruct (decide (i < length K)%nat) as [Hi|Hi].
  - pose proof (lookup_tabulate n (λ k, default 0%float (K !! Z.to_nat k)) i)
      as Ht. unfold tabulate in Ht. rewrite Ht by lia. rewrite Nat2Z.id.
    destruct (lookup_lt_is_Some_2 K i Hi) as [w Hw]. by rewrite Hw.
  - rewrite (lookup_ge_None_2 K) by lia. apply lookup_ge_None_2.
    rewrite length_fmap, length_seqZ. lia.
Qed.

Lemma kernel_sum_bounds :
  (1 - / 524288 <= Rsum (F2R <$> K) <= 1 + / 524288)%R.
Proof.
  destruct HK as (_ & _ & Hs). apply Rabs_bounds in Hs.
  pose proof (int_size_real n Hn). rewrite bpow_m50, u_eq in Hs. lra.
Qed.

Lemma Rsum_weights :
  Rsum ((λ k, F2R (default 0%float (K !! Z.to_nat k))) <$> taps)
  = Rsum (F2R <$> K).
Proof.
  transitivity (Rsum (F2R <$> ((λ k, default 0%float (K !! Z.to_nat k))
                                 <$> taps))).
  - by rewrite <- list_fmap_compose.
  - by rewrite weights_list.
Qed.

Lemma weight_at_real k :
  0 ≤ k < n → nonneg (weight_at D K k) ∧ (F2R (weight_at D K k) <= 2)%R.
Proof.
  intros Hk. destruct HK as (Hlen & Hnn & _). unfold weight_at.
  destruct (lookup_lt_is_Some_2 K (Z.to_nat k)) as [w Hw]; [lia|].
  change (of_int D 0) with 0%float.
  change (K !! Z.to_nat k = Some w) in Hw. 
  assert (default 0%float (K !! Z.to_nat k) = w) as Hd by (by rewrite Hw).
  change (nonneg (default 0%float (K !! Z.to_nat k)) ∧
          (F2R (default 0%float (K !! Z.to_nat k)) <= 2)%R).
  rewrite Hd.
  assert (nonneg w) as Hwn.
  { rewrite Forall_forall in Hnn. eapply Hnn, list_elem_of_lookup_2, Hw. }
  split; [done|].
  pose proof kernel_sum_bounds as Hs.
  assert (F2R w <= Rsum (F2R <$> K))%R; [|lra].
  apply (Rsum_ge_elem _ (Z.to_nat k)).
  - apply Forall_fmap. eapply Forall_impl; [exact Hnn|].
    intros v Hv. by apply F2R_nonneg.
  - by rewrite list_lookup_fmap, Hw.
Qed.

Lemma channel_sum_fsum (channel : Z → Z) :
  channel_sum D K n channel
  = fsum 0 ((λ k, (Binary64.of_int (channel k) * weight_at D K k)%float)
              <$> taps).
Proof. unfold channel_sum, fsum. by rewrite foldl_fmap. Qed.

(** The unrounded sum lies between the least and the greatest sample, up
    to the error of the sum of the weights. *)
Lemma real_channel_sum_between (channel : Z → Z) (lo hi : Z) :
  0 ≤ lo → hi ≤ 255 →
  (∀ k, 0 ≤ k < n → lo ≤ channel k ≤ hi) →
  (IZR lo - / 2048 <= real_channel_sum K n channel <= IZR hi + / 2048)%R.
Proof.
  intros Hlo Hhi Hc. pose proof kernel_sum_bounds as Hs.
  unfold real_channel_sum.
  assert (lo ≤ hi) as Hlh.
  { specialize (Hc 0). lia. }
  assert (0 <= IZR lo)%R as Hlo' by (by apply IZR_le).
  assert (IZR hi <= 255)%R as Hhi' by (by apply IZR_le).
  assert (IZR lo <= IZR hi)%R as Hlh' by (by apply IZR_le).
  split.
  - eapply Rle_trans; [|apply (Rsum_fmap_le
      (λ k, IZR lo * F2R (default 0%float (K !! Z.to_nat k)))%R)].
    + rewrite Rsum_fmap_scale, Rsum_weights. nra.
    + intros k Hk%elem_of_seqZ.
      destruct (weight_at_real k ltac:(lia)) as [Hw _].
      apply F2R_nonneg in Hw. apply Rmult_le_compat_r; [exact Hw|].
      apply IZR_le. specialize (Hc k). lia.
  - eapply Rle_trans; [apply (Rsum_fmap_le _
      (λ k, IZR hi * F2R (default 0%float (K !! Z.to_nat k)))%R)|].
    + intros k Hk%elem_of_seqZ.
      destruct (weight_at_real k ltac:(lia)) as [Hw _].
      apply F2R_nonneg in Hw. apply Rmult_le_compat_r; [exact Hw|].
      apply IZR_le. specialize (Hc k). lia.
    + rewrite Rsum_fmap_scale, Rsum_weights. nra.
Qed.

(** The accumulator of a channel differs from the unrounded sum by at most
    [kernelSize * 2^-43]. *)
Lemma channel_sum_real (channel : Z → Z) :
  (∀ k, 0 ≤ k < n → 0 ≤ channel k ≤ 255) →
  nonneg (channel_sum D K n channel) ∧
  (Rabs (F2R (channel_sum D K n channel) - real_channel_sum K n channel)
   <= IZR n * bpow (-43))%R.
Proof.
  intros Hc. pose proof (int_size_real n Hn) as HnR.
  pose proof u_eq as Hu. pose proof eta_pos as Heta0.
  pose proof eta_small as Heta.
  destruct (real_channel_sum_between channel 0 255 ltac:(lia) ltac:(lia) Hc)
    as [HZ0 HZ1].
  rewrite channel_sum_fsum.
  set (terms := (λ k, (Binary64.of_int (channel k) * weight_at D K k)%float)
                  <$> taps).
  set (Σ := real_channel_sum K n channel) in *.
  assert (∀ k, k ∈ taps →
            nonneg (Binary64.of_int (channel k) * weight_at D K k)%float ∧
            ((1 - u) * (IZR (channel k) * W k) + - eta
             <= F2R (Binary64.of_int (channel k) * weight_at D K k)%float
             <= (1 + u) * (IZR (channel k) * W k) + eta)%R) as Hterm.
  { intros k Hk%elem_of_seqZ.
    destruct (weight_at_real k ltac:(lia)) as [Hwn Hw2].
    destruct (of_int_level (channel k)) as [Hcn Hcv]; [apply Hc; lia|].
    assert (0 <= IZR (channel k) <= 255)%R as Hcr.
    { split; apply IZR_le; apply Hc; lia. }
    pose proof bpow_480_large.
    destruct (mul_correct (Binary64.of_int (channel k)) (weight_at D K k))
      as [Hpn Hp]; [done|done|lra|lra|].
    split; [done|]. apply Rabs_bounds in Hp. rewrite Hcv in Hp. lra. }
  assert (length terms = Z.to_nat n) as Hlen.
  { unfold terms. rewrite length_fmap, length_seqZ. done. }
  assert (INR (length taps) = IZR n) as HINR.
  { rewrite length_seqZ, INR_IZR_INZ, Z2Nat.id by lia. done. }
  assert (IZR n * eta <= IZR n * (u * / 9007199254740992))%R as Hne.
  { apply Rmult_le_compat_l; lra. }
  assert (Rsum (F2R <$> terms) <= (1 + u) * Σ + IZR n * eta)%R as Hup.
  { unfold terms. rewrite <- list_fmap_compose. eapply Rle_trans.
    - apply (Rsum_fmap_le _ (λ k, (1 + u) * (IZR (channel k) * W k) + eta)%R).
      intros k Hk. by apply Hterm.
    - rewrite (Rsum_fmap_add (λ k, (1 + u) * (IZR (channel k) * W k))%R
                 (λ _, eta)).
      rewrite Rsum_fmap_scale, Rsum_fmap_const, HINR. unfold Σ, real_channel_sum.
      unfold weight_at. change (of_int D 0) with 0%float.
      change (num D) with float. lra. }
  assert ((1 - u) * Σ + - (IZR n * eta) <= Rsum (F2R <$> terms))%R as Hdown.
  { unfold terms. rewrite <- list_fmap_compose.
    eapply Rle_trans;
      [|apply (Rsum_fmap_le (λ k, (1 - u) * (IZR (channel k) * W k) + - eta)%R);
        intros k Hk; by apply Hterm].
    rewrite (Rsum_fmap_add (λ k, (1 - u) * (IZR (channel k) * W k))%R
               (λ _, (- eta)%R)).
    rewrite Rsum_fmap_scale, Rsum_fmap_const, HINR. unfold Σ, real_channel_sum.
    unfold weight_at. change (of_int D 0) with 0%float.
    change (num D) with float. lra. }
  destruct (fsum_from_zero terms n Hlen Hn) as [Hnn Herr].
  { apply Forall_fmap, Forall_forall. intros k Hk. by apply Hterm. }
  { rewrite Hu in *. lra. }
  split; [done|]. apply Rabs_bounds in Herr.
  set (P := Rsum (F2R <$> terms)) in *.
  set (t := (2 * IZR n * u)%R) in *.
  assert (0 <= t)%R as Ht0 by (unfold t; rewrite Hu; lra).
  assert (P <= 257)%R as HP by (rewrite Hu in *; lra).
  assert (t * P <= t * 257)%R as HtP by nra.
  rewrite bpow_m43. apply Rabs_le. unfold t in *. rewrite Hu in *. lra.
Qed.

(** What a pass stores is the integer part of the accumulator. *)
Lemma stored_channel_sum_real (channel : Z → Z) :
  (∀ k, 0 ≤ k < n → 0 ≤ channel k ≤ 255) →
  let stored := stored_channel D (channel_sum D K n channel) in
  0 ≤ stored ≤ 255 ∧
  (IZR stored <= real_channel_sum K n channel + IZR n * bpow (-43))%R ∧
  (real_channel_sum K n channel - IZR n * bpow (-43) < IZR stored + 1)%R.
Proof.
  intros Hc stored. pose proof (int_size_real n Hn) as HnR.
  destruct (channel_sum_real channel Hc) as [Hnn Herr].
  destruct (real_channel_sum_between channel 0 255 ltac:(lia) ltac:(lia) Hc)
    as [HZ0 HZ1].
  apply Rabs_bounds in Herr.
  destruct (stored_channel_real libm_exp _ Hnn) as (Hr & Hle & Hlt).
  fold stored in Hr, Hle, Hlt. split; [done|].
  split; [lra|]. assert (F2R (channel_sum D K n channel) < 256)%R.
  { rewrite bpow_m43, u_eq in Herr. lra. }
  specialize (Hlt ltac:(done)). lra.
Qed.

(** One pass keeps a channel between one level below the least and the
    greatest of the values its taps read. *)
Lemma stored_channel_between (channel : Z → Z) (lo hi : Z) :
  0 ≤ lo → hi ≤ 255 →
  (∀ k, 0 ≤ k < n → lo ≤ channel k ≤ hi) →
  lo - 1 ≤ stored_channel D (channel_sum D K n channel) ≤ hi.
Proof.
  intros Hlo Hhi Hc. pose proof (int_size_real n Hn) as HnR.
  destruct (stored_channel_sum_real channel) as (_ & Hup & Hdown).
  { intros k Hk. specialize (Hc k Hk). lia. }
  destruct (real_channel_sum_between channel lo hi Hlo Hhi Hc) as [HZ0 HZ1].
  rewrite bpow_m43, u_eq in Hup, Hdown.
  set (s := stored_channel D (channel_sum D K n channel)) in *.
  split.
  - assert (IZR (lo - 1) < IZR (s + 1))%R as H%lt_IZR; [|lia].
    rewrite minus_IZR, plus_IZR. lra.
  - assert (IZR s < IZR (hi + 1))%R as H%lt_IZR; [|lia].
    rewrite plus_IZR. lra.
Qed.

End Channel_error.

Section Range.
Context (libm_exp : float → float) (kernelSize : Z) (sigma : float).
Context (Hk : 0 < kernelSize ≤ INT_MAX).
Context (Hord : ordinary_weights libm_exp kernelSize sigma = true).
Local Abbreviation D := (binary64 libm_exp).
Local Abbreviation K := (gaussianKernel D kernelSize sigma).

Lemma gaussianKernel_normalised : normalised K kernelSize.
Proof.
  destruct (gaussianKernel_real libm_exp kernelSize sigma Hk Hord)
    as (Hnn & Hsum & _).
  split; [apply (length_gaussianKernel D)|]. by split.
Qed.

Context (channel : Pixel → Z) (Hchannel : is_channel channel).

(** The two passes keep a channel between two levels below the least and
    the greatest of the values of the input. *)
Lemma blurred_between imageData width height (lo hi : Z) y x :
  0 < width → 0 < height → 0 ≤ lo → hi ≤ 255 →
  (∀ y' x', 0 ≤ y' < height → 0 ≤ x' < width →
            lo ≤ channel (pixel_at imageData y' x') ≤ hi) →
  0 ≤ y < height → 0 ≤ x < width →
  lo - 2 ≤ channel (pixel_at (blurred D imageData width height kernelSize sigma)
                             y x) ≤ hi.
Proof.
  intros Hw Hh Hlo Hhi Hrange Hy Hx.
  pose proof gaussianKernel_normalised as HK.
  assert (∀ (sample : Z → Z) l h,
            0 ≤ l → h ≤ 255 →
            (∀ k, 0 ≤ k < kernelSize → l ≤ sample k ≤ h) →
            Z.max 0 (l - 1)
            ≤ stored_channel D (channel_sum D K kernelSize sample) ≤ h) as Hpass.
  { intros sample l h Hl Hh' Hs.
    pose proof (stored_channel_between libm_exp K kernelSize Hk HK sample l h
                  Hl Hh' Hs).
    pose proof (stored_channel_range D (channel_sum D K kernelSize sample)).
    lia. }
  enough (Z.max 0 (Z.max 0 (lo - 1) - 1)
          ≤ channel (pixel_at (blurred D imageData width height kernelSize sigma)
                              y x) ≤ hi) by lia.
  rewrite pixel_at_blurred by (done || lia).
  unfold vertical_pixel. rewrite channel_quantized by done.
  apply Hpass; [lia|done|]. intros k Hk'.
  unfold horizontal_image.
  rewrite pixel_at_tabulate by (done || (apply sample_coordinate_range; lia)).
  unfold horizontal_pixel. rewrite channel_quantized by done.
  apply Hpass; [done|done|]. intros k' Hk''.
  apply Hrange; apply sample_coordinate_range; lia.
Qed.

End Range.

(** *** The accumulator of the direct convolution *)

Lemma bpow_m42 : bpow (-42) = (2048 * u)%R.
Proof.
  unfold u. change (-42) with (11 + -53). rewrite bpow_add.
  by rewrite (bpow_IZR 11) by lia.
Qed.

Lemma bpow_m40 : bpow (-40) = (8192 * u)%R.
Proof.
  unfold u. change (-40) with (13 + -53). rewrite bpow_add.
  by rewrite (bpow_IZR 13) by lia.
Qed.

(** Nested loops over one accumulator are one running sum. *)
Lemma foldl_nested {A B} (t : A → B → float) (lx : list B) (ly : list A)
    (a : float) :
  foldl (λ acc ky, foldl (λ acc kx, (acc + t ky kx)%float) acc lx) a ly
  = fsum a (ly ≫= λ ky, t ky <$> lx).
Proof.
  revert a. induction ly as [|ky ly IH]; intros a; [done|].
  rewrite bind_cons. unfold fsum. rewrite foldl_app. cbn [foldl].
  rewrite IH. unfold fsum. f_equal. by rewrite foldl_fmap.
Qed.

Lemma Rsum_bind {A} (g : A → list float) (l : list A) :
  Rsum (F2R <$> (l ≫= g)) = Rsum ((λ a, Rsum (F2R <$> g a)) <$> l).
Proof.
  induction l as [|a l IH]; [done|].
  rewrite bind_cons, fmap_app, Rsum_app, IH. done.
Qed.

Lemma Forall_bind_list {A} (P : float → Prop) (g : A → list float) (l : list A) :
  (∀ a, a ∈ l → Forall P (g a)) → Forall P (l ≫= g).
Proof.
  induction l as [|a l IH]; intros H; [constructor|].
  rewrite bind_cons. apply Forall_app. split.
  - apply H. by left.
  - apply IH. intros. apply H. by right.
Qed.

Lemma length_bind_const {A} (g : A → list float) (l : list A) (m : nat) :
  (∀ a, length (g a) = m) → length (l ≫= g) = (length l * m)%nat.
Proof.
  intros H. induction l as [|a l IH]; [done|].
  rewrite bind_cons, length_app, H, IH. simpl. lia.
Qed.

Section Direct_error.
Context (libm_exp : float → float).
Local Abbreviation D := (binary64 libm_exp).
Context (K : list float) (n : Z).
Context (Hn : 0 < n) (Hnn : n * n ≤ INT_MAX) (HK : normalised K n).

Local Abbreviation W := (λ k : Z, F2R (default 0%float (K !! Z.to_nat k))).
Local Abbreviation taps := (seqZ 0 n).

Lemma size_in_int : 0 < n ≤ INT_MAX.
Proof. nia. Qed.

Lemma direct_channel_sum_fsum (channel : Z → Z → Z) :
  direct_channel_sum D K n channel
  = fsum 0 (taps ≫= λ ky,
              (λ kx, (Binary64.of_int (channel ky kx)
                      * (weight_at D K ky * weight_at D K kx))%float) <$> taps).
Proof.
  unfold direct_channel_sum.
  apply (foldl_nested (λ ky kx, (Binary64.of_int (channel ky kx)
                                 * (weight_at D K ky * weight_at D K kx))%float)).
Qed.

(** The accumulator of the direct convolution differs from the unrounded
    sum by at most [kernelSize^2 * 2^-42]. *)
Lemma direct_channel_sum_real (channel : Z → Z → Z) :
  (∀ ky kx, 0 ≤ ky < n → 0 ≤ kx < n → 0 ≤ channel ky kx ≤ 255) →
  (Rabs (F2R (direct_channel_sum D K n channel) - real_direct_sum K n channel)
   <= IZR (n * n) * bpow (-42))%R.
Proof.
  intros Hc. pose proof size_in_int as Hn'.
  pose proof (int_size_real n Hn') as HnR.
  pose proof (int_size_real (n * n) ltac:(nia)) as HNR.
  pose proof u_eq as Hu. pose proof eta_pos as Heta0.
  pose proof eta_small as Heta.
  pose proof (kernel_sum_bounds K n Hn' HK) as HW.
  rewrite direct_channel_sum_fsum.
  set (term ky kx := (Binary64.of_int (channel ky kx)
                      * (weight_at D K ky * weight_at D K kx))%float).
  set (terms := taps ≫= λ ky, term ky <$> taps).
  set (Σ := real_direct_sum K n channel).
  set (N := IZR (n * n)) in *.
  (* one term *)
  assert (∀ ky kx, ky ∈ taps → kx ∈ taps →
            nonneg (term ky kx) ∧
            ((1 - 2 * u) * (IZR (channel ky kx) * W kx * W ky) + - (256 * eta)
             <= F2R (term ky kx)
             <= (1 + 3 * u) * (IZR (channel ky kx) * W kx * W ky) + 257 * eta)%R)
    as Hterm.
  { intros ky kx Hky%elem_of_seqZ Hkx%elem_of_seqZ.
    destruct (weight_at_real libm_exp K n Hn' HK ky ltac:(lia)) as [Hyn Hy2].
    destruct (weight_at_real libm_exp K n Hn' HK kx ltac:(lia)) as [Hxn Hx2].
    pose proof (F2R_nonneg _ Hyn) as Hy0. pose proof (F2R_nonneg _ Hxn) as Hx0.
    destruct (of_int_level (channel ky kx)) as [Hcn Hcv]; [apply Hc; lia|].
    assert (0 <= IZR (channel ky kx) <= 255)%R as Hcr.
    { split; apply IZR_le; apply Hc; lia. }
    pose proof bpow_480_large.
    destruct (mul_correct (weight_at D K ky) (weight_at D K kx))
      as [Hmn Hm]; [done|done|lra|lra|].
    apply Rabs_bounds in Hm.
    set (wy := F2R (weight_at D K ky)) in *.
    set (wx := F2R (weight_at D K kx)) in *.
    set (M := F2R (weight_at D K ky * weight_at D K kx)%float) in *.
    assert (0 <= wy * wx <= 4)%R as HQ by nra.
    set (Q := (wy * wx)%R) in *.
    destruct (mul_correct (Binary64.of_int (channel ky kx))
                          (weight_at D K ky * weight_at D K kx)%float)
      as [Hpn Hp]; [done|done|lra|fold M; rewrite Hu in *; lra|].
    split; [done|]. apply Rabs_bounds in Hp. rewrite Hcv in Hp. fold M in Hp.
    unfold term. 
    set (P := F2R (Binary64.of_int (channel ky kx)
                   * (weight_at D K ky * weight_at D K kx))%float) in *.
    set (c := IZR (channel ky kx)) in *.
    replace (c * F2R (default 0%float (K !! Z.to_nat kx))
               * F2R (default 0%float (K !! Z.to_nat ky)))%R with (c * Q)%R.
    2:{ unfold Q, wy, wx, weight_at. change (of_int D 0) with 0%float.
        change (num D) with float. ring. }
    assert (0 <= M)%R as HM0 by (unfold M; by apply F2R_nonneg).
    assert (c * M <= c * ((1 + u) * Q + eta))%R as H1.
    { apply Rmult_le_compat_l; lra. }
    assert (c * ((1 - u) * Q - eta) <= c * M)%R as H2.
    { apply Rmult_le_compat_l; lra. }
    assert (c * eta <= 255 * eta)%R as H3.
    { apply Rmult_le_compat_r; lra. }
    assert (0 <= c * eta)%R as H3' by nra.
    assert (0 <= c * Q)%R as H4 by nra.
    assert (0 <= c * M)%R as H5 by nra.
    assert (u * (c * M) <= u * (c * ((1 + u) * Q + eta)))%R as H6.
    { apply Rmult_le_compat_l; lra. }
    set (cQ := (c * Q)%R) in *. set (cM := (c * M)%R) in *.
    set (ce := (c * eta)%R) in *.
    replace (c * ((1 + u) * Q + eta))%R with ((1 + u) * cQ + ce)%R in H1, H6
      by (unfold cQ, ce; ring).
    replace (c * ((1 - u) * Q - eta))%R with ((1 - u) * cQ - ce)%R in H2
      by (unfold cQ, ce; ring).
    assert (u * ((1 + u) * cQ + ce) <= 2 * u * cQ + eta)%R as H7.
    { rewrite Hu in *. 
      assert (/ 9007199254740992 * ce <= ce)%R by lra.
      assert (/ 9007199254740992 * (/ 9007199254740992 * cQ) <= / 9007199254740992 * cQ)%R by lra.
      lra. }
    rewrite Hu in *. split; lra. }
  assert (length terms = Z.to_nat (n * n)) as Hlen.
  { unfold terms. rewrite (length_bind_const _ _ (Z.to_nat n)).
    - rewrite length_seqZ. lia.
    - intros ky. by rewrite length_fmap, length_seqZ. }
  assert (INR (length taps) = IZR n) as HINR.
  { rewrite length_seqZ, INR_IZR_INZ, Z2Nat.id by lia. done. }
  assert (N = IZR n * IZR n)%R as HN by (unfold N; apply mult_IZR).
  assert (Σ <= 256)%R as HΣ.
  { unfold Σ, real_direct_sum. eapply Rle_trans.
    - apply (Rsum_fmap_le _ (λ ky, (255 + / 2048) * W ky)%R). intros ky Hky%elem_of_seqZ.
      destruct (weight_at_real libm_exp K n Hn' HK ky ltac:(lia)) as [Hyn _].
      apply F2R_nonneg in Hyn. apply Rmult_le_compat_r; [exact Hyn|].
      destruct (real_channel_sum_between libm_exp K n Hn' HK (channel ky) 0 255)
        as [_ Hup]; [lia|lia| |lra].
      intros kx Hkx. apply Hc; lia.
    - rewrite Rsum_fmap_scale, (Rsum_weights K n Hn' HK). lra. }
  (* the sum of the terms of one row, then of all rows *)
  assert (∀ ky, ky ∈ taps →
            ((1 - 2 * u) * (real_channel_sum K n (channel ky) * W ky)
             + - (IZR n * (256 * eta))
             <= Rsum (F2R <$> (term ky <$> taps))
             <= (1 + 3 * u) * (real_channel_sum K n (channel ky) * W ky)
                + IZR n * (257 * eta))%R) as Hrow.
  { intros ky Hky. rewrite <- list_fmap_compose. unfold real_channel_sum.
    rewrite <- (Rsum_fmap_scale_r (W ky)). split.
    - eapply Rle_trans; [|apply (Rsum_fmap_le
        (λ kx, (1 - 2 * u) * (IZR (channel ky kx) * W kx * W ky)
               + - (256 * eta))%R)].
      + rewrite (Rsum_fmap_add
                   (λ kx, (1 - 2 * u) * (IZR (channel ky kx) * W kx * W ky))%R
                   (λ _, (- (256 * eta))%R)).
        rewrite Rsum_fmap_scale, Rsum_fmap_const, HINR. lra.
      + intros kx Hkx. by apply Hterm.
    - eapply Rle_trans; [apply (Rsum_fmap_le _
        (λ kx, (1 + 3 * u) * (IZR (channel ky kx) * W kx * W ky)
               + 257 * eta)%R)|].
      + intros kx Hkx. by apply Hterm.
      + rewrite (Rsum_fmap_add
                   (λ kx, (1 + 3 * u) * (IZR (channel ky kx) * W kx * W ky))%R
                   (λ _, (257 * eta)%R)).
        rewrite Rsum_fmap_scale, Rsum_fmap_const, HINR. lra. }
  assert ((1 - 2 * u) * Σ + - (N * (256 * eta)) <= Rsum (F2R <$> terms)
          <= (1 + 3 * u) * Σ + N * (257 * eta))%R as [Hdown Hup].
  { unfold terms. rewrite Rsum_bind. unfold Σ, real_direct_sum. split.
    - eapply Rle_trans; [|apply (Rsum_fmap_le
        (λ ky, (1 - 2 * u) * (real_channel_sum K n (channel ky) * W ky)
               + - (IZR n * (256 * eta)))%R)].
      + rewrite (Rsum_fmap_add
                   (λ ky, (1 - 2 * u) * (real_channel_sum K n (channel ky) * W ky))%R
                   (λ _, (- (IZR n * (256 * eta)))%R)).
        rewrite Rsum_fmap_scale, Rsum_fmap_const, HINR, HN. lra.
      + intros ky Hky. by apply Hrow.
    - eapply Rle_trans; [apply (Rsum_fmap_le _
        (λ ky, (1 + 3 * u) * (real_channel_sum K n (channel ky) * W ky)
               + IZR n * (257 * eta))%R)|].
      + intros ky Hky. by apply Hrow.
      + rewrite (Rsum_fmap_add
                   (λ ky, (1 + 3 * u) * (real_channel_sum K n (channel ky) * W ky))%R
                   (λ _, (IZR n * (257 * eta))%R)).
        rewrite Rsum_fmap_scale, Rsum_fmap_const, HINR, HN. lra. }
  assert (N * eta <= N * (u * / 9007199254740992))%R as Hne.
  { apply Rmult_le_compat_l; lra. }
  destruct (fsum_from_zero terms (n * n) Hlen ltac:(nia)) as [Hnneg Herr].
  { unfold terms. apply Forall_bind_list. intros ky Hky.
    apply Forall_fmap, Forall_forall. intros kx Hkx. by apply Hterm. }
  { fold N in HNR. rewrite Hu in *. lra. }
  fold N in Herr, HNR. apply Rabs_bounds in Herr.
  set (P := Rsum (F2R <$> terms)) in *.
  set (t := (2 * N * u)%R) in *.
  assert (0 <= t)%R as Ht0 by (unfold t; rewrite Hu; lra).
  assert (P <= 257)%R as HP by (rewrite Hu in *; lra).
  assert (t * P <= t * 257)%R as HtP by nra.
  rewrite bpow_m42.
  match goal with |- context [fsum 0 ?l] => change l with terms end.
  apply Rabs_le. unfold t in *. rewrite Hu in *. lra.
Qed.

End Direct_error.

Section Two_pass_vs_direct.
Context (libm_exp : float → float) (kernelSize : Z) (sigma : float).
Context (Hk : 0 < kernelSize) (Hkk : kernelSize * kernelSize ≤ INT_MAX).
Context (Hord : ordinary_weights libm_exp kernelSize sigma = true).
Local Abbreviation D := (binary64 libm_exp).
Local Abbreviation K := (gaussianKernel D kernelSize sigma).
Local Abbreviation taps := (seqZ 0 kernelSize).
Local Abbreviation W := (λ k : Z, F2R (default 0%float (K !! Z.to_nat k))).

Context (imageData : Image) (width height : Z).
Context (Hwf : Forall (Forall wf_pixel) imageData).
Context (Hw : 0 < width) (Hh : 0 < height).
Context (channel : Pixel → Z) (Hchannel : is_channel channel).

(** Each channel the two passes store exceeds the accumulator of the direct
    convolution by at most the rounding errors of the sums, and lies less
    than two levels, and these errors, below it. *)
Lemma two_pass_near_direct y x :
  0 ≤ y < height → 0 ≤ x < width →
  let stored := IZR (channel (pixel_at (blurred D imageData width height
                                                kernelSize sigma) y x)) in
  let direct := F2R (direct_2d_convolution D K kernelSize imageData
                                           width height y x channel) in
  (stored <= direct + IZR (kernelSize * kernelSize) * bpow (-40) ∧
   direct < stored + 2 + IZR (kernelSize * kernelSize) * bpow (-40))%R.
Proof.
  intros Hy Hx stored direct.
  pose proof (size_in_int kernelSize Hk Hkk) as Hk'.
  pose proof (gaussianKernel_normalised libm_exp kernelSize sigma Hk' Hord) as HK.
  set (center := kernelSize `quot` 2).
  set (row ky kx := channel (pixel_at imageData
                               (sample_coordinate height y ky center)
                               (sample_coordinate width x kx center))).
  assert (∀ ky kx, 0 ≤ row ky kx ≤ 255) as Hrow_wf.
  { intros ky kx. by apply wf_is_channel, wf_pixel_at. }
  set (row_stored ky := stored_channel D (channel_sum D K kernelSize (row ky))).
  pose proof (λ ky, stored_channel_sum_real libm_exp K kernelSize Hk' HK (row ky)
                      (λ kx _, Hrow_wf ky kx)) as Hrow.
  cbv zeta in Hrow. fold (row_stored) in Hrow.
  assert (stored = IZR (stored_channel D
                          (channel_sum D K kernelSize row_stored))) as Hstored.
  { unfold stored. f_equal. rewrite pixel_at_blurred by done.
    unfold vertical_pixel. rewrite channel_quantized by done. f_equal.
    apply channel_sum_ext. intros ky Hky. unfold horizontal_image.
    rewrite pixel_at_tabulate by (by (done || apply sample_coordinate_range)).
    unfold horizontal_pixel. by rewrite channel_quantized. }
  pose proof (stored_channel_sum_real libm_exp K kernelSize Hk' HK row_stored
                (λ ky _, proj1 (Hrow ky))) as (_ & Hup & Hdown).
  cbv zeta in Hup, Hdown. rewrite <- Hstored in Hup, Hdown.
  pose proof (direct_channel_sum_real libm_exp K kernelSize Hk Hkk HK row
                (λ ky kx _ _, Hrow_wf ky kx)) as Hdirect.
  change (direct_channel_sum D K kernelSize row) with
    (direct_2d_convolution D K kernelSize imageData width height y x channel)
    in Hdirect.
  fold direct in Hdirect. apply Rabs_bounds in Hdirect.
  pose proof (int_size_real kernelSize Hk') as HnR.
  pose proof (int_size_real (kernelSize * kernelSize) ltac:(nia)) as HNR.
  assert (IZR (kernelSize * kernelSize) = IZR kernelSize * IZR kernelSize)%R
    as HN by apply mult_IZR.
  set (N := IZR (kernelSize * kernelSize)) in *.
  set (n := IZR kernelSize) in *.
  assert (n <= N)%R as HnN by nra.
  destruct HK as (HKlen & HKnn & HKsum). apply Rabs_bounds in HKsum.
  fold n in HKsum.
  set (ΣW := Rsum (F2R <$> K)) in *.
  set (ε := (n * bpow (-43))%R) in *.
  set (Zd := real_direct_sum K kernelSize row) in *.
  set (ZH := real_channel_sum K kernelSize row_stored) in *.
  pose proof (Rsum_weights K kernelSize Hk'
                (gaussianKernel_normalised libm_exp kernelSize sigma Hk' Hord))
    as HWsum. fold ΣW in HWsum.
  assert (∀ ky, ky ∈ taps → (0 <= W ky)%R) as HW0.
  { intros ky Hky%elem_of_seqZ.
    destruct (weight_at_real libm_exp K kernelSize Hk'
                (gaussianKernel_normalised libm_exp kernelSize sigma Hk' Hord)
                ky ltac:(lia)) as [Hn0 _].
    by apply F2R_nonneg in Hn0. }
  assert (ZH <= Zd + ε * ΣW)%R as H1.
  { unfold ZH, Zd, real_channel_sum, real_direct_sum. eapply Rle_trans.
    - apply (Rsum_fmap_le _
        (λ ky, real_channel_sum K kernelSize (row ky) * W ky + ε * W ky)%R).
      intros ky Hky. specialize (HW0 ky Hky).
      destruct (Hrow ky) as (_ & Hle & _).
      rewrite <- Rmult_plus_distr_r. apply Rmult_le_compat_r; [done|].
      exact Hle.
    - rewrite (Rsum_fmap_add
                 (λ ky, real_channel_sum K kernelSize (row ky) * W ky)%R
                 (λ ky, ε * W ky)%R).
      rewrite (Rsum_fmap_scale ε). change (num D) with float.
      rewrite HWsum. lra. }
  assert (Zd - (ε + 1) * ΣW <= ZH)%R as H2.
  { unfold ZH, Zd, real_channel_sum, real_direct_sum.
    eapply Rle_trans; [|apply (Rsum_fmap_le
      (λ ky, real_channel_sum K kernelSize (row ky) * W ky
             + (- (ε + 1)) * W ky)%R)].
    - rewrite (Rsum_fmap_add
                 (λ ky, real_channel_sum K kernelSize (row ky) * W ky)%R
                 (λ ky, (- (ε + 1)) * W ky)%R).
      rewrite (Rsum_fmap_scale (- (ε + 1))%R). change (num D) with float.
      rewrite HWsum. lra.
    - intros ky Hky. specialize (HW0 ky Hky).
      destruct (Hrow ky) as (_ & _ & Hlt).
      rewrite <- Rmult_plus_distr_r. apply Rmult_le_compat_r; [done|].
      unfold row_stored. lra. }
  pose proof u_eq as Hu.
  rewrite bpow_m50 in HKsum. rewrite bpow_m42 in Hdirect. rewrite bpow_m40.
  change (- (n * (8 * u)) <= ΣW - 1 <= n * (8 * u))%R in HKsum.
  assert (ε = n * (1024 * u))%R as Hε by (unfold ε; by rewrite bpow_m43).
  clearbody ε ΣW Zd ZH N n. clear Hrow. rewrite Hu in *. clear Hu.
  assert (0 <= ε <= / 4096)%R as Hε' by lra.
  assert (0 <= ΣW <= 2)%R as HΣW by lra.
  assert (ε * (ΣW - 1) <= 1 * (n * (8 * / 9007199254740992)))%R as H4.
  { destruct (Rle_dec 0 (ΣW - 1)) as [Hpos|Hneg].
    - apply Rmult_le_compat; lra.
    - assert (ε * (ΣW - 1) <= 0)%R; [|lra]. nra. }
  assert (ε * ΣW = ε * (ΣW - 1) + ε)%R as H5 by ring.
  split; lra.
Qed.

End Two_pass_vs_direct.

(** ** C3: the kernel is normalised *)

(** *** No weight is negative *)

Section Signs.

Lemma binary_round_aux_sign s m e l :
  SF_sign_is s (binary_round_aux prec emax s m e l).
Proof.
  unfold binary_round_aux.
  destruct (shr_fexp prec emax m e l) as [mrs' e'].
  destruct (shr_fexp prec emax _ e' loc_Exact) as [mrs'' e''].
  destruct (shr_m mrs''); simpl; try done.
  by destruct (_ <=? _).
Qed.

Lemma binary_round_sign s m e :
  SF_sign_is s (binary_round prec emax s m e).
Proof.
  unfold binary_round. destruct (shl_align _ _ _) as [mz ez].
  apply binary_round_aux_sign.
Qed.

Lemma add_sign_clear (a c : float) :
  sign_clear a → sign_clear c → sign_clear (a + c)%float.
Proof.
  unfold sign_clear. rewrite add_spec.
  destruct (Prim2SF a) as [s|s| |s m e], (Prim2SF c) as [s'|s'| |s' m' e'];
    simpl; intros; subst; try done.
  unfold SF64add, SFadd. simpl. unfold binary_normalize.
  destruct (Z.pos (fst (shl_align m e (Z.min e e')))
            + Z.pos (fst (shl_align m' e' (Z.min e e')))) eqn:E;
    try lia; try done.
  apply (binary_round_sign false).
Qed.

Lemma div_sign_clear (a c : float) :
  sign_clear a → sign_clear c → sign_clear (a / c)%float.
Proof.
  unfold sign_clear. rewrite div_spec.
  destruct (Prim2SF a) as [s|s| |s m e], (Prim2SF c) as [s'|s'| |s' m' e'];
    simpl; intros; subst; try done.
  unfold SF64div, SFdiv.
  destruct (SFdiv_core_binary prec emax (Z.pos m) e (Z.pos m') e')
    as [[mz ez] lz].
  apply (binary_round_aux_sign false).
Qed.

Lemma mul_self_sign_clear (a : float) : sign_clear (a * a)%float.
Proof.
  unfold sign_clear. rewrite mul_spec.
  destruct (Prim2SF a) as [s|s| |s m e]; simpl; try done; try by destruct s.
  pose proof (binary_round_aux_sign (xorb s s) (Z.pos (m * m)) (e + e)
                                    loc_Exact) as H.
  unfold SF64mul, SFmul. destruct s; exact H.
Qed.

Lemma sign_clear_reference (x : float) : sign_clear (exp_reference x).
Proof.
  unfold exp_reference.
  destruct (PrimFloat.eqb x x); [|done].
  destruct (PrimFloat.ltb x _); [done|].
  destruct (PrimFloat.ltb _ x); [done|].
  apply mul_self_sign_clear.
Qed.

Lemma foldl_add_sign_clear (l : list float) (a : float) :
  sign_clear a → Forall sign_clear l → sign_clear (foldl PrimFloat.add a l).
Proof.
  revert a. induction l as [|v l IH]; intros a Ha Hl; simpl; [done|].
  apply Forall_cons in Hl as [Hv Hl]. apply IH; [|done].
  by apply add_sign_clear.
Qed.

Context (libm_exp : float → float).
Context (Hexp : ∀ x, sign_clear (libm_exp x)).

(** When [exp] returns no negative value, no weight of the kernel is
    negative. *)
Lemma gaussianKernel_sign_clear kernelSize sigma (w : float) :
  w ∈ gaussianKernel (binary64 libm_exp) kernelSize sigma → sign_clear w.
Proof.
  rewrite gaussianKernel_eq. intros (v & -> & Hv)%list_elem_of_fmap.
  assert (Forall sign_clear (raw_weights (binary64 libm_exp) kernelSize sigma))
    as Hraw.
  { unfold raw_weights, tabulate. apply Forall_fmap, Forall_forall.
    intros i _. apply Hexp. }
  apply div_sign_clear.
  - rewrite Forall_forall in Hraw. by apply Hraw.
  - by apply foldl_add_sign_clear.
Qed.

End Signs.

(** *** Ordinary weights *)

(** The reference exponential gives ordinary weights at [sigma = 1.0]. *)
Lemma ordinary_weights_reference_5 :
  ordinary_weights exp_reference 5 1%float = true.
Proof. by vm_compute. Qed.

Lemma ordinary_weights_reference_3 :
  ordinary_weights exp_reference 3 1%float = true.
Proof. by vm_compute. Qed.

Section Special_weights.
Context (libm_exp : float → float) (HF : annex_F libm_exp).

Ltac special_values :=
  let H0 := fresh in let H1 := fresh in let H2 := fresh in let H3 := fresh in
  pose proof (exp_neg_zero _ HF) as H0; vm_compute in H0;
  pose proof (exp_neg_infinity _ HF) as H1; vm_compute in H1;
  pose proof (exp_nan _ HF) as H2; vm_compute in H2;
  pose proof (exp_zero _ HF) as H3; vm_compute in H3;
  vm_compute; rewrite ?H0, ?H1, ?H2, ?H3; vm_compute.

(** The box filter and the kernel [0, 1, 0] come from ordinary weights;
    the all-NaN kernel does not, and its sum is a NaN. *)
Lemma ordinary_weights_huge_sigma :
  ordinary_weights libm_exp 7 huge_sigma = true ∧
  ordinary_weights libm_exp 3 huge_sigma = true.
Proof. split; by special_values. Qed.

Lemma ordinary_weights_tiny_sigma :
  ordinary_weights libm_exp 3 tiny_sigma = true.
Proof. by special_values. Qed.

Lemma ordinary_weights_vanishing_sigma :
  ordinary_weights libm_exp 3 vanishing_sigma = false.
Proof. by special_values. Qed.

Lemma kernel_sum_vanishing_sigma :
  running_sum (binary64 libm_exp)
              (gaussianKernel (binary64 libm_exp) 3 vanishing_sigma) = nan.
Proof. rewrite (kernel_3_vanishing_sigma libm_exp HF). by vm_compute. Qed.

End Special_weights.

(** With [kernelSize = 3] and the positive [sigma = 2^-530], the quotient
    [-(x*x)/(2*sigma*sigma)] is [-1/2^-1059], which overflows to minus
    infinity, at [x = -1] and [x = 1], and [-0.0] at the centre: the kernel
    is [0, 1, 0], and two of its weights are not strictly positive. No [exp]
    that follows Annex F and no tolerance avoid it. *)
Lemma C3_counterexample :
  ¬ ∃ libm_exp tolerance,
      annex_F libm_exp ∧ kernel_normalisation_claim libm_exp tolerance.
Proof.
  intros (libm_exp & tolerance & HF & Hclaim).
  destruct (Hclaim 3 tiny_sigma) as (_ & Hpos & _); [lia|done|done|].
  rewrite (kernel_3_tiny_sigma libm_exp HF) in Hpos.
  apply Forall_cons in Hpos as [Hpos _]. by vm_compute in Hpos.
Qed.

(** C3 (amended). For every odd [kernelSize >= 3] and every [sigma] the
    generated kernel has [kernelSize] weights, weight [i] being
    [exp(-(x*x)/(2*sigma*sigma))] at the offset [x = i - kernelSize/2]
    divided by the running sum of these values; when [exp] returns no
    negative value, no weight is negative (each is [+0.0], a positive double,
    plus infinity or a NaN). When the values [exp] returns for the taps lie
    in [[0.0, 1.0]], the one of the centre being 1.0, and [kernelSize] fits
    in an [int], every weight is a finite double that is not negative (it
    can be 0), the sum of the weights differs from 1 by at most
    [kernelSize * 2^-50], and the sum [0.0 + kernel[0] + kernel[1] + ...]
    the code would compute for them in double precision, rounded at each
    step, by at most [kernelSize * 2^-49]. *)
Theorem C3_kernel_normalisation (libm_exp : float → float) (kernelSize : Z)
    (sigma : float) :
  3 ≤ kernelSize → Z.odd kernelSize = true →
  let D := binary64 libm_exp in
  let center := kernelSize `quot` 2 in
  let weight i :=
    let x := Binary64.of_int (i - center) in
    libm_exp (- (x * x) / (2 * sigma * sigma))%float in
  let sum := running_sum D (tabulate kernelSize weight) in
  let kernel := gaussianKernel D kernelSize sigma in
  length kernel = Z.to_nat kernelSize ∧
  (∀ i, 0 ≤ i < kernelSize →
        kernel !! Z.to_nat i = Some (weight i / sum)%float) ∧
  ((∀ x, sign_clear (libm_exp x)) →
   ∀ w : float, w ∈ kernel → sign_clear w) ∧
  (kernelSize ≤ INT_MAX →
   ordinary_weights libm_exp kernelSize sigma = true →
   Forall nonneg kernel ∧
   (Rabs (Rsum (F2R <$> kernel) - 1) <= IZR kernelSize * bpow (-50))%R ∧
   (Rabs (F2R (running_sum D kernel) - 1) <= IZR kernelSize * bpow (-49))%R).
Proof.
  intros Hk Hodd D center weight sum kernel.
  split; [apply length_gaussianKernel|]. split; [|split].
  - intros i Hi.
    pose proof (lookup_gaussianKernel D kernelSize sigma (Z.to_nat i)) as H.
    rewrite Z2Nat.id in H by lia. apply H. lia.
  - intros Hexp w. by apply gaussianKernel_sign_clear.
  - intros Hmax Hord. apply gaussianKernel_real; [lia|done].
Qed.

Lemma C3_witness :
  let kernel := gaussianKernel (binary64 exp_reference) 5 1%float in
  length kernel = Z.to_nat 5 ∧
  Forall nonneg kernel ∧
  (Rabs (Rsum (F2R <$> kernel) - 1) <= IZR 5 * bpow (-50))%R ∧
  (Rabs (F2R (running_sum (binary64 exp_reference) kernel) - 1)
   <= IZR 5 * bpow (-49))%R.
Proof.
  destruct (C3_kernel_normalisation exp_reference 5 1%float)
    as (Hlen & _ & _ & Hsum); [lia|reflexivity|].
  split; [exact Hlen|]. apply Hsum; [unfold INT_MAX; lia|].
  exact ordinary_weights_reference_5.
Defined.

(** The weights of the reference exponential are not negative. *)
Example kernel_reference_sign_clear (kernelSize : Z) (sigma w : float) :
  w ∈ gaussianKernel (binary64 exp_reference) kernelSize sigma → sign_clear w.
Proof. apply gaussianKernel_sign_clear, sign_clear_reference. Qed.

(** ** C5: solid-colour images *)

Lemma tabulate_const {A} n (a : A) : tabulate n (λ _, a) = replicate (Z.to_nat n) a.
Proof.
  unfold tabulate, seqZ. rewrite <- list_fmap_compose.
  generalize 0%nat. induction (Z.to_nat n) as [|m IH]; intros s; simpl; [done|].
  f_equal. apply IH.
Qed.

Lemma pixel_at_uniform p width height y x :
  0 ≤ y < height → 0 ≤ x < width →
  pixel_at (uniform_image p width height) y x = p.
Proof.
  intros. unfold uniform_image. rewrite <- !tabulate_const.
  by rewrite (pixel_at_tabulate (λ _ _, p)).
Qed.

Lemma dimensions_uniform p width height :
  0 ≤ width → 0 ≤ height → dimensions (uniform_image p width height) width height.
Proof.
  intros. unfold uniform_image. rewrite <- !tabulate_const.
  by apply (dimensions_tabulate (λ _ _, p)).
Qed.

Section Uniform.
Context (D : arith).

Lemma horizontal_image_uniform p width height kernelSize kernel :
  0 < width →
  horizontal_image D (uniform_image p width height) width height kernelSize kernel
  = uniform_image (recolor D kernel kernelSize p) width height.
Proof.
  intros Hw. unfold horizontal_image, uniform_image at 2.
  rewrite <- !tabulate_const. apply tabulate_ext. intros y Hy.
  apply tabulate_ext. intros x Hx. unfold horizontal_pixel, recolor.
  f_equal. apply weighted_sum_ext. intros k Hk.
  apply pixel_at_uniform; [done|]. by apply sample_coordinate_range.
Qed.

Lemma vertical_image_uniform p width height kernelSize kernel :
  0 < height →
  vertical_image D (uniform_image p width height) width height kernelSize kernel
  = uniform_image (recolor D kernel kernelSize p) width height.
Proof.
  intros Hh. unfold vertical_image, uniform_image at 2.
  rewrite <- !tabulate_const. apply tabulate_ext. intros y Hy.
  apply tabulate_ext. intros x Hx. unfold vertical_pixel, recolor.
  f_equal. apply weighted_sum_ext. intros k Hk.
  apply pixel_at_uniform; [|done]. by apply sample_coordinate_range.
Qed.

Lemma blurred_uniform p width height kernelSize sigma :
  0 < width → 0 < height →
  blurred D (uniform_image p width height) width height kernelSize sigma
  = uniform_image
      (recolor D (gaussianKernel D kernelSize sigma) kernelSize
         (recolor D (gaussianKernel D kernelSize sigma) kernelSize p))
      width height.
Proof.
  intros Hw Hh. unfold blurred.
  by rewrite horizontal_image_uniform, vertical_image_uniform.
Qed.

(** The accumulator of taps that all read the channel value [c]. *)
Lemma channel_sum_const (kernel : list (num D)) (c : Z) :
  channel_sum D kernel (Z.of_nat (length kernel)) (λ _, c)
  = foldl (λ acc w, (acc + of_int D c * w)%num) (of_int D 0) kernel.
Proof.
  unfold channel_sum. generalize (of_int D 0).
  induction kernel as [|w kernel IH] using rev_ind; intros a; [done|].
  rewrite length_app, Nat2Z.inj_add, seqZ_app, !foldl_app by lia.
  simpl. rewrite <- IH. f_equal.
  - apply foldl_seqZ_ext. intros acc k Hk. unfold weight_at.
    by rewrite lookup_app_l by lia.
  - unfold weight_at.
    replace (Z.to_nat (Z.of_nat 0 + (0 + Z.of_nat (length kernel))))
      with (length kernel) by lia.
    by rewrite list_lookup_middle.
Qed.
End Uniform.

(** ** Calls that do not depend on the digits of [exp] *)

Section Special_calls.
Context (libm_exp : float → float) (HF : annex_F libm_exp).
Local Abbreviation D := (binary64 libm_exp).

Ltac evaluate_call kernel_eq :=
  rewrite (applyGaussianBlur_Return D) by
    (done || lia || exact dimensions_sample_image
     || (apply dimensions_covers; (exact dimensions_sample_image
                                   || (apply dimensions_uniform; lia))));
  unfold blurred; rewrite (kernel_eq libm_exp HF); by vm_compute.

(** A 1 by 1 image of colour (2, 2, 2) under the 7-tap box filter: the
    seven products [2 * (1/7)] add up to [0x1.ffffffffffffep+0], just
    below 2, which is stored as 1; the second pass turns 1 into 0. *)
Lemma call_gray_2_box_7 :
  applyGaussianBlur D (uniform_image (gray 2) 1 1) 1 1 7 huge_sigma
  = Return [[gray 0]].
Proof. evaluate_call kernel_7_huge_sigma. Qed.

(** A black 1 by 1 image under the all-NaN kernel: every accumulator is
    NaN, [std::min(255.0, NaN)] is [255.0], and white is stored. *)
Lemma call_black_vanishing_sigma :
  applyGaussianBlur D (uniform_image (gray 0) 1 1) 1 1 3 vanishing_sigma
  = Return [[gray 255]].
Proof. evaluate_call kernel_3_vanishing_sigma. Qed.

(** [sample_image] under the 3-tap box filter. *)
Lemma call_sample_box_3 :
  applyGaussianBlur D sample_image 3 3 3 huge_sigma
  = Return [[gray 1; gray 0; gray 0];
            [gray 2; gray 0; gray 0];
            [gray 3; gray 1; gray 0]].
Proof. evaluate_call kernel_3_huge_sigma. Qed.

End Special_calls.

(** Two inputs, for every [exp] that follows Annex F. A 1 by 1 black image
    with [kernelSize = 3] and the positive [sigma = 2^-600] comes out white
    (the kernel is all NaN): no tolerance below 255 levels holds for every
    positive [sigma]. A 1 by 1 image of colour (2, 2, 2) with
    [kernelSize = 7] and [sigma = 2^600] comes out black (each pass truncates
    a sum just below an integer): a tolerance of one level does not hold
    even for [sigma >= 1]. *)
Lemma C5_counterexample :
  (¬ ∃ libm_exp tolerance,
       annex_F libm_exp ∧ tolerance < 255 ∧
       uniform_claim libm_exp tolerance (λ sigma, PrimFloat.ltb 0 sigma = true)) ∧
  (¬ ∃ libm_exp,
       annex_F libm_exp ∧
       uniform_claim libm_exp 1 (λ sigma, PrimFloat.leb 1 sigma = true)).
Proof.
  split.
  - intros (libm_exp & tolerance & HF & Htol & Hclaim).
    destruct (Hclaim (gray 0) 1 1 3 vanishing_sigma) as (result & Hcall & Hpix);
      [lia|done|lia|lia|by repeat split|done|].
    rewrite (call_black_vanishing_sigma libm_exp HF) in Hcall.
    injection Hcall as <-.
    destruct (Hpix 0 0) as (Hr & _); [lia|lia|]. simpl in Hr. lia.
  - intros (libm_exp & HF & Hclaim).
    destruct (Hclaim (gray 2) 1 1 7 huge_sigma) as (result & Hcall & Hpix);
      [lia|done|lia|lia|by repeat split|done|].
    rewrite (call_gray_2_box_7 libm_exp HF) in Hcall.
    injection Hcall as <-.
    destruct (Hpix 0 0) as (Hr & _); [lia|lia|]. simpl in Hr. lia.
Qed.

(** C5 (amended). For every valid input whose pixels all have the colour
    [p] and every [sigma], the call returns an image whose pixels all have
    one colour [q]. When the values [exp] returns for the taps lie in
    [[0.0, 1.0]], the one of the centre being 1.0, and [kernelSize] fits in
    an [int], each channel of [q] is the channel of [p] or lies one or two
    levels below it: each of the two passes truncates a sum that rounding
    can leave just below the channel. *)
Theorem C5_uniform_image (libm_exp : float → float) (p : Pixel)
    (width height kernelSize : Z) (sigma : float) :
  3 ≤ kernelSize → Z.odd kernelSize = true → 0 < width → 0 < height →
  wf_pixel p →
  ∃ q,
    applyGaussianBlur (binary64 libm_exp) (uniform_image p width height)
                      width height kernelSize sigma
    = Return (uniform_image q width height) ∧
    wf_pixel q ∧
    (kernelSize ≤ INT_MAX →
     ordinary_weights libm_exp kernelSize sigma = true →
     r p - 2 ≤ r q ≤ r p ∧ g p - 2 ≤ g q ≤ g p ∧ b p - 2 ≤ b q ≤ b p).
Proof.
  intros Hk Hodd Hw Hh (Hr & Hg & Hb).
  set (D := binary64 libm_exp).
  set (K := gaussianKernel D kernelSize sigma).
  exists (recolor D K kernelSize (recolor D K kernelSize p)).
  split; [|split].
  - rewrite (applyGaussianBlur_Return D);
      [|done..|apply dimensions_covers, dimensions_uniform; lia].
    by rewrite blurred_uniform.
  - unfold recolor, weighted_sum, quantized, wf_pixel, wf_channel. simpl.
    repeat split; apply (stored_channel_range D).
  - intros Hmax Hord.
    pose proof (gaussianKernel_normalised libm_exp kernelSize sigma
                  ltac:(lia) Hord) as HK.
    fold D in HK. fold K in HK.
    assert (∀ c, 0 ≤ c ≤ 255 →
              c - 2
              ≤ stored_channel D (channel_sum D K kernelSize (λ _,
                  stored_channel D (channel_sum D K kernelSize (λ _, c))))
              ≤ c) as Htwo.
    { intros c Hc.
      pose proof (stored_channel_between libm_exp K kernelSize ltac:(lia) HK
                    (λ _, c) c c ltac:(lia) ltac:(lia)
                    ltac:(intros; cbv beta; lia)) as H1.
      pose proof (stored_channel_range D (channel_sum D K kernelSize (λ _, c)))
        as H0.
      fold D in H1.
      set (c1 := stored_channel D (channel_sum D K kernelSize (λ _, c))) in *.
      pose proof (stored_channel_between libm_exp K kernelSize ltac:(lia) HK
                    (λ _, c1) c1 c1 ltac:(lia) ltac:(lia)
                    ltac:(intros; cbv beta; lia)) as H2.
      fold D in H2. lia. }
    unfold recolor, weighted_sum, quantized. simpl.
    split; [|split]; by apply Htwo.
Qed.

Lemma C5_witness :
  ∃ q,
    applyGaussianBlur (binary64 exp_reference) (uniform_image orange 4 3)
                      4 3 5 1%float
    = Return (uniform_image q 4 3) ∧
    wf_pixel q ∧
    r orange - 2 ≤ r q ≤ r orange ∧ g orange - 2 ≤ g q ≤ g orange ∧
    b orange - 2 ≤ b q ≤ b orange.
Proof.
  destruct (C5_uniform_image exp_reference orange 4 3 5 1%float)
    as (q & Hcall & Hwf & Hnear); [lia|reflexivity|lia|lia| |].
  - unfold wf_pixel, wf_channel, orange. simpl. lia.
  - exists q. split; [exact Hcall|]. split; [exact Hwf|].
    apply Hnear; [unfold INT_MAX; lia|exact ordinary_weights_reference_5].
Defined.

(** ** C1: the two passes and the direct 2D convolution *)

Lemma wf_sample_image : Forall (Forall wf_pixel) sample_image.
Proof. repeat constructor; simpl; lia. Qed.

(** [sample_image] with [kernelSize = 3] and [sigma = 2^600] (the kernel is
    [1/3, 1/3, 1/3]). At the centre pixel the horizontal pass stores
    [2/3 -> 0], [2/3 -> 0] and [8/3 -> 2] in the three rows and the vertical
    pass [2/3 -> 0], while the direct convolution accumulates [12/9]: the
    stored 0 is more than a whole level away from [0x1.5555555555555p+0].
    No [exp] that follows Annex F avoids it. *)
Lemma C1_counterexample :
  ¬ ∃ libm_exp, annex_F libm_exp ∧ separability_claim libm_exp.
Proof.
  intros (libm_exp & HF & Hclaim).
  destruct (Hclaim sample_image 3 3 3 huge_sigma) as (result & Hcall & Hpix);
    [lia|done|lia|lia|exact dimensions_sample_image|exact wf_sample_image|done|].
  rewrite (call_sample_box_3 libm_exp HF) in Hcall. injection Hcall as <-.
  specialize (Hpix 1 1 ltac:(lia) ltac:(lia)).
  apply Forall_cons in Hpix as [Hr _].
  rewrite (kernel_3_huge_sigma libm_exp HF) in Hr. by vm_compute in Hr.
Qed.

(** The centre pixel of that call and the accumulator of the direct
    convolution there. *)
Example direct_sample_box_3 (libm_exp : float → float) :
  direct_2d_convolution (binary64 libm_exp) [third; third; third] 3
                        sample_image 3 3 1 1 r
  = 0x1.5555555555555p+0%float.
Proof. by vm_compute. Qed.

(** C1 (amended). For every valid input and every [sigma] the two passes
    return, pixel by pixel, the clamped and truncated vertical weighted sum
    of the clamped and truncated horizontal weighted sums. When the values
    [exp] returns for the taps lie in [[0.0, 1.0]], the one of the centre
    being 1.0, and [kernelSize * kernelSize] fits in an [int], each channel
    the passes store and the double [direct] that the direct 2D convolution
    with the outer product of the kernel accumulates for it satisfy
    [stored <= direct + t] and [direct < stored + 2 + t], where
    [t = kernelSize^2 * 2^-40] covers the rounding errors of the sums: the
    stored channel lies up to two levels below the direct accumulator, the
    levels the two truncations lose, and not above it. *)
Theorem C1_two_pass_vs_direct (libm_exp : float → float)
    (imageData : Image) (width height kernelSize : Z) (sigma : float) :
  3 ≤ kernelSize → Z.odd kernelSize = true → 0 < width → 0 < height →
  dimensions imageData width height →
  Forall (Forall wf_pixel) imageData →
  let D := binary64 libm_exp in
  let center := kernelSize `quot` 2 in
  let kernel := gaussianKernel D kernelSize sigma in
  ∃ result,
    applyGaussianBlur D imageData width height kernelSize sigma = Return result ∧
    ∀ y x, 0 ≤ y < height → 0 ≤ x < width →
      pixel_at result y x
      = quantized D (weighted_sum D kernel kernelSize (λ ky,
          quantized D (weighted_sum D kernel kernelSize (λ kx,
            pixel_at imageData (sample_coordinate height y ky center)
                               (sample_coordinate width x kx center))))) ∧
      (kernelSize * kernelSize ≤ INT_MAX →
       ordinary_weights libm_exp kernelSize sigma = true →
       Forall (λ channel : Pixel → Z,
                 let stored := IZR (channel (pixel_at result y x)) in
                 let direct := F2R (direct_2d_convolution D kernel kernelSize
                                      imageData width height y x channel) in
                 let tolerance :=
                   (IZR (kernelSize * kernelSize) * bpow (-40))%R in
                 (stored <= direct + tolerance ∧
                  direct < stored + 2 + tolerance)%R)
              [r; g; b]).
Proof.
  intros Hk Hodd Hw Hh Hdim Hwf D center kernel.
  pose proof (dimensions_covers _ _ _ Hdim) as Hc.
  exists (blurred D imageData width height kernelSize sigma).
  split; [by apply (applyGaussianBlur_Return D)|].
  intros y x Hy Hx. split.
  - rewrite pixel_at_blurred by done.
    unfold vertical_pixel. f_equal. apply weighted_sum_ext. intros ky Hky.
    unfold horizontal_image.
    by rewrite pixel_at_tabulate by (by (done || apply sample_coordinate_range)).
  - intros Hkk Hord.
    repeat (apply Forall_cons; split); [..|by apply Forall_nil];
      apply two_pass_near_direct; try done; try lia; unfold is_channel; auto.
Qed.

Lemma C1_witness :
  let D := binary64 exp_reference in
  let kernel := gaussianKernel D 3 1%float in
  ∃ result,
    applyGaussianBlur D sample_image 3 3 3 1%float = Return result ∧
    ∀ y x, 0 ≤ y < 3 → 0 ≤ x < 3 →
      Forall (λ channel : Pixel → Z,
                let stored := IZR (channel (pixel_at result y x)) in
                let direct := F2R (direct_2d_convolution D kernel 3
                                     sample_image 3 3 y x channel) in
                (stored <= direct + IZR (3 * 3) * bpow (-40) ∧
                 direct < stored + 2 + IZR (3 * 3) * bpow (-40))%R)
             [r; g; b].
Proof.
  destruct (C1_two_pass_vs_direct exp_reference sample_image 3 3 3 1%float)
    as (result & Hcall & Hpix);
    [lia|reflexivity|lia|lia|exact dimensions_sample_image
    |exact wf_sample_image|].
  exists result. split; [exact Hcall|]. intros y x Hy Hx.
  apply (Hpix y x Hy Hx); [unfold INT_MAX; lia|].
  exact ordinary_weights_reference_3.
Defined.

(** * Further properties of the code

    Properties of [applyGaussianBlur], of its helper [gaussianFunction] and
    of the index arithmetic that the claims above leave out. *)

(** ** Outcomes: when the call returns, and what it does otherwise *)






Section Outcomes.
Context (D : arith).




End Outcomes.



(** ** The sign of [sigma] *)

Section Sign_of_sigma.

Lemma binary_round_aux_opp s m e l :
  binary_round_aux prec emax (negb s) m e l
  = SFopp (binary_round_aux prec emax s m e l).
Proof.
  unfold binary_round_aux.
  destruct (shr_fexp prec emax m e l) as [mrs' e'].
  destruct (shr_fexp prec emax _ e' loc_Exact) as [mrs'' e''].
  destruct (shr_m mrs''); simpl; try done.
  by destruct (_ <=? _).
Qed.

Lemma mul_opp_r (a c : float) :
  PrimFloat.mul a (PrimFloat.opp c) = PrimFloat.opp (PrimFloat.mul a c).
Proof.
  apply Prim2SF_inj. rewrite opp_spec, !mul_spec, opp_spec.
  destruct (Prim2SF a) as [s|s| |s m e], (Prim2SF c) as [s'|s'| |s' m' e'];
    simpl; try done; try (by destruct s, s').
  unfold SF64mul, SFmul.
  replace (xorb s (negb s')) with (negb (xorb s s')) by (by destruct s, s').
  apply binary_round_aux_opp.
Qed.

Lemma mul_opp_l (a c : float) :
  PrimFloat.mul (PrimFloat.opp a) c = PrimFloat.opp (PrimFloat.mul a c).
Proof.
  apply Prim2SF_inj. rewrite opp_spec, !mul_spec, opp_spec.
  destruct (Prim2SF a) as [s|s| |s m e], (Prim2SF c) as [s'|s'| |s' m' e'];
    simpl; try done; try (by destruct s, s').
  unfold SF64mul, SFmul.
  replace (xorb (negb s) s') with (negb (xorb s s')) by (by destruct s, s').
  apply binary_round_aux_opp.
Qed.

Lemma opp_involutive (a : float) : PrimFloat.opp (PrimFloat.opp a) = a.
Proof.
  apply Prim2SF_inj. rewrite !opp_spec.
  destruct (Prim2SF a) as [s|s| |s m e]; simpl; try done; by destruct s.
Qed.

(** [2.0 * sigma * sigma] does not see the sign of [sigma]. *)
Lemma denominator_opp (sigma : float) :
  (2 * (- sigma) * (- sigma))%float = (2 * sigma * sigma)%float.
Proof. by rewrite !mul_opp_r, mul_opp_l, opp_involutive. Qed.

Context (libm_exp : float → float).
Local Abbreviation D := (binary64 libm_exp).

Lemma gaussian_weight_opp_sigma sigma center i :
  gaussian_weight D (- sigma)%float center i = gaussian_weight D sigma center i.
Proof.
  unfold gaussian_weight. simpl.
  change (Binary64.of_int 2) with 2%float. by rewrite denominator_opp.
Qed.

Lemma gaussianKernel_opp_sigma kernelSize sigma :
  gaussianKernel D kernelSize (- sigma)%float = gaussianKernel D kernelSize sigma.
Proof.
  rewrite !gaussianKernel_eq.
  assert (raw_weights D kernelSize (- sigma)%float = raw_weights D kernelSize sigma)
    as ->; [|done].
  unfold raw_weights. apply tabulate_ext. intros i _.
  apply gaussian_weight_opp_sigma.
Qed.

End Sign_of_sigma.

(** X2. The kernel, and with it the outcome of the call on any input, is
    the same for [-sigma] as for [sigma]: a negative [sigma] is accepted and
    blurs like its absolute value. *)
Theorem X2_sign_of_sigma (libm_exp : float → float)
    (imageData : Image) (width height kernelSize : Z) (sigma : float) :
  let D := binary64 libm_exp in
  gaussianKernel D kernelSize (- sigma)%float = gaussianKernel D kernelSize sigma ∧
  applyGaussianBlur D imageData width height kernelSize (- sigma)%float
  = applyGaussianBlur D imageData width height kernelSize sigma.
Proof.
  intros D. subst D. split; [apply gaussianKernel_opp_sigma|].
  unfold applyGaussianBlur. by rewrite gaussianKernel_opp_sigma.
Qed.

(** ** Values of [sigma] for which [2.0 * sigma * sigma] is zero or a NaN *)

Section NaN_kernel.

Lemma mul_nan_r (a : float) : (a * nan)%float = nan.
Proof.
  apply Prim2SF_inj. rewrite mul_spec.
  by destruct (Prim2SF a) as [s|s| |s m e].
Qed.

Lemma add_nan_r (a : float) : (a + nan)%float = nan.
Proof.
  apply Prim2SF_inj. rewrite add_spec.
  by destruct (Prim2SF a) as [s|s| |s m e].
Qed.

Lemma add_nan_l (a : float) : (nan + a)%float = nan.
Proof.
  apply Prim2SF_inj. rewrite add_spec.
  by destruct (Prim2SF a) as [s|s| |s m e].
Qed.

Lemma div_nan_r (a : float) : (a / nan)%float = nan.
Proof.
  apply Prim2SF_inj. rewrite div_spec.
  by destruct (Prim2SF a) as [s|s| |s m e].
Qed.

Lemma foldl_add_nan (l : list float) (a : float) :
  nan ∈ l → foldl PrimFloat.add a l = nan.
Proof.
  assert (∀ l, foldl PrimFloat.add nan l = nan) as Hnan.
  { clear. induction l as [|v l IH]; simpl; [done|]. by rewrite add_nan_l. }
  revert a. induction l as [|v l IH]; intros a Hin; [by inversion Hin|].
  simpl. apply elem_of_cons in Hin as [<-|Hin]; [|by apply IH].
  by rewrite add_nan_r.
Qed.

Lemma is_zero_spec (d : float) :
  PrimFloat.is_zero d = true ↔ ∃ s, Prim2SF d = S754_zero s.
Proof.
  unfold PrimFloat.is_zero. rewrite FloatAxioms.eqb_spec.
  change (Prim2SF zero) with (S754_zero false).
  destruct (Prim2SF d) as [s|s| |s m e]; simpl.
  - split; [by eauto|]. by destruct s.
  - split; [by destruct s|]. by intros [? ?].
  - split; [done|]. by intros [? ?].
  - split; [by destruct s|]. by intros [? ?].
Qed.

Lemma is_nan_spec (d : float) :
  PrimFloat.is_nan d = true ↔ d = nan.
Proof.
  unfold PrimFloat.is_nan. rewrite negb_true_iff. split.
  - intros H. destruct (Prim2SF d) as [s|s| |s m e] eqn:Hd.
    2,4: (assert (d ≠ nan) as Hne%eqb_refl_iff by (intros ->; by vm_compute in Hd);
          congruence).
    + assert (d ≠ nan) as Hne%eqb_refl_iff by (intros ->; by vm_compute in Hd).
      congruence.
    + apply Prim2SF_inj. by rewrite Hd.
  - by intros ->.
Qed.

Context (libm_exp : float → float) (HF : annex_F libm_exp).
Local Abbreviation D := (binary64 libm_exp).

(** The weight of the centre, [exp(-(0.0 * 0.0) / (2.0 * sigma * sigma))], is
    a NaN when the denominator is zero or a NaN, and 1 otherwise. *)
Lemma gaussianFunction_zero (sigma : float) :
  gaussianFunction D 0%float sigma = if degenerate sigma then nan else 1%float.
Proof.
  change (gaussianFunction D 0%float sigma)
    with (libm_exp (neg_zero / (2 * sigma * sigma))%float).
  unfold degenerate. generalize (2 * sigma * sigma)%float. intros d.
  destruct (PrimFloat.is_zero d) eqn:Hz; cbn [orb].
  { apply is_zero_spec in Hz as [s Hz].
    assert (neg_zero / d = nan)%float as ->; [|apply (exp_nan _ HF)].
    apply Prim2SF_inj. rewrite div_spec, Hz. done. }
  destruct (PrimFloat.is_nan d) eqn:Hn.
  { apply is_nan_spec in Hn as ->. rewrite div_nan_r. apply (exp_nan _ HF). }
  assert (neg_zero / d = neg_zero ∨ neg_zero / d = 0)%float as [-> | ->];
    [|apply (exp_neg_zero _ HF)|apply (exp_zero _ HF)].
  destruct (Prim2SF d) as [s|s| |s m e] eqn:Hd.
  - assert (PrimFloat.is_zero d = true) by (apply is_zero_spec; eauto).
    congruence.
  - destruct s; [right|left]; apply Prim2SF_inj; by rewrite div_spec, Hd.
  - assert (PrimFloat.is_nan d = true); [|congruence].
    apply is_nan_spec, Prim2SF_inj. by rewrite Hd.
  - destruct s; [right|left]; apply Prim2SF_inj; by rewrite div_spec, Hd.
Qed.

Lemma raw_weight_centre kernelSize sigma :
  gaussian_weight D sigma (kernelSize `quot` 2) (kernelSize `quot` 2)
  = if degenerate sigma then nan else 1%float.
Proof.
  rewrite <- gaussianFunction_zero. unfold gaussian_weight, gaussianFunction.
  by rewrite Z.sub_diag.
Qed.

Lemma gaussianKernel_degenerate kernelSize sigma :
  0 < kernelSize → degenerate sigma = true →
  gaussianKernel D kernelSize sigma = replicate (Z.to_nat kernelSize) nan.
Proof.
  intros Hk Hdeg. rewrite gaussianKernel_eq.
  assert (running_sum D (raw_weights D kernelSize sigma) = nan) as ->.
  { apply foldl_add_nan. unfold raw_weights, tabulate.
    apply list_elem_of_fmap. exists (kernelSize `quot` 2). split.
    - by rewrite raw_weight_centre, Hdeg.
    - apply elem_of_seqZ.
      pose proof (Z.quot_pos kernelSize 2). pose proof (Z.quot_lt kernelSize 2).
      lia. }
  rewrite <- (length_tabulate kernelSize
                (gaussian_weight D sigma (kernelSize `quot` 2))).
  fold (raw_weights D kernelSize sigma).
  induction (raw_weights D kernelSize sigma) as [|v l IH]; simpl; [done|].
  f_equal; [apply div_nan_r|apply IH].
Qed.

(** The accumulator of a channel is a NaN as soon as every weight is. *)
Lemma channel_sum_nan kernelSize (channel : Z → Z) :
  0 < kernelSize →
  channel_sum D (replicate (Z.to_nat kernelSize) nan) kernelSize channel = nan.
Proof.
  intros Hk. unfold channel_sum.
  assert (∀ l a, l ≠ [] → (∀ k, k ∈ l → 0 ≤ k < kernelSize) →
            foldl (λ acc k, acc + Binary64.of_int (channel k)
                     * weight_at D (replicate (Z.to_nat kernelSize) nan) k)%float
                  a l = nan) as H.
  { assert (∀ l, foldl (λ acc k, acc + Binary64.of_int (channel k)
                     * weight_at D (replicate (Z.to_nat kernelSize) nan) k)%float
                  nan l = nan) as Hnan.
    { induction l as [|k l IH]; simpl; [done|]. by rewrite add_nan_l. }
    intros [|k l] a Hne Hin; [done|]. cbn [foldl].
    assert (weight_at D (replicate (Z.to_nat kernelSize) nan) k = nan) as ->.
    { unfold weight_at. rewrite lookup_replicate_2; [done|].
      specialize (Hin k ltac:(by left)). lia. }
    rewrite mul_nan_r, add_nan_r. apply Hnan. }
  apply H.
  - intros Hnil. apply (f_equal length) in Hnil.
    rewrite length_seqZ in Hnil. simpl in Hnil. lia.
  - intros k Hin%elem_of_seqZ. lia.
Qed.

Lemma quantized_nan kernelSize (sample : Z → Pixel) :
  0 < kernelSize →
  quantized D (weighted_sum D (replicate (Z.to_nat kernelSize) nan) kernelSize sample)
  = gray 255.
Proof.
  intros Hk. unfold weighted_sum, quantized.
  rewrite !channel_sum_nan by done. reflexivity.
Qed.

Lemma blurred_degenerate imageData width height kernelSize sigma :
  0 < kernelSize → degenerate sigma = true →
  blurred D imageData width height kernelSize sigma
  = uniform_image (gray 255) width height.
Proof.
  intros Hk Hdeg. unfold blurred. rewrite gaussianKernel_degenerate by done.
  unfold vertical_image, vertical_pixel, uniform_image.
  rewrite <- (tabulate_const width), <- (tabulate_const height).
  apply tabulate_ext. intros y _. apply tabulate_ext. intros x _.
  by apply quantized_nan.
Qed.

End NaN_kernel.

(** X3. For an [exp] that follows Annex F: when [2.0 * sigma * sigma]
    evaluates to zero or to a NaN ([sigma] is [0.0], [-0.0], a NaN, or as
    small as [2^-600]), every weight of the kernel is a NaN; otherwise the
    unnormalised weight of the centre is exactly 1. *)
Theorem X3_degenerate_sigma_kernel (libm_exp : float → float)
    (kernelSize : Z) (sigma : float) :
  annex_F libm_exp → 3 ≤ kernelSize → Z.odd kernelSize = true →
  let D := binary64 libm_exp in
  let center := kernelSize `quot` 2 in
  (degenerate sigma = true →
     gaussianKernel D kernelSize sigma = replicate (Z.to_nat kernelSize) nan) ∧
  (degenerate sigma = false →
     gaussian_weight D sigma center center = 1%float) ∧
  degenerate 0 = true ∧ degenerate neg_zero = true ∧ degenerate nan = true ∧
  degenerate vanishing_sigma = true.
Proof.
  intros HF Hk Hodd D center. subst D center. split; [|split].
  - intros Hdeg. apply gaussianKernel_degenerate; [done|lia|done].
  - intros Hdeg. by rewrite raw_weight_centre, Hdeg.
  - by vm_compute.
Qed.

Lemma X3_witness :
  let D := binary64 exp_reference in
  let center := 5 `quot` 2 in
  (degenerate 0 = true →
     gaussianKernel D 5 0%float = replicate (Z.to_nat 5) nan) ∧
  (degenerate 0 = false →
     gaussian_weight D 0%float center center = 1%float) ∧
  degenerate 0 = true ∧ degenerate neg_zero = true ∧ degenerate nan = true ∧
  degenerate vanishing_sigma = true.
Proof.
  apply (X3_degenerate_sigma_kernel exp_reference 5 0%float);
    [exact annex_F_reference|lia|reflexivity].
Defined.

(** X4. For an [exp] that follows Annex F and a [sigma] for which
    [2.0 * sigma * sigma] is zero or a NaN, the call on a valid input returns
    the image whose every channel is 255, whatever the input pixels: each
    accumulator is a NaN, and [std::min(255.0, NaN)] is 255.0. *)
Theorem X4_degenerate_sigma_white (libm_exp : float → float)
    (imageData : Image) (width height kernelSize : Z) (sigma : float) :
  annex_F libm_exp →
  3 ≤ kernelSize → Z.odd kernelSize = true → 0 < width → 0 < height →
  covers imageData width height →
  degenerate sigma = true →
  applyGaussianBlur (binary64 libm_exp) imageData width height kernelSize sigma
  = Return (uniform_image (gray 255) width height).
Proof.
  intros HF Hk Hodd Hw Hh Hc Hdeg.
  rewrite (applyGaussianBlur_Return (binary64 libm_exp)) by done.
  f_equal. apply blurred_degenerate; [done|lia|done].
Qed.

Lemma X4_witness :
  applyGaussianBlur (binary64 exp_reference) sample_image 3 3 3 0%float
  = Return (uniform_image (gray 255) 3 3).
Proof.
  apply (X4_degenerate_sigma_white exp_reference sample_image 3 3 3 0%float);
    [exact annex_F_reference|lia|reflexivity|lia|lia| |reflexivity].
  apply dimensions_covers, dimensions_sample_image.
Defined.

(** ** The helper [gaussianFunction] *)

(** X6. [gaussianFunction(x, sigma)] is the same double for [-x] as for [x]
    and for [-sigma] as for [sigma]. For an [exp] that follows Annex F,
    [gaussianFunction(0.0, sigma)] is exactly 1, or a NaN when
    [2.0 * sigma * sigma] is zero or a NaN. *)
Theorem X6_gaussianFunction (libm_exp : float → float) (x sigma : float) :
  let D := binary64 libm_exp in
  gaussianFunction D (- x)%float sigma = gaussianFunction D x sigma ∧
  gaussianFunction D x (- sigma)%float = gaussianFunction D x sigma ∧
  (annex_F libm_exp →
     gaussianFunction D 0%float sigma
     = if degenerate sigma then nan else 1%float).
Proof.
  intros D. subst D. split; [|split].
  - unfold gaussianFunction. simpl. by rewrite mul_opp_opp.
  - unfold gaussianFunction. simpl.
    change (Binary64.of_int 2) with 2%float. by rewrite denominator_opp.
  - intros HF. by apply gaussianFunction_zero.
Qed.

(** ** Locality: the pixels an output pixel depends on *)

Lemma sample_coordinate_window axisLength kernelSize pos k :
  0 < kernelSize → 0 ≤ pos < axisLength → 0 ≤ k < kernelSize →
  let s := sample_coordinate axisLength pos k (kernelSize `quot` 2) in
  0 ≤ s < axisLength ∧ Z.abs (s - pos) ≤ kernelSize `quot` 2.
Proof.
  intros Hk Hpos Hk' s. unfold s. rewrite sample_coordinate_eq.
  pose proof (Z.quot_rem' kernelSize 2) as Hqr.
  pose proof (Z.rem_bound_pos kernelSize 2 ltac:(lia) ltac:(lia)) as Hr.
  lia.
Qed.

Section Window.
Context (D : arith).

Lemma horizontal_pixel_window img1 img2 width height kernelSize kernel y x y' :
  0 < kernelSize → 0 ≤ y < height → 0 ≤ x < width → 0 ≤ y' < height →
  Z.abs (y' - y) ≤ kernelSize `quot` 2 →
  (∀ y' x', 0 ≤ y' < height → 0 ≤ x' < width →
            in_window kernelSize y x y' x' →
            pixel_at img1 y' x' = pixel_at img2 y' x') →
  horizontal_pixel D img1 width kernelSize kernel y' x
  = horizontal_pixel D img2 width kernelSize kernel y' x.
Proof.
  intros Hk Hy Hx Hy' Hnear Hsame. unfold horizontal_pixel. f_equal.
  apply weighted_sum_ext. intros k Hk'.
  destruct (sample_coordinate_window width kernelSize x k) as [Hs Hd]; try done.
  apply Hsame; [done|done|]. by split.
Qed.

Lemma blurred_window img1 img2 width height kernelSize sigma y x :
  0 < kernelSize → 0 ≤ y < height → 0 ≤ x < width →
  (∀ y' x', 0 ≤ y' < height → 0 ≤ x' < width →
            in_window kernelSize y x y' x' →
            pixel_at img1 y' x' = pixel_at img2 y' x') →
  pixel_at (blurred D img1 width height kernelSize sigma) y x
  = pixel_at (blurred D img2 width height kernelSize sigma) y x.
Proof.
  intros Hk Hy Hx Hsame. rewrite !pixel_at_blurred by done.
  unfold vertical_pixel. f_equal. apply weighted_sum_ext. intros k Hk'.
  destruct (sample_coordinate_window height kernelSize y k) as [Hs Hd]; try done.
  unfold horizontal_image. rewrite !pixel_at_tabulate by done.
  by apply (horizontal_pixel_window img1 img2 width height kernelSize _ y x).
Qed.

End Window.

(** X5. An output pixel depends only on the input pixels of the
    [kernelSize] by [kernelSize] square around it: two valid inputs that hold
    the same pixels in the part of that square inside the image give the
    same output pixel at its centre. *)
Theorem X5_locality (libm_exp : float → float) (img1 img2 : Image)
    (width height kernelSize : Z) (sigma : float) (y x : Z) :
  3 ≤ kernelSize → Z.odd kernelSize = true → 0 < width → 0 < height →
  covers img1 width height → covers img2 width height →
  0 ≤ y < height → 0 ≤ x < width →
  (∀ y' x', 0 ≤ y' < height → 0 ≤ x' < width →
            in_window kernelSize y x y' x' →
            pixel_at img1 y' x' = pixel_at img2 y' x') →
  let call img := applyGaussianBlur (binary64 libm_exp) img width height
                                    kernelSize sigma in
  ∃ result1 result2,
    call img1 = Return result1 ∧ call img2 = Return result2 ∧
    pixel_at result1 y x = pixel_at result2 y x.
Proof.
  intros Hk Hodd Hw Hh Hc1 Hc2 Hy Hx Hsame call. unfold call.
  do 2 eexists. split; [|split].
  - by apply (applyGaussianBlur_Return (binary64 libm_exp)).
  - by apply (applyGaussianBlur_Return (binary64 libm_exp)).
  - apply blurred_window; [lia|done..].
Qed.

Lemma X5_witness :
  let call img := applyGaussianBlur (binary64 exp_reference) img 3 3 3 1%float in
  ∃ result1 result2,
    call sample_image = Return result1 ∧
    call sample_image_repainted = Return result2 ∧
    pixel_at result1 0 0 = pixel_at result2 0 0.
Proof.
  apply (X5_locality exp_reference sample_image sample_image_repainted
           3 3 3 1%float 0 0); [lia|reflexivity|lia|lia| | |lia|lia|].
  - apply dimensions_covers, dimensions_sample_image.
  - apply dimensions_covers. split; [reflexivity|]. by repeat constructor.
  - unfold in_window. change (3 `quot` 2) with 1. intros y' x' Hy' Hx' [H1 H2].
    assert (y' = 0 ∨ y' = 1) as [-> | ->] by lia;
      (assert (x' = 0 ∨ x' = 1) as [-> | ->] by lia); reflexivity.
Defined.

(** ** Translation away from the border *)

Lemma sample_coordinate_interior axisLength kernelSize pos k :
  0 < kernelSize → 0 ≤ k < kernelSize →
  kernelSize `quot` 2 ≤ pos < axisLength - kernelSize `quot` 2 →
  sample_coordinate axisLength pos k (kernelSize `quot` 2)
  = pos + (k - kernelSize `quot` 2) ∧
  - (kernelSize `quot` 2) ≤ k - kernelSize `quot` 2 ≤ kernelSize `quot` 2.
Proof.
  intros Hk Hk' Hpos. rewrite sample_coordinate_eq.
  pose proof (Z.quot_rem' kernelSize 2) as Hqr.
  pose proof (Z.rem_bound_pos kernelSize 2 ltac:(lia) ltac:(lia)) as Hr.
  lia.
Qed.

Section Shift.
Context (D : arith).

Lemma blurred_shift img1 img2 width1 height1 width2 height2 kernelSize sigma
    y1 x1 y2 x2 :
  0 < kernelSize →
  kernelSize `quot` 2 ≤ y1 < height1 - kernelSize `quot` 2 →
  kernelSize `quot` 2 ≤ x1 < width1 - kernelSize `quot` 2 →
  kernelSize `quot` 2 ≤ y2 < height2 - kernelSize `quot` 2 →
  kernelSize `quot` 2 ≤ x2 < width2 - kernelSize `quot` 2 →
  (∀ dy dx, - (kernelSize `quot` 2) ≤ dy ≤ kernelSize `quot` 2 →
            - (kernelSize `quot` 2) ≤ dx ≤ kernelSize `quot` 2 →
            pixel_at img1 (y1 + dy) (x1 + dx) = pixel_at img2 (y2 + dy) (x2 + dx)) →
  pixel_at (blurred D img1 width1 height1 kernelSize sigma) y1 x1
  = pixel_at (blurred D img2 width2 height2 kernelSize sigma) y2 x2.
Proof.
  intros Hk Hy1 Hx1 Hy2 Hx2 Hsame.
  pose proof (Z.quot_pos kernelSize 2 ltac:(lia) ltac:(lia)) as Hc.
  rewrite !pixel_at_blurred by lia.
  unfold vertical_pixel. f_equal. apply weighted_sum_ext. intros k Hk'.
  destruct (sample_coordinate_interior height1 kernelSize y1 k) as [-> Hdy];
    [done..|].
  destruct (sample_coordinate_interior height2 kernelSize y2 k) as [-> _];
    [done..|].
  unfold horizontal_image. rewrite !pixel_at_tabulate by lia.
  unfold horizontal_pixel. f_equal. apply weighted_sum_ext. intros k' Hk''.
  destruct (sample_coordinate_interior width1 kernelSize x1 k') as [-> Hdx];
    [done..|].
  destruct (sample_coordinate_interior width2 kernelSize x2 k') as [-> _];
    [done..|].
  by apply Hsame.
Qed.

End Shift.

(** X13. Away from the border the filter commutes with translation: two
    output pixels, of the same or of different valid inputs, whose
    [kernelSize] by [kernelSize] squares lie inside the images and hold the
    same pixels at the same offsets from the centre, are equal. *)
Theorem X13_shift_invariance (libm_exp : float → float) (img1 img2 : Image)
    (width1 height1 width2 height2 kernelSize : Z) (sigma : float)
    (y1 x1 y2 x2 : Z) :
  3 ≤ kernelSize → Z.odd kernelSize = true →
  covers img1 width1 height1 → covers img2 width2 height2 →
  let center := kernelSize `quot` 2 in
  center ≤ y1 < height1 - center → center ≤ x1 < width1 - center →
  center ≤ y2 < height2 - center → center ≤ x2 < width2 - center →
  (∀ dy dx, - center ≤ dy ≤ center → - center ≤ dx ≤ center →
            pixel_at img1 (y1 + dy) (x1 + dx) = pixel_at img2 (y2 + dy) (x2 + dx)) →
  ∃ result1 result2,
    applyGaussianBlur (binary64 libm_exp) img1 width1 height1 kernelSize sigma
    = Return result1 ∧
    applyGaussianBlur (binary64 libm_exp) img2 width2 height2 kernelSize sigma
    = Return result2 ∧
    pixel_at result1 y1 x1 = pixel_at result2 y2 x2.
Proof.
  intros Hk Hodd Hc1 Hc2 center Hy1 Hx1 Hy2 Hx2 Hsame.
  pose proof (Z.quot_pos kernelSize 2 ltac:(lia) ltac:(lia)) as Hc.
  fold center in Hc.
  do 2 eexists. split; [|split].
  - apply (applyGaussianBlur_Return (binary64 libm_exp)); try done; lia.
  - apply (applyGaussianBlur_Return (binary64 libm_exp)); try done; lia.
  - apply blurred_shift; try done. lia.
Qed.

Lemma X13_witness :
  ∃ result1 result2,
    applyGaussianBlur (binary64 exp_reference) sample_image 3 3 3 1%float
    = Return result1 ∧
    applyGaussianBlur (binary64 exp_reference) sample_image_shifted 4 3 3 1%float
    = Return result2 ∧
    pixel_at result1 1 1 = pixel_at result2 1 2.
Proof.
  apply (X13_shift_invariance exp_reference sample_image sample_image_shifted
           3 3 4 3 3 1%float 1 1 1 2);
    [lia|reflexivity| | |by vm_compute..|].
  - apply dimensions_covers, dimensions_sample_image.
  - apply dimensions_covers. split; [reflexivity|]. by repeat constructor.
  - change (3 `quot` 2) with 1. intros dy dx Hdy Hdx.
    assert (dy = -1 ∨ dy = 0 ∨ dy = 1) as [-> | [-> | ->]] by lia;
      (assert (dx = -1 ∨ dx = 0 ∨ dx = 1) as [-> | [-> | ->]] by lia);
      reflexivity.
Defined.

(** ** The 256 channel levels as doubles *)

Section Channel_levels.

(** Facts about the 256 doubles a channel converts to, by enumeration. *)
Lemma channel_levels (P : Z → Prop) :
  Forall P (seqZ 0 256) → ∀ c, 0 ≤ c ≤ 255 → P c.
Proof.
  intros H c Hc. rewrite Forall_forall in H. apply H, elem_of_seqZ. lia.
Qed.

Lemma level_times_zero c :
  0 ≤ c ≤ 255 → (Binary64.of_int c * 0 = 0)%float.
Proof.
  revert c. apply channel_levels. vm_compute seqZ.
  repeat (constructor; [reflexivity|]). constructor.
Qed.

Lemma level_times_one c :
  0 ≤ c ≤ 255 → (0 + Binary64.of_int c * 1 = Binary64.of_int c)%float.
Proof.
  revert c. apply channel_levels. vm_compute seqZ.
  repeat (constructor; [reflexivity|]). constructor.
Qed.

Lemma level_plus_zero c :
  0 ≤ c ≤ 255 → (Binary64.of_int c + 0 = Binary64.of_int c)%float.
Proof.
  revert c. apply channel_levels. vm_compute seqZ.
  repeat (constructor; [reflexivity|]). constructor.
Qed.

Context (libm_exp : float → float).
Local Abbreviation D := (binary64 libm_exp).

Lemma stored_channel_level c :
  0 ≤ c ≤ 255 → stored_channel D (Binary64.of_int c) = c.
Proof.
  unfold stored_channel. rewrite clamp_binary64.
  revert c. apply channel_levels. vm_compute seqZ.
  repeat (constructor; [reflexivity|]). constructor.
Qed.

End Channel_levels.

(** X8. A channel value of 0..255 converted to [double] is left as it is
    by the clamp, and the cast stores it back unchanged. *)
Theorem X8_channel_round_trip (libm_exp : float → float) (c : Z) :
  0 ≤ c ≤ 255 →
  let D := binary64 libm_exp in
  clamp D (of_int D c) = of_int D c ∧
  store_channel D (of_int D c) = Return c.
Proof.
  intros Hc D. subst D.
  assert (clamp (binary64 libm_exp) (Binary64.of_int c) = Binary64.of_int c)
    as Hclamp.
  { rewrite clamp_binary64. revert c Hc. apply channel_levels. vm_compute seqZ.
    repeat (constructor; [reflexivity|]). constructor. }
  split; [exact Hclamp|].
  rewrite (store_channel_Return (binary64 libm_exp)).
  f_equal. by apply stored_channel_level.
Qed.

Lemma X8_witness :
  let D := binary64 exp_reference in
  clamp D (of_int D 200) = of_int D 200 ∧
  store_channel D (of_int D 200) = Return 200.
Proof. apply (X8_channel_round_trip exp_reference 200). lia. Defined.

(** ** Black regions *)

Section Black.

Lemma zero_times_finite (w : float) :
  finite w = true → ∃ s, Prim2SF (0 * w)%float = S754_zero s.
Proof.
  unfold finite. rewrite mul_spec. change (Prim2SF 0) with (S754_zero false).
  destruct (Prim2SF w) as [s|s| |s m e]; simpl; try done; by eauto.
Qed.

Lemma zero_plus_zero (z : float) s :
  Prim2SF z = S754_zero s → (0 + z)%float = 0%float.
Proof.
  intros Hz. apply Prim2SF_inj. rewrite add_spec, Hz.
  change (Prim2SF 0) with (S754_zero false). by destruct s.
Qed.

Context (libm_exp : float → float).
Local Abbreviation D := (binary64 libm_exp).

Lemma weight_at_finite (kernel : list float) k :
  Forall (λ w, finite w = true) kernel → finite (weight_at D kernel k) = true.
Proof.
  intros Hfin. unfold weight_at. simpl.
  destruct (kernel !! Z.to_nat k) as [w|] eqn:Hw; simpl; [|reflexivity].
  rewrite Forall_lookup in Hfin. by eapply Hfin.
Qed.

(** With finite weights, taps that read 0 leave the accumulator at +0.0. *)
Lemma channel_sum_black (kernel : list float) kernelSize (channel : Z → Z) :
  Forall (λ w, finite w = true) kernel →
  (∀ k, 0 ≤ k < kernelSize → channel k = 0) →
  channel_sum D kernel kernelSize channel = 0%float.
Proof.
  intros Hfin Hzero. unfold channel_sum.
  assert (∀ l, (∀ k, k ∈ l → 0 ≤ k < kernelSize) →
            foldl (λ acc k, acc + Binary64.of_int (channel k)
                                  * weight_at D kernel k)%float 0%float l
            = 0%float) as H.
  { induction l as [|k l IH]; intros Hin; [done|]. cbn [foldl].
    rewrite Hzero by (apply Hin; by left).
    destruct (zero_times_finite (weight_at D kernel k)) as [s Hs];
      [by apply weight_at_finite|].
    change (Binary64.of_int 0) with 0%float.
    rewrite (zero_plus_zero _ s Hs). apply IH. intros. apply Hin. by right. }
  apply H. intros k Hk%elem_of_seqZ. lia.
Qed.

Lemma quantized_black (kernel : list float) kernelSize (sample : Z → Pixel) :
  Forall (λ w, finite w = true) kernel →
  (∀ k, 0 ≤ k < kernelSize → sample k = Pixel_default) →
  quantized D (weighted_sum D kernel kernelSize sample) = Pixel_default.
Proof.
  intros Hfin Hblack. unfold weighted_sum, quantized.
  rewrite !(channel_sum_black kernel kernelSize) by
    (done || (intros k Hk; by rewrite Hblack)).
  reflexivity.
Qed.

Lemma blurred_black_window imageData width height kernelSize sigma y x :
  0 < kernelSize → 0 ≤ y < height → 0 ≤ x < width →
  Forall (λ w, finite w = true) (gaussianKernel D kernelSize sigma) →
  (∀ y' x', 0 ≤ y' < height → 0 ≤ x' < width →
            in_window kernelSize y x y' x' →
            pixel_at imageData y' x' = Pixel_default) →
  pixel_at (blurred D imageData width height kernelSize sigma) y x
  = Pixel_default.
Proof.
  intros Hk Hy Hx Hfin Hblack. rewrite pixel_at_blurred by done.
  unfold vertical_pixel. apply quantized_black; [done|]. intros k Hk'.
  destruct (sample_coordinate_window height kernelSize y k) as [Hs Hd]; try done.
  unfold horizontal_image. rewrite pixel_at_tabulate by done.
  unfold horizontal_pixel. apply quantized_black; [done|]. intros k' Hk''.
  destruct (sample_coordinate_window width kernelSize x k') as [Hs' Hd'];
    try done.
  apply Hblack; [done|done|]. by split.
Qed.

End Black.

(** X9. When every weight of the kernel is finite, an output pixel whose
    [kernelSize] by [kernelSize] square holds only black input pixels is
    black: no level appears where the input has none. *)
Theorem X9_black_region (libm_exp : float → float) (imageData : Image)
    (width height kernelSize : Z) (sigma : float) (y x : Z) :
  3 ≤ kernelSize → Z.odd kernelSize = true → 0 < width → 0 < height →
  covers imageData width height →
  Forall (λ w, finite w = true)
         (gaussianKernel (binary64 libm_exp) kernelSize sigma) →
  0 ≤ y < height → 0 ≤ x < width →
  (∀ y' x', 0 ≤ y' < height → 0 ≤ x' < width →
            in_window kernelSize y x y' x' →
            pixel_at imageData y' x' = mkPixel 0 0 0) →
  ∃ result,
    applyGaussianBlur (binary64 libm_exp) imageData width height kernelSize sigma
    = Return result ∧
    pixel_at result y x = mkPixel 0 0 0.
Proof.
  intros Hk Hodd Hw Hh Hc Hfin Hy Hx Hblack. eexists. split.
  - by apply (applyGaussianBlur_Return (binary64 libm_exp)).
  - apply blurred_black_window; [lia|done..].
Qed.

Lemma X9_witness :
  ∃ result,
    applyGaussianBlur (binary64 exp_reference) black_with_bright_column
                      4 4 3 1%float
    = Return result ∧
    pixel_at result 1 1 = mkPixel 0 0 0.
Proof.
  apply (X9_black_region exp_reference black_with_bright_column 4 4 3 1%float 1 1);
    [lia|reflexivity|lia|lia| | |lia|lia|].
  - apply dimensions_covers. split; [reflexivity|]. by repeat constructor.
  - assert (gaussianKernel (binary64 exp_reference) 3 1%float
            = [0x1.18a571aee93a1p-2; 0x1.ceb51ca22d8bfp-2;
               0x1.18a571aee93a1p-2]%float) as -> by (by vm_compute).
    by repeat constructor.
  - unfold in_window. change (3 `quot` 2) with 1. intros y' x' Hy' Hx' [H1 H2].
    assert (y' = 0 ∨ y' = 1 ∨ y' = 2) as [-> | [-> | ->]] by lia;
      (assert (x' = 0 ∨ x' = 1 ∨ x' = 2) as [-> | [-> | ->]] by lia);
      reflexivity.
Defined.

(** ** The kernel [0, ..., 0, 1, 0, ..., 0] *)

Section Centre_only.
Context (libm_exp : float → float).
Local Abbreviation D := (binary64 libm_exp).

Lemma weight_at_centre_only kernelSize k :
  0 ≤ k < kernelSize →
  weight_at D (centre_only kernelSize) k
  = if k =? kernelSize `quot` 2 then 1%float else 0%float.
Proof.
  intros Hk. unfold weight_at, centre_only.
  rewrite lookup_tabulate by lia. by rewrite Z2Nat.id by lia.
Qed.

(** With the weights [0, ..., 0, 1, 0, ..., 0] the accumulator ends as the
    channel the centre tap read. *)
Lemma channel_sum_centre_only kernelSize (channel : Z → Z) :
  0 < kernelSize →
  (∀ k, 0 ≤ k < kernelSize → 0 ≤ channel k ≤ 255) →
  channel_sum D (centre_only kernelSize) kernelSize channel
  = Binary64.of_int (channel (kernelSize `quot` 2)).
Proof.
  intros Hk Hwf. unfold channel_sum.
  set (c := kernelSize `quot` 2).
  set (step := λ (acc : float) (k : Z),
         (acc + Binary64.of_int (channel k)
                * weight_at D (centre_only kernelSize) k)%float).
  assert (0 ≤ c < kernelSize) as Hc.
  { pose proof (Z.quot_pos kernelSize 2). pose proof (Z.quot_lt kernelSize 2).
    unfold c. lia. }
  assert (∀ k acc, 0 ≤ k < kernelSize → k ≠ c →
            step acc k = (acc + 0)%float) as Hside.
  { intros k acc Hk' Hne. unfold step.
    rewrite weight_at_centre_only by done. fold c.
    rewrite (proj2 (Z.eqb_neq k c)) by done.
    by rewrite level_times_zero by auto. }
  assert (∀ l, (∀ k, k ∈ l → 0 ≤ k < kernelSize ∧ k ≠ c) →
            foldl step 0%float l = 0%float) as Hbefore.
  { induction l as [|k l IH]; intros Hin; [done|]. cbn [foldl].
    destruct (Hin k ltac:(by left)). rewrite Hside by done.
    change (0 + 0)%float with 0%float. apply IH. intros. apply Hin. by right. }
  assert (∀ l v, 0 ≤ v ≤ 255 → (∀ k, k ∈ l → 0 ≤ k < kernelSize ∧ k ≠ c) →
            foldl step (Binary64.of_int v) l = Binary64.of_int v) as Hafter.
  { induction l as [|k l IH]; intros v Hv Hin; [done|]. cbn [foldl].
    destruct (Hin k ltac:(by left)). rewrite Hside by done.
    rewrite level_plus_zero by done. apply IH; [done|].
    intros. apply Hin. by right. }
  assert (seqZ 0 kernelSize = seqZ 0 c ++ c :: seqZ (c + 1) (kernelSize - c - 1))
    as ->.
  { trans (seqZ 0 (c + (kernelSize - c))); [f_equal; lia|].
    rewrite seqZ_app by lia. f_equal. rewrite seqZ_cons by lia.
    f_equal; f_equal; lia. }
  rewrite foldl_app. cbn [foldl].
  rewrite Hbefore by (intros k Hin%elem_of_seqZ; lia).
  trans (foldl step (Binary64.of_int (channel c))
               (seqZ (c + 1) (kernelSize - c - 1))).
  - unfold step. f_equal. rewrite weight_at_centre_only by lia. fold c.
    rewrite Z.eqb_refl. apply level_times_one. auto.
  - apply Hafter; [auto|]. intros k Hin%elem_of_seqZ. lia.
Qed.

Lemma quantized_centre_only kernelSize (sample : Z → Pixel) :
  0 < kernelSize →
  (∀ k, 0 ≤ k < kernelSize → wf_pixel (sample k)) →
  quantized D (weighted_sum D (centre_only kernelSize) kernelSize sample)
  = sample (kernelSize `quot` 2).
Proof.
  intros Hk Hwf. unfold weighted_sum, quantized.
  rewrite !channel_sum_centre_only by
    (done || (intros k Hk'; apply (Hwf k Hk'))).
  pose proof (Z.quot_pos kernelSize 2). pose proof (Z.quot_lt kernelSize 2).
  destruct (Hwf (kernelSize `quot` 2)) as (Hr & Hg & Hb); [lia|].
  rewrite !stored_channel_level by done.
  by destruct (sample _).
Qed.

Lemma sample_coordinate_centre axisLength kernelSize pos :
  0 ≤ pos < axisLength →
  sample_coordinate axisLength pos (kernelSize `quot` 2) (kernelSize `quot` 2)
  = pos.
Proof. intros. rewrite sample_coordinate_eq. lia. Qed.

Lemma blurred_centre_only imageData width height kernelSize sigma y x :
  0 < kernelSize → 0 ≤ y < height → 0 ≤ x < width →
  gaussianKernel D kernelSize sigma = centre_only kernelSize →
  (∀ y' x', 0 ≤ y' < height → 0 ≤ x' < width →
            wf_pixel (pixel_at imageData y' x')) →
  pixel_at (blurred D imageData width height kernelSize sigma) y x
  = pixel_at imageData y x.
Proof.
  intros Hk Hy Hx Hkernel Hwf. rewrite pixel_at_blurred by done.
  rewrite Hkernel. unfold vertical_pixel.
  assert (∀ y' x', 0 ≤ y' < height → 0 ≤ x' < width →
            pixel_at (horizontal_image D imageData width height kernelSize
                        (centre_only kernelSize)) y' x'
            = pixel_at imageData y' x') as Hhor.
  { intros y' x' Hy' Hx'. unfold horizontal_image.
    rewrite pixel_at_tabulate by done. unfold horizontal_pixel.
    rewrite quantized_centre_only; [by rewrite sample_coordinate_centre|done|].
    intros k Hk'. apply Hwf; [done|]. apply sample_coordinate_range. lia. }
  rewrite quantized_centre_only; [|done|].
  - rewrite sample_coordinate_centre by done. by apply Hhor.
  - intros k Hk'. rewrite Hhor; [|apply sample_coordinate_range; lia|done].
    apply Hwf; [|done]. apply sample_coordinate_range. lia.
Qed.

End Centre_only.

(** X7. When the generated kernel is 1 at the centre and +0.0 elsewhere (as
    for [kernelSize = 3] and [sigma = 2^-530], where [exp] underflows beside
    the centre), the call on a valid input with channels in 0..255 returns
    the [width] by [height] image unchanged. *)
Theorem X7_centre_only_kernel (libm_exp : float → float) (imageData : Image)
    (width height kernelSize : Z) (sigma : float) :
  3 ≤ kernelSize → Z.odd kernelSize = true → 0 < width → 0 < height →
  covers imageData width height →
  (∀ y x, 0 ≤ y < height → 0 ≤ x < width → wf_pixel (pixel_at imageData y x)) →
  gaussianKernel (binary64 libm_exp) kernelSize sigma = centre_only kernelSize →
  ∃ result,
    applyGaussianBlur (binary64 libm_exp) imageData width height kernelSize sigma
    = Return result ∧
    dimensions result width height ∧
    ∀ y x, 0 ≤ y < height → 0 ≤ x < width →
           pixel_at result y x = pixel_at imageData y x.
Proof.
  intros Hk Hodd Hw Hh Hc Hwf Hkernel. eexists. split; [|split].
  - by apply (applyGaussianBlur_Return (binary64 libm_exp)).
  - apply dimensions_blurred; lia.
  - intros y x Hy Hx. apply blurred_centre_only; [lia|done..].
Qed.

Lemma X7_witness :
  ∃ result,
    applyGaussianBlur (binary64 exp_reference) sample_image 3 3 3 tiny_sigma
    = Return result ∧
    dimensions result 3 3 ∧
    ∀ y x, 0 ≤ y < 3 → 0 ≤ x < 3 →
           pixel_at result y x = pixel_at sample_image y x.
Proof.
  apply (X7_centre_only_kernel exp_reference sample_image 3 3 3 tiny_sigma);
    [lia|reflexivity|lia|lia| | |].
  - apply dimensions_covers, dimensions_sample_image.
  - intros y x _ _. apply wf_pixel_at, wf_sample_image.
  - by vm_compute.
Defined.

(** ** The three channels are filtered alike *)

Section Remix.
Context (D : arith).
Context (c1 c2 c3 : Pixel → Z).
Context (H1 : is_channel c1) (H2 : is_channel c2) (H3 : is_channel c3).

Lemma remix_default : remix c1 c2 c3 Pixel_default = Pixel_default.
Proof.
  unfold remix.
  destruct H1 as [-> | [-> | ->]], H2 as [-> | [-> | ->]],
    H3 as [-> | [-> | ->]]; reflexivity.
Qed.

Lemma pixel_at_remix img y x :
  pixel_at (remix_image c1 c2 c3 img) y x = remix c1 c2 c3 (pixel_at img y x).
Proof.
  unfold pixel_at, remix_image. rewrite list_lookup_fmap.
  destruct (img !! Z.to_nat y) as [row|]; simpl; [|by rewrite remix_default].
  rewrite list_lookup_fmap.
  destruct (row !! Z.to_nat x) as [p|]; simpl; [done|by rewrite remix_default].
Qed.

Lemma quantized_remix kernel kernelSize (sample : Z → Pixel) :
  quantized D (weighted_sum D kernel kernelSize (λ k, remix c1 c2 c3 (sample k)))
  = remix c1 c2 c3 (quantized D (weighted_sum D kernel kernelSize sample)).
Proof.
  unfold remix at 2. rewrite !channel_quantized by done. reflexivity.
Qed.

Lemma remix_tabulate (p : Z → Z → Pixel) width height :
  remix_image c1 c2 c3 (tabulate height (λ y, tabulate width (p y)))
  = tabulate height (λ y, tabulate width (λ x, remix c1 c2 c3 (p y x))).
Proof.
  unfold remix_image, tabulate. rewrite <- list_fmap_compose.
  apply list_fmap_ext. intros _ y _. simpl. by rewrite <- list_fmap_compose.
Qed.

Lemma horizontal_image_remix img width height kernelSize kernel :
  horizontal_image D (remix_image c1 c2 c3 img) width height kernelSize kernel
  = remix_image c1 c2 c3 (horizontal_image D img width height kernelSize kernel).
Proof.
  unfold horizontal_image. rewrite remix_tabulate.
  apply tabulate_ext. intros y _. apply tabulate_ext. intros x _.
  unfold horizontal_pixel. rewrite <- quantized_remix. f_equal.
  apply weighted_sum_ext. intros k _. apply pixel_at_remix.
Qed.

Lemma vertical_image_remix img width height kernelSize kernel :
  vertical_image D (remix_image c1 c2 c3 img) width height kernelSize kernel
  = remix_image c1 c2 c3 (vertical_image D img width height kernelSize kernel).
Proof.
  unfold vertical_image. rewrite remix_tabulate.
  apply tabulate_ext. intros y _. apply tabulate_ext. intros x _.
  unfold vertical_pixel. rewrite <- quantized_remix. f_equal.
  apply weighted_sum_ext. intros k _. apply pixel_at_remix.
Qed.

Lemma blurred_remix img width height kernelSize sigma :
  blurred D (remix_image c1 c2 c3 img) width height kernelSize sigma
  = remix_image c1 c2 c3 (blurred D img width height kernelSize sigma).
Proof.
  unfold blurred. by rewrite horizontal_image_remix, vertical_image_remix.
Qed.

Lemma covers_remix img width height :
  covers img width height → covers (remix_image c1 c2 c3 img) width height.
Proof.
  intros Hc y Hy. destruct (Hc y Hy) as (row & Hrow & Hlen).
  exists (remix c1 c2 c3 <$> row). unfold remix_image.
  rewrite list_lookup_fmap, Hrow. split; [done|]. by rewrite length_fmap.
Qed.

End Remix.

(** X10. The three channels are filtered independently and by the same
    computation: permuting the channels of the input (RGB to BGR, say), or
    copying one channel over another, and then blurring gives the blurred
    image with its channels permuted or copied the same way. *)
Theorem X10_channels_independent (libm_exp : float → float)
    (c1 c2 c3 : Pixel → Z) (imageData : Image)
    (width height kernelSize : Z) (sigma : float) :
  is_channel c1 → is_channel c2 → is_channel c3 →
  3 ≤ kernelSize → Z.odd kernelSize = true → 0 < width → 0 < height →
  covers imageData width height →
  let call img := applyGaussianBlur (binary64 libm_exp) img width height
                                    kernelSize sigma in
  ∃ result,
    call imageData = Return result ∧
    call (remix_image c1 c2 c3 imageData)
    = Return (remix_image c1 c2 c3 result).
Proof.
  intros H1 H2 H3 Hk Hodd Hw Hh Hc call. unfold call. eexists. split.
  - by apply (applyGaussianBlur_Return (binary64 libm_exp)).
  - rewrite (applyGaussianBlur_Return (binary64 libm_exp));
      [|done..|by apply covers_remix].
    by rewrite blurred_remix.
Qed.

Lemma X10_witness :
  let call img := applyGaussianBlur (binary64 exp_reference) img 1 1 3 1%float in
  ∃ result,
    call [[orange]] = Return result ∧
    call (remix_image b g r [[orange]]) = Return (remix_image b g r result).
Proof.
  apply (X10_channels_independent exp_reference b g r [[orange]] 1 1 3 1%float);
    [by right; right|by right; left|by left|lia|reflexivity|lia|lia|].
  apply dimensions_covers. split; [reflexivity|]. by repeat constructor.
Defined.

(** ** No overshoot *)

(** X11. When the values [exp] returns for the taps lie in [[0.0, 1.0]], the
    one of the centre being 1.0, the filter creates no level above the range
    of its input and none more than two levels below it: when a channel lies
    between [lo] and [hi] at every pixel of the [width] by [height] input, it
    lies between [lo - 2] and [hi] at every pixel of the output. *)
Theorem X11_no_overshoot (libm_exp : float → float) (imageData : Image)
    (width height kernelSize : Z) (sigma : float) (channel : Pixel → Z)
    (lo hi : Z) :
  3 ≤ kernelSize ≤ INT_MAX → Z.odd kernelSize = true →
  0 < width → 0 < height →
  covers imageData width height →
  ordinary_weights libm_exp kernelSize sigma = true →
  is_channel channel → 0 ≤ lo → hi ≤ 255 →
  (∀ y x, 0 ≤ y < height → 0 ≤ x < width →
          lo ≤ channel (pixel_at imageData y x) ≤ hi) →
  ∃ result,
    applyGaussianBlur (binary64 libm_exp) imageData width height kernelSize sigma
    = Return result ∧
    ∀ y x, 0 ≤ y < height → 0 ≤ x < width →
           lo - 2 ≤ channel (pixel_at result y x) ≤ hi.
Proof.
  intros Hk Hodd Hw Hh Hc Hord Hchannel Hlo Hhi Hrange. eexists. split.
  - apply (applyGaussianBlur_Return (binary64 libm_exp)); try done; lia.
  - intros y x Hy Hx. apply blurred_between; try done; lia.
Qed.

Lemma X11_witness :
  ∃ result,
    applyGaussianBlur (binary64 exp_reference) sample_image 2 3 3 1%float
    = Return result ∧
    ∀ y x, 0 ≤ y < 3 → 0 ≤ x < 2 → 1 - 2 ≤ r (pixel_at result y x) ≤ 4.
Proof.
  apply (X11_no_overshoot exp_reference sample_image 2 3 3 1%float r 1 4);
    [unfold INT_MAX; lia|reflexivity|lia|lia| |
     exact ordinary_weights_reference_3|by left|lia|lia|].
  - intros y Hy. assert (y = 0 ∨ y = 1 ∨ y = 2) as [-> | [-> | ->]] by lia;
      eexists; (split; [reflexivity|simpl; lia]).
  - intros y x Hy Hx.
    assert (y = 0 ∨ y = 1 ∨ y = 2) as [-> | [-> | ->]] by lia;
      (assert (x = 0 ∨ x = 1) as [-> | ->] by lia); simpl; lia.
Defined.

(** ** The index expressions stay in the range of [int] *)

Lemma checked_int_Some z : INT_MIN ≤ z ≤ INT_MAX → checked_int z = Some z.
Proof.
  intros H. unfold checked_int.
  by rewrite (proj2 (Z.leb_le _ _)), (proj2 (Z.leb_le _ _)) by lia.
Qed.

Lemma checked_int_None z : INT_MAX < z → checked_int z = None.
Proof.
  intros H. unfold checked_int.
  rewrite (proj2 (Z.leb_gt z INT_MAX)) by lia. by rewrite andb_false_r.
Qed.

(** X12. With [kernelSize] and the axis length in the range of [int], the
    expressions [i - center] of the kernel loop never overflow, and the
    sample coordinate [max(0, min(axisLength - 1, pos + k - center))]
    evaluated in [int] is the coordinate of the model exactly when
    [pos + k] does not exceed [INT_MAX]; it overflows otherwise. No overflow
    occurs when [axisLength + kernelSize <= INT_MAX]. *)
Theorem X12_int_overflow (axisLength kernelSize pos k i : Z) :
  0 < kernelSize ≤ INT_MAX → 0 < axisLength ≤ INT_MAX →
  0 ≤ pos < axisLength → 0 ≤ k < kernelSize → 0 ≤ i < kernelSize →
  let center := kernelSize `quot` 2 in
  kernel_offset_int kernelSize i = Some (i - center) ∧
  (pos + k ≤ INT_MAX →
     sample_coordinate_int axisLength pos k center
     = Some (sample_coordinate axisLength pos k center)) ∧
  (INT_MAX < pos + k →
     sample_coordinate_int axisLength pos k center = None) ∧
  (axisLength + kernelSize ≤ INT_MAX → pos + k ≤ INT_MAX).
Proof.
  intros Hk Ha Hpos Hk' Hi center.
  assert (0 ≤ center < kernelSize) as Hc.
  { pose proof (Z.quot_pos kernelSize 2). pose proof (Z.quot_lt kernelSize 2).
    unfold center. lia. }
  assert (kernelSize `quot` 2 = center) as Hcenter by done.
  clearbody center. unfold INT_MAX in *.
  split; [|split; [|split]].
  - unfold kernel_offset_int. rewrite Hcenter.
    rewrite (checked_int_Some center) by (unfold INT_MIN, INT_MAX; lia). simpl.
    apply checked_int_Some. unfold INT_MIN, INT_MAX. lia.
  - intros Hsum. unfold INT_MAX in Hsum. unfold sample_coordinate_int.
    rewrite (checked_int_Some (axisLength - 1)), (checked_int_Some (pos + k))
      by (unfold INT_MIN, INT_MAX; lia).
    simpl. by rewrite (checked_int_Some (pos + k - center))
      by (unfold INT_MIN, INT_MAX; lia).
  - intros Hsum. unfold INT_MAX in Hsum. unfold sample_coordinate_int.
    rewrite (checked_int_Some (axisLength - 1))
      by (unfold INT_MIN, INT_MAX; lia).
    by rewrite (checked_int_None (pos + k)) by (unfold INT_MAX; lia).
  - lia.
Qed.

Lemma X12_witness :
  let center := 5 `quot` 2 in
  kernel_offset_int 5 0 = Some (0 - center) ∧
  (799 + 4 ≤ INT_MAX →
     sample_coordinate_int 800 799 4 center
     = Some (sample_coordinate 800 799 4 center)) ∧
  (INT_MAX < 799 + 4 → sample_coordinate_int 800 799 4 center = None) ∧
  (800 + 5 ≤ INT_MAX → 799 + 4 ≤ INT_MAX).
Proof.
  apply (X12_int_overflow 800 5 799 4 0); unfold INT_MAX; lia.
Defined.

Example sample_coordinate_overflow :
  sample_coordinate_int INT_MAX (INT_MAX - 1) 2 1 = None.
Proof. reflexivity. Qed.
